(** * Lalona secure vault: a shallow embedding of the key hierarchy, the
    fragment pipeline, the randomized decryptor and the runtime guards.

    The TypeScript services are process-wide singletons that mutate typed
    arrays in place. They are embedded as computations in a state-and-exception
    monad over one [World]: a heap of byte buffers, the credential store, the
    file system, the static fields of the services and a log of the calls
    that cross the native bridge. Randomness, the clock and the behaviour of
    the platform are oracles stored in the read-only part of the world, so a
    statement quantified over every world covers every sequence of random
    choices.

    Bytes read from a [Uint8Array] are [Byte.byte]; JavaScript numbers that
    hold integers are [Z]; strings are [string], read as the UTF-8 bytes of
    the JavaScript string. *)

From Stdlib Require Import ZArith List String Ascii Lia QArith Qround.
From Stdlib Require Import Strings.Byte.
From stdpp Require Import base option list gmap strings pretty.

Local Open Scope Z_scope.

(** ** Bytes and typed-array stores *)

Abbreviation byte := Byte.byte (only parsing).
Abbreviation bytes := (list Byte.byte) (only parsing).

Global Instance byte_eq_decision : EqDecision Byte.byte := Byte.byte_eq_dec.

(** Reading an element of a [Uint8Array] as a number. *)
Definition byte_to_Z (b : byte) : Z := Z.of_N (Byte.to_N b).

(** Storing a number into a [Uint8Array] keeps its low eight bits. *)
Definition byte_of_Z (z : Z) : byte :=
  default x00 (Byte.of_N (Z.to_N (z mod 256))).

Definition zeros (n : nat) : bytes := replicate n x00.

(** [arr[i]] where an index past the end yields [undefined], which the
    bit operators read as 0. *)
Definition byte_at (arr : bytes) (i : nat) : Z :=
  match arr !! i with Some b => byte_to_Z b | None => 0 end.

(** ** Strings *)

(** [s.charCodeAt(i)]; past the end the result is NaN, read as 0 by [^]. *)
Definition charCodeAt (s : string) (i : nat) : Z :=
  match String.get i s with Some c => Z.of_N (N_of_ascii c) | None => 0 end.

Definition hex_digit (n : Z) : ascii :=
  if n <? 10 then ascii_of_N (Z.to_N (48 + n)) else ascii_of_N (Z.to_N (87 + n)).

(** Kotlin's [joinToString("") { "%02x".format(it) }], and Node's
    [toString('hex')]. *)
Fixpoint hex_of_bytes (bs : bytes) : string :=
  match bs with
  | [] => EmptyString
  | b :: rest =>
      String (hex_digit (byte_to_Z b / 16))
        (String (hex_digit (byte_to_Z b mod 16)) (hex_of_bytes rest))
  end.

(** [haystack.includes(needle)]. *)
Fixpoint includes (needle haystack : string) : bool :=
  String.prefix needle haystack ||
  match haystack with
  | EmptyString => false
  | String _ rest => includes needle rest
  end.

(** ** Exceptions *)

Inductive Exn : Type :=
| Error (message : string)              (* throw new Error(message) *)
| Rejected (code message : string).     (* promise.reject(code, message) *)

Inductive Result (A : Type) : Type :=
| Ok (a : A)
| Throw (e : Exn).
Arguments Ok {A} a.
Arguments Throw {A} e.

(** ** Oracles *)

(** One draw of [Math.random()]: a number in the half-open unit interval. *)
Record Draw : Type := mkDraw {
  draw_num : Z;
  draw_den : Z;
  draw_ok  : ((0 <=? draw_num) && (draw_num <? draw_den)) = true
}.

(** [Math.floor(Math.random() * n)]. For the bounds used by the program
    (at most 2^18) the floating-point product of a draw below 1 and [n] is
    below [n], so the floor is an integer of [0, n). *)
Definition floor_mul (u : Draw) (n : Z) : Z := (draw_num u * n) / draw_den u.

Record Env : Type := mkEnv {
  math_random   : nat → Draw;      (* the k-th value of Math.random() *)
  entropy       : nat → byte;      (* the byte stream behind RAND_bytes *)
  entropy_fails : nat → bool;      (* does RAND_bytes fail at this position *)
  store_faulty  : string → bool;   (* does SecureStore reject a delete of this key *)
  device_raw    : string;          (* DeviceBinding._build(): the joined identifiers *)
  documentDirectory : string;      (* FileSystem.documentDirectory *)
}.

(** ** The world *)

Abbreviation loc := nat (only parsing).

Inductive Event : Type :=
| EvNative (method : string)       (* a call of a NativeCrypto bridge method *)
| EvStoreDelete (key : string)
| EvStoreSet (key : string)
| EvFileWrite (path : string)
| EvVector (name : string)         (* a detection vector of FridaDetector ran *)
| EvDecoySync
| EvDecoyAsync
| EvDummySpin.

Record World : Type := mkWorld {
  env          : Env;
  heap         : list bytes;             (* every Uint8Array, by allocation order *)
  trace        : list Event;             (* oldest event first *)
  js_draws     : nat;                    (* draws of Math.random() consumed *)
  rng_pos      : nat;                    (* bytes of the entropy stream consumed *)
  secure_store : gmap string string;     (* expo-secure-store *)
  files        : gmap string string;     (* expo-file-system, path to content *)
  frida_lastCheck        : Z;            (* FridaDetector._lastCheck *)
  violationInProgress    : bool;         (* SecurityOrchestrator._violationInProgress *)
  eks_memorySalt         : option loc;   (* EphemeralKeyService._memorySalt *)
  re_bootTime            : Z;            (* RuntimeEntropy._bootTime *)
  re_frameCounter        : Z;            (* RuntimeEntropy._frameCounter *)
  re_scrollVelocity      : Q;            (* RuntimeEntropy._scrollVelocity *)
  re_memorySalt          : option loc;   (* RuntimeEntropy._memorySalt *)
  lm_buffers             : list loc;     (* LifecycleManager._buffers *)
}.

Definition set_heap (f : list bytes → list bytes) (w : World) : World :=
  mkWorld (env w) (f (heap w)) (trace w) (js_draws w) (rng_pos w) (secure_store w) (files w)
    (frida_lastCheck w) (violationInProgress w) (eks_memorySalt w) (re_bootTime w)
    (re_frameCounter w) (re_scrollVelocity w) (re_memorySalt w) (lm_buffers w).
Definition set_trace (f : list Event → list Event) (w : World) : World :=
  mkWorld (env w) (heap w) (f (trace w)) (js_draws w) (rng_pos w) (secure_store w) (files w)
    (frida_lastCheck w) (violationInProgress w) (eks_memorySalt w) (re_bootTime w)
    (re_frameCounter w) (re_scrollVelocity w) (re_memorySalt w) (lm_buffers w).
Definition set_js_draws (f : nat → nat) (w : World) : World :=
  mkWorld (env w) (heap w) (trace w) (f (js_draws w)) (rng_pos w) (secure_store w) (files w)
    (frida_lastCheck w) (violationInProgress w) (eks_memorySalt w) (re_bootTime w)
    (re_frameCounter w) (re_scrollVelocity w) (re_memorySalt w) (lm_buffers w).
Definition set_rng_pos (f : nat → nat) (w : World) : World :=
  mkWorld (env w) (heap w) (trace w) (js_draws w) (f (rng_pos w)) (secure_store w) (files w)
    (frida_lastCheck w) (violationInProgress w) (eks_memorySalt w) (re_bootTime w)
    (re_frameCounter w) (re_scrollVelocity w) (re_memorySalt w) (lm_buffers w).
Definition set_secure_store (f : gmap string string → gmap string string) (w : World) : World :=
  mkWorld (env w) (heap w) (trace w) (js_draws w) (rng_pos w) (f (secure_store w)) (files w)
    (frida_lastCheck w) (violationInProgress w) (eks_memorySalt w) (re_bootTime w)
    (re_frameCounter w) (re_scrollVelocity w) (re_memorySalt w) (lm_buffers w).
Definition set_files (f : gmap string string → gmap string string) (w : World) : World :=
  mkWorld (env w) (heap w) (trace w) (js_draws w) (rng_pos w) (secure_store w) (f (files w))
    (frida_lastCheck w) (violationInProgress w) (eks_memorySalt w) (re_bootTime w)
    (re_frameCounter w) (re_scrollVelocity w) (re_memorySalt w) (lm_buffers w).
Definition set_frida_lastCheck (t : Z) (w : World) : World :=
  mkWorld (env w) (heap w) (trace w) (js_draws w) (rng_pos w) (secure_store w) (files w)
    t (violationInProgress w) (eks_memorySalt w) (re_bootTime w)
    (re_frameCounter w) (re_scrollVelocity w) (re_memorySalt w) (lm_buffers w).
Definition set_violationInProgress (b : bool) (w : World) : World :=
  mkWorld (env w) (heap w) (trace w) (js_draws w) (rng_pos w) (secure_store w) (files w)
    (frida_lastCheck w) b (eks_memorySalt w) (re_bootTime w)
    (re_frameCounter w) (re_scrollVelocity w) (re_memorySalt w) (lm_buffers w).
Definition set_eks_memorySalt (o : option loc) (w : World) : World :=
  mkWorld (env w) (heap w) (trace w) (js_draws w) (rng_pos w) (secure_store w) (files w)
    (frida_lastCheck w) (violationInProgress w) o (re_bootTime w)
    (re_frameCounter w) (re_scrollVelocity w) (re_memorySalt w) (lm_buffers w).
Definition set_re_bootTime (t : Z) (w : World) : World :=
  mkWorld (env w) (heap w) (trace w) (js_draws w) (rng_pos w) (secure_store w) (files w)
    (frida_lastCheck w) (violationInProgress w) (eks_memorySalt w) t
    (re_frameCounter w) (re_scrollVelocity w) (re_memorySalt w) (lm_buffers w).
Definition set_re_frameCounter (c : Z) (w : World) : World :=
  mkWorld (env w) (heap w) (trace w) (js_draws w) (rng_pos w) (secure_store w) (files w)
    (frida_lastCheck w) (violationInProgress w) (eks_memorySalt w) (re_bootTime w)
    c (re_scrollVelocity w) (re_memorySalt w) (lm_buffers w).
Definition set_re_scrollVelocity (v : Q) (w : World) : World :=
  mkWorld (env w) (heap w) (trace w) (js_draws w) (rng_pos w) (secure_store w) (files w)
    (frida_lastCheck w) (violationInProgress w) (eks_memorySalt w) (re_bootTime w)
    (re_frameCounter w) v (re_memorySalt w) (lm_buffers w).
Definition set_re_memorySalt (o : option loc) (w : World) : World :=
  mkWorld (env w) (heap w) (trace w) (js_draws w) (rng_pos w) (secure_store w) (files w)
    (frida_lastCheck w) (violationInProgress w) (eks_memorySalt w) (re_bootTime w)
    (re_frameCounter w) (re_scrollVelocity w) o (lm_buffers w).
Definition set_lm_buffers (f : list loc → list loc) (w : World) : World :=
  mkWorld (env w) (heap w) (trace w) (js_draws w) (rng_pos w) (secure_store w) (files w)
    (frida_lastCheck w) (violationInProgress w) (eks_memorySalt w) (re_bootTime w)
    (re_frameCounter w) (re_scrollVelocity w) (re_memorySalt w) (f (lm_buffers w)).

(** ** The monad of the services *)

Definition M (A : Type) : Type := World → Result A * World.

Definition ret {A} (a : A) : M A := λ w, (Ok a, w).
Definition throw {A} (e : Exn) : M A := λ w, (Throw e, w).
Definition bind {A B} (m : M A) (k : A → M B) : M B :=
  λ w, match m w with
       | (Ok a, w') => k a w'
       | (Throw e, w') => (Throw e, w')
       end.

Notation "x <- m ;; k" := (bind m (λ x, k))
  (at level 100, m at next level, right associativity).
Notation "m ;; k" := (bind m (λ _, k))
  (at level 100, right associativity).

(** [try { body } finally { fin }]: [fin] runs on both exits; an exception
    of [fin] replaces the outcome of [body]. *)
Definition try_finally {A} (body : M A) (fin : M unit) : M A :=
  λ w, match body w with
       | (r, w') =>
           match fin w' with
           | (Ok _, w'') => (r, w'')
           | (Throw e, w'') => (Throw e, w'')
           end
       end.

(** [Promise.allSettled([m])], [m.catch(() => {})] and [try { m } catch {}]:
    the effects of [m] stay, its outcome is dropped. *)
Definition settled {A} (m : M A) : M unit := λ w, (Ok tt, snd (m w)).

Definition get_world : M World := λ w, (Ok w, w).
Definition modify (f : World → World) : M unit := λ w, (Ok tt, f w).
Definition log (e : Event) : M unit := modify (set_trace (λ t, t ++ [e])).

(** ** Typed arrays on the heap *)

(** [new Uint8Array(contents)]: a fresh buffer, never an alias. *)
Definition alloc (contents : bytes) : M loc :=
  λ w, (Ok (length (heap w)), set_heap (λ h, h ++ [contents]) w).

Definition read (l : loc) : M bytes :=
  λ w, (Ok (default [] (heap w !! l)), w).

Definition write (l : loc) (contents : bytes) : M unit :=
  modify (set_heap (λ h, <[l := contents]> h)).

(** The next value of [Math.random()]. *)
Definition Math_random : M Draw :=
  λ w, (Ok (math_random (env w) (js_draws w)), set_js_draws S w).

(** The next [n] bytes of the entropy stream. *)
Definition take_entropy (n : nat) : M bytes :=
  λ w, (Ok (map (λ k, entropy (env w) (rng_pos w + k)%nat) (seq 0 n)),
        set_rng_pos (λ p, (p + n)%nat) w).

(** ** constants.ts *)

Module CRYPTO_CONSTANTS.
Definition PBKDF2_ITERATIONS : Z := 310000.
Definition PBKDF2_KEY_LENGTH : Z := 64.
Definition AES_KEY_LENGTH : Z := 32.
Definition AES_IV_LENGTH : Z := 12.
Definition AES_TAG_LENGTH : Z := 16.
Definition HMAC_LENGTH : Z := 32.
Definition FRAGMENT_MIN_SIZE : Z := 51200.
Definition FRAGMENT_MAX_SIZE : Z := 204800.
Definition MAX_DECRYPTED_FRAGMENTS : nat := 2.
Definition CANARY_LENGTH : nat := 16.
Definition CANARY_TRAILING_PAD : nat := 16.
Definition CANARY_TOTAL_OVERHEAD : nat := (CANARY_LENGTH + CANARY_TRAILING_PAD)%nat.
Definition KEY_ROTATION_INTERVAL_MS : Z := 7 * 24 * 60 * 60 * 1000.
Definition SECURE_STORE_DEVICE_SALT : string := "ls_dsalt_v1".
Definition SECURE_STORE_USER_ID : string := "ls_uid_v1".
Definition SECURE_STORE_ROTATION_TS : string := "ls_rts_v1".
End CRYPTO_CONSTANTS.

Module HKDF_INFO_LABELS.
Definition CHAPTER_ROOT : string := "chapter-root".
Definition RUNTIME_EPHEMERAL : string := "runtime-ephemeral".
Definition CANARY_DERIVE : string := "canary-derive".
Definition HMAC_KEY : string := "hmac-key".
Definition METADATA_KEY : string := "metadata-key".
Definition FRAGMENT_MAP : string := "fragment-map".
Definition KEY_WRAP : string := "chapter-key-wrap".
End HKDF_INFO_LABELS.

Module STORAGE_CONSTANTS.
Definition ROOT_DIR : string := ".ls_v".
Definition META_DIR : string := ".ls_m".
Definition NOMEDIA_FILE : string := ".nomedia".
Definition FRAGMENT_EXT : string := ".dat".
End STORAGE_CONSTANTS.

Module SECURITY_CONSTANTS.
Definition WIPE_PASSES : nat := 3.
End SECURITY_CONSTANTS.

(** ** MemoryWiper.ts *)

Module MemoryWiper.
Definition PASSES : nat := SECURITY_CONSTANTS.WIPE_PASSES.

(** [for (i...) buf[i] = (Math.random() * 256) | 0] over [n] cells. *)
Fixpoint random_fill (n : nat) : M bytes :=
  match n with
  | O => ret []
  | S n' =>
      u <- Math_random ;;
      rest <- random_fill n' ;;
      ret (byte_of_Z (floor_mul u 256) :: rest)
  end.

Definition pass_body (l : loc) (pass : nat) : M unit :=
  buf <- read l ;;
  match (pass mod 3)%nat with
  | 0%nat => write l (replicate (length buf) x00)
  | 1%nat => write l (replicate (length buf) xff)
  | _ => fresh <- random_fill (length buf) ;; write l fresh
  end.

(** The passes [from], [from + 1], ..., [from + count - 1]. *)
Fixpoint passes (l : loc) (from count : nat) : M unit :=
  match count with
  | O => ret tt
  | S c => pass_body l from ;; passes l (S from) c
  end.

(** Multi-pass overwrite: zeros, ones, random, final zero. [None] is a
    [null] or [undefined] argument. *)
Definition wipeUint8Array (buf : option loc) : M unit :=
  match buf with
  | None => ret tt
  | Some l =>
      contents <- read l ;;
      if (length contents =? 0)%nat then ret tt
      else
        passes l 0 PASSES ;;
        write l (replicate (length contents) x00)
  end.
End MemoryWiper.

(** ** The native library and the encodings

    OpenSSL, the Base64 codecs of Node and of the JVM, the SHA-256 digest of
    expo-crypto and the JSON codec are outside the repository. They are the
    fields of [Primitives]; what the program relies on is [PrimitivesLaws]. *)

Record WrappedChapterKey : Type := mkWrapped {
  wrappedB64        : string;
  rotationTimestamp : Z;
  version           : Z
}.

Class Primitives : Type := {
  (* HMAC(EVP_sha256(), key, data) *)
  HMAC_SHA256 : bytes → bytes → bytes;
  (* EVP_aes_256_gcm: key, iv, aad, plaintext to ciphertext and tag *)
  AES_256_GCM_encrypt : bytes → bytes → bytes → bytes → bytes * bytes;
  (* key, iv, aad, ciphertext, tag to plaintext; None when the tag is wrong *)
  AES_256_GCM_decrypt : bytes → bytes → bytes → bytes → bytes → option bytes;
  (* PKCS5_PBKDF2_HMAC with SHA-512: password, salt, iterations, length *)
  PBKDF2_HMAC_SHA512 : bytes → bytes → Z → Z → option bytes;
  (* Buffer.toString('base64') and Base64.getEncoder() *)
  base64 : bytes → string;
  (* Buffer.from(s, 'base64'): never throws *)
  Buffer_from_base64 : string → bytes;
  (* Base64.getDecoder().decode(s): None when it throws *)
  Base64_decode : string → option bytes;
  (* Crypto.digestStringAsync(SHA256, s, HEX) *)
  sha256_hex : string → string;
  JSON_stringify : WrappedChapterKey → string;
  (* JSON.parse: None when it throws *)
  JSON_parse : string → option WrappedChapterKey;
  (* DisplayMutation.applyMutation(data, key): the contents of the array it
     returns. DisplayMutation.ts is not part of the sources at hand. *)
  DisplayMutation_applyMutation : bytes → bytes → bytes;
}.

Class PrimitivesLaws (P : Primitives) : Prop := {
  HMAC_SHA256_length : ∀ key data, length (HMAC_SHA256 key data) = 32%nat;
  AES_256_GCM_tag_length : ∀ key iv aad pt,
    length (AES_256_GCM_encrypt key iv aad pt).2 = 16%nat;
  AES_256_GCM_decrypt_encrypt : ∀ key iv aad pt,
    AES_256_GCM_decrypt key iv aad
      (AES_256_GCM_encrypt key iv aad pt).1 (AES_256_GCM_encrypt key iv aad pt).2 = Some pt;
  Buffer_from_base64_encode : ∀ bs, Buffer_from_base64 (base64 bs) = bs;
  Base64_decode_encode : ∀ bs, Base64_decode (base64 bs) = Some bs;
  base64_nonempty : ∀ bs, bs ≠ [] → base64 bs ≠ EmptyString;
}.

(** [Buffer.from(s, 'utf8')] and Kotlin's [toByteArray(Charsets.UTF_8)]. *)
Definition utf8 (s : string) : bytes := list_byte_of_string s.

(** The message of the exception a JVM call raised. *)
Definition jvm_message : string := "Illegal base64 character".

(** ** crypto_core.c *)

Module crypto_core.
Section with_primitives.
Context `{P : Primitives}.

(** HKDF-Expand: [T(n) = HMAC(PRK, T(n-1) || info || n)], one block per
    round until [remaining] bytes are written; [ctr] is a [uint8_t]. *)
Fixpoint expand (fuel : nat) (prk info T : bytes) (ctr : Z) (remaining : nat) : bytes :=
  match fuel with
  | O => []
  | S fuel' =>
      if (remaining =? 0)%nat then []
      else
        let T' := HMAC_SHA256 prk ((if 1 <? ctr then T else []) ++ info ++ [byte_of_Z ctr]) in
        let copy := (if (remaining <? 32)%nat then remaining else 32)%nat in
        take copy T' ++ expand fuel' prk info T' ((ctr + 1) mod 256) (remaining - copy)
  end.

(** HKDF-SHA256, extract then expand. *)
Definition nativeHKDF (ikm salt info : bytes) (out_len : nat) : bytes :=
  let prk := HMAC_SHA256 salt ikm in
  expand out_len prk info (zeros 32) 1 out_len.

(** Output layout: IV(12) || ciphertext || tag(16). The IV is whatever
    [RAND_bytes(iv, 12)] left in the buffer: its result is not checked. *)
Definition nativeAESGCMEncrypt (key pt : bytes) (aad : option bytes) : M (option bytes) :=
  if negb (length key =? 32)%nat then ret None
  else
    iv <- take_entropy 12 ;;
    let '(ct, tag) := AES_256_GCM_encrypt key iv (default [] aad) pt in
    ret (Some (iv ++ ct ++ tag)).

(** Input layout: IV(12) || ciphertext || tag(16); [None] is the NULL
    returned on a bad key, a short blob or a tag mismatch. *)
Definition nativeAESGCMDecrypt (key blob : bytes) (aad : option bytes) : option bytes :=
  if negb (length key =? 32)%nat || (length blob <? 28)%nat then None
  else
    let iv := take 12 blob in
    let ct_len := (length blob - 12 - 16)%nat in
    let ct := take ct_len (drop 12 blob) in
    let tag := drop (12 + ct_len) blob in
    AES_256_GCM_decrypt key iv (default [] aad) ct tag.

Definition nativeHMACSHA256 (key data : bytes) : bytes := HMAC_SHA256 key data.

(** [nativeRandomBytes]: NULL for a length outside [1, 4096] and when
    [RAND_bytes] fails. *)
Definition nativeRandomBytes (length : Z) : M (option bytes) :=
  if (length <=? 0) || (4096 <? length) then ret None
  else
    w <- get_world ;;
    buf <- take_entropy (Z.to_nat length) ;;
    if entropy_fails (env w) (rng_pos w) then ret None
    else ret (Some buf).
End with_primitives.
End crypto_core.

(** ** NativeCryptoModule.kt: the bridge *)

Module NativeCrypto.
Section with_primitives.
Context `{P : Primitives}.

(** Kotlin's [Double.toInt()] on a number that holds an integer:
    saturation at the bounds of [Int]. *)
Definition toInt (d : Z) : Z := Z.max (-2147483648) (Z.min 2147483647 d).

Definition hkdf (ikmB64 saltB64 infoLabel : string) (outLength : nat) : M string :=
  log (EvNative "hkdf") ;;
  match Base64_decode ikmB64, Base64_decode saltB64 with
  | Some ikm, Some salt =>
      ret (base64 (crypto_core.nativeHKDF ikm salt (utf8 infoLabel) outLength))
  | _, _ => throw (Rejected "HKDF_ERROR" jvm_message)
  end.

Definition aesGCMEncrypt (keyB64 plaintextB64 : string) (aadB64 : option string) : M string :=
  log (EvNative "aesGCMEncrypt") ;;
  match Base64_decode keyB64, Base64_decode plaintextB64,
        from_option (λ a, option_map Some (Base64_decode a)) (Some None) aadB64 with
  | Some key, Some pt, Some aad =>
      result <- crypto_core.nativeAESGCMEncrypt key pt aad ;;
      match result with
      | Some result => ret (base64 result)
      | None => throw (Rejected "AES_ENC_FAILED" "Encryption returned null")
      end
  | _, _, _ => throw (Rejected "AES_ENC_ERROR" jvm_message)
  end.

Definition aesGCMDecrypt (keyB64 blobB64 : string) (aadB64 : option string) : M string :=
  log (EvNative "aesGCMDecrypt") ;;
  match Base64_decode keyB64, Base64_decode blobB64,
        from_option (λ a, option_map Some (Base64_decode a)) (Some None) aadB64 with
  | Some key, Some blob, Some aad =>
      match crypto_core.nativeAESGCMDecrypt key blob aad with
      | Some result => ret (base64 result)
      | None => throw (Rejected "AES_AUTH_FAIL" "GCM tag mismatch — integrity violation")
      end
  | _, _, _ => throw (Rejected "AES_DEC_ERROR" jvm_message)
  end.

Definition hmacSHA256 (keyB64 dataB64 : string) : M string :=
  log (EvNative "hmacSHA256") ;;
  match Base64_decode keyB64, Base64_decode dataB64 with
  | Some key, Some data => ret (hex_of_bytes (crypto_core.nativeHMACSHA256 key data))
  | _, _ => throw (Rejected "HMAC_ERROR" jvm_message)
  end.

Definition pbkdf2 (passwordB64 saltB64 : string) (iterations keyLength : Z) : M string :=
  log (EvNative "pbkdf2") ;;
  match Base64_decode passwordB64, Base64_decode saltB64 with
  | Some pwd, Some salt =>
      match PBKDF2_HMAC_SHA512 pwd salt (toInt iterations) (toInt keyLength) with
      | Some result => ret (base64 result)
      | None => throw (Rejected "PBKDF2_FAILED" "Derivation returned null")
      end
  | _, _ => throw (Rejected "PBKDF2_ERROR" jvm_message)
  end.

Definition randomBytes (length : Z) : M string :=
  log (EvNative "randomBytes") ;;
  result <- crypto_core.nativeRandomBytes (toInt length) ;;
  match result with
  | Some bs => ret (base64 bs)
  | None => throw (Rejected "RAND_FAILED" "RNG returned null")
  end.
End with_primitives.
End NativeCrypto.

(** ** CryptoEngine.ts *)

Record EncryptedBlob : Type := mkBlob {
  blob_data   : string;           (* Base64: IV(12) || ciphertext || tag(16) *)
  blob_aadB64 : option string
}.

Module CryptoEngine.
Section with_primitives.
Context `{P : Primitives}.

Definition encrypt (key plaintext : bytes) (aad : option bytes) : M EncryptedBlob :=
  let keyB64 := base64 key in
  let ptB64 := base64 plaintext in
  let aadB64 := option_map base64 aad in
  data <- NativeCrypto.aesGCMEncrypt keyB64 ptB64 aadB64 ;;
  ret (mkBlob data aadB64).

(** Returns a fresh array that the caller must wipe. *)
Definition decrypt (key : bytes) (blob : EncryptedBlob) : M loc :=
  let keyB64 := base64 key in
  let aadB64 := blob_aadB64 blob in
  ptB64 <- NativeCrypto.aesGCMDecrypt keyB64 (blob_data blob) aadB64 ;;
  if String.eqb ptB64 EmptyString
  then throw (Error "GCM authentication tag mismatch — fragment integrity violated")
  else alloc (Buffer_from_base64 ptB64).

Definition hmacSHA256 (key data : bytes) : M string :=
  NativeCrypto.hmacSHA256 (base64 key) (base64 data).

(** The comparison loop of [verifyHMAC]: OR of the XORs of the char codes. *)
Fixpoint diff_loop (computed expectedHex : string) (i count : nat) (diff : Z) : Z :=
  match count with
  | O => diff
  | S c =>
      diff_loop computed expectedHex (S i) c
        (Z.lor diff (Z.lxor (charCodeAt computed i) (charCodeAt expectedHex i)))
  end.

Definition verifyHMAC (key data : bytes) (expectedHex : string) : M bool :=
  computed <- hmacSHA256 key data ;;
  if negb (String.length computed =? String.length expectedHex)%nat then ret false
  else ret (diff_loop computed expectedHex 0 (String.length computed) 0 =? 0).

Definition randomBytes (length : Z) : M loc :=
  b64 <- NativeCrypto.randomBytes length ;;
  alloc (Buffer_from_base64 b64).
End with_primitives.
End CryptoEngine.

(** ** Typed-array operations used by the services *)

(** [target.set(src, offset)]: a RangeError when [src] does not fit. *)
Definition typed_set (target : loc) (src : bytes) (offset : nat) : M unit :=
  buf <- read target ;;
  if (length buf <? offset + length src)%nat
  then throw (Error "RangeError: offset is out of bounds")
  else write target (take offset buf ++ src ++ drop (offset + length src) buf).

(** [target[i] = v]: the low eight bits of [v]; no effect past the end. *)
Definition store (target : loc) (i : nat) (v : Z) : M unit :=
  buf <- read target ;;
  write target (<[i := byte_of_Z v]> buf).

(** ** CanaryService.ts

    Layout after embedding, before AES:
    original fragment data, canary (16 bytes), derived padding (16 bytes). *)

Module CanaryService.
Section with_primitives.
Context `{P : Primitives}.
Import CRYPTO_CONSTANTS.

(** Per-fragment canary bytes derived from the chapter root key. *)
Definition derive (chapterRootKey : bytes) (fragmentIndex : Z) : M loc :=
  let ikmB64 := base64 chapterRootKey in
  let saltB64 := base64 (utf8 ("canary:" +:+ pretty fragmentIndex)) in
  b64 <- NativeCrypto.hkdf ikmB64 saltB64 HKDF_INFO_LABELS.CANARY_DERIVE CANARY_LENGTH ;;
  alloc (Buffer_from_base64 b64).

(** The padding loop, from [i] for [count] rounds:
    [out[dataLen + CANARY_LENGTH + i] = canary[i % CANARY_LENGTH] ^ ((i + 1) * 0x5A)]. *)
Fixpoint pad_loop (out canary : loc) (dataLen i count : nat) : M unit :=
  match count with
  | O => ret tt
  | S c =>
      cn <- read canary ;;
      store out (dataLen + CANARY_LENGTH + i)
        (Z.lxor (byte_at cn (i mod CANARY_LENGTH)) ((Z.of_nat i + 1) * 90)) ;;
      pad_loop out canary dataLen (S i) c
  end.

(** Append canary and derived padding to the fragment data. *)
Definition embed (data : bytes) (canary : loc) : M loc :=
  let pad := CANARY_TRAILING_PAD in
  out <- alloc (zeros (length data + CANARY_TOTAL_OVERHEAD)) ;;
  typed_set out data 0 ;;
  cn <- read canary ;;
  typed_set out cn (length data) ;;
  pad_loop out canary (length data) 0 pad ;;
  ret out.

Fixpoint verify_loop (d e : bytes) (canaryStart i count : nat) (diff : Z) : Z :=
  match count with
  | O => diff
  | S c =>
      verify_loop d e canaryStart (S i) c
        (Z.lor diff (Z.lxor (byte_at d (canaryStart + i)) (byte_at e i)))
  end.

(** Constant-time canary verification. *)
Definition verify (dataWithCanary expectedCanary : loc) : M bool :=
  d <- read dataWithCanary ;;
  let len := length d in
  if (len <? CANARY_TOTAL_OVERHEAD)%nat then ret false
  else
    let canaryStart := (len - CANARY_TOTAL_OVERHEAD)%nat in
    e <- read expectedCanary ;;
    ret (verify_loop d e canaryStart 0 CANARY_LENGTH 0 =? 0).

(** Strip canary and padding: a copy of the original data. *)
Definition strip (dataWithCanary : loc) : M loc :=
  d <- read dataWithCanary ;;
  if (length d <? CANARY_TOTAL_OVERHEAD)%nat
  then throw (Error "RangeError: Invalid typed array length")
  else
    let origLen := (length d - CANARY_TOTAL_OVERHEAD)%nat in
    result <- alloc (zeros origLen) ;;
    typed_set result (take origLen d) 0 ;;
    ret result.
End with_primitives.
End CanaryService.

(** ** FragmentEngine.ts *)

Record RawFragment : Type := mkRaw {
  rf_index  : Z;
  rf_offset : Z;        (* byteOffset of the view [data] within the image *)
  rf_data   : bytes;    (* contents of the view *)
  rf_size   : Z
}.

Record EncryptedFragment : Type := mkEnc {
  ef_index         : Z;
  ef_encryptedData : string;   (* Base64: IV(12) || CT || Tag(16) *)
  ef_aadB64        : string;   (* Base64 AAD *)
  ef_hmac          : string;   (* hex HMAC-SHA256 over encryptedData *)
  ef_originalSize  : Z
}.

Module FragmentEngine.
Section with_primitives.
Context `{P : Primitives}.
Import CRYPTO_CONSTANTS.

(** The size drawn for the next fragment. [Math.random()] is called only
    when the range is not empty. *)
Definition draw_size (remaining : Z) : M Z :=
  let minSz := Z.min FRAGMENT_MIN_SIZE remaining in
  let maxSz := Z.min FRAGMENT_MAX_SIZE remaining in
  if minSz <? maxSz
  then u <- Math_random ;; ret (minSz + floor_mul u (maxSz - minSz))
  else ret (minSz + 0).

(** The [while (offset < raw.length)] loop. [None] would mean that the
    fuel ran out before the loop ended. *)
Fixpoint split_loop (fuel : nat) (raw : bytes) (offset index : Z)
    (fragments : list RawFragment) : M (option (list RawFragment)) :=
  if Z.of_nat (length raw) <=? offset then ret (Some fragments)
  else
    match fuel with
    | O => ret None
    | S fuel' =>
        let remaining := Z.of_nat (length raw) - offset in
        size <- draw_size remaining ;;
        let data := take (Z.to_nat size) (drop (Z.to_nat offset) raw) in
        split_loop fuel' raw (offset + size) (index + 1)
          (fragments ++ [mkRaw index offset data size])
    end.

(** Split raw image data into randomized fragments. Every round consumes
    at least one byte, so [length raw] rounds are enough. *)
Definition split (raw : bytes) : M (option (list RawFragment)) :=
  split_loop (length raw) raw 0 0 [].

Definition aad_of (imageId : string) (index : Z) : bytes :=
  utf8 (imageId +:+ ":" +:+ pretty index).

(** Encrypt a single fragment: embed canary, AES-256-GCM under the
    chapter root key, HMAC over the ciphertext. *)
Definition encryptFragment (fragment : RawFragment) (chapterRootKey hmacKey : bytes)
    (imageId : string) : M EncryptedFragment :=
  canary <- CanaryService.derive chapterRootKey (rf_index fragment) ;;
  dataWithCanary <- CanaryService.embed (rf_data fragment) canary ;;
  MemoryWiper.wipeUint8Array (Some canary) ;;
  let aadRaw := aad_of imageId (rf_index fragment) in
  let aadB64 := base64 aadRaw in
  plaintext <- read dataWithCanary ;;
  blob <- CryptoEngine.encrypt chapterRootKey plaintext (Some aadRaw) ;;
  MemoryWiper.wipeUint8Array (Some dataWithCanary) ;;
  let encBytes := Buffer_from_base64 (blob_data blob) in
  hmac <- CryptoEngine.hmacSHA256 hmacKey encBytes ;;
  ret (mkEnc (rf_index fragment) (blob_data blob) aadB64 hmac (rf_size fragment)).

(** Decrypt a single fragment: verify HMAC, verify the AAD binding,
    AES-256-GCM decrypt, verify canary, strip canary. *)
Definition decryptFragment (ef : EncryptedFragment) (chapterRootKey hmacKey : bytes)
    (imageId : string) : M loc :=
  let encBytes := Buffer_from_base64 (ef_encryptedData ef) in
  hmacOk <- CryptoEngine.verifyHMAC hmacKey encBytes (ef_hmac ef) ;;
  if negb hmacOk
  then throw (Error ("HMAC mismatch on fragment " +:+ pretty (ef_index ef)
                       +:+ " of " +:+ imageId))
  else
    let expectedAad := base64 (aad_of imageId (ef_index ef)) in
    if negb (String.eqb (ef_aadB64 ef) expectedAad)
    then throw (Error ("AAD mismatch on fragment " +:+ pretty (ef_index ef)
                         +:+ " — possible substitution attack"))
    else
      decrypted <- CryptoEngine.decrypt chapterRootKey
                     (mkBlob (ef_encryptedData ef) (Some (ef_aadB64 ef))) ;;
      canary <- CanaryService.derive chapterRootKey (ef_index ef) ;;
      canaryOk <- CanaryService.verify decrypted canary ;;
      MemoryWiper.wipeUint8Array (Some canary) ;;
      if negb canaryOk
      then
        MemoryWiper.wipeUint8Array (Some decrypted) ;;
        throw (Error ("Canary mismatch on fragment " +:+ pretty (ef_index ef)
                        +:+ " — data tampering detected"))
      else
        result <- CanaryService.strip decrypted ;;
        MemoryWiper.wipeUint8Array (Some decrypted) ;;
        ret result.
End with_primitives.
End FragmentEngine.

(** ** EphemeralKeyService.ts *)

Record RuntimeEntropyBundle : Type := mkBundle {
  bootTime       : Z;       (* ms since epoch at session start *)
  frameCounter   : Z;
  scrollVelocity : Q;       (* pixels per ms; a rational stands for the double *)
  chunkIndex     : Z;
  memorySalt     : bytes    (* contents of the 16-byte salt copy *)
}.

(** [Math.round]: the nearest integer, halves towards plus infinity. *)
Definition Math_round (x : Q) : Z := Qfloor (x + (1 # 2))%Q.

Definition le_bytes (n : nat) (v : Z) : bytes :=
  map (λ k, byte_of_Z (v / 2 ^ (8 * Z.of_nat k))) (seq 0 n).

(** [buf.writeBigInt64LE(BigInt(v), off)]: the eight bytes written, or the
    RangeError for a value outside the signed 64-bit range. *)
Definition writeBigInt64LE (v : Z) : M bytes :=
  if (- 2 ^ 63 <=? v) && (v <? 2 ^ 63) then ret (le_bytes 8 v)
  else throw (Error "RangeError: the value is out of range").

Module EphemeralKeyService.
Section with_primitives.
Context `{P : Primitives}.

Definition SALT_LEN : nat := 16.
Definition KEY_LEN : nat := 32.

Definition getOrCreateMemorySalt : M loc :=
  w <- get_world ;;
  (match eks_memorySalt w with
   | Some _ => ret tt
   | None =>
       b64 <- NativeCrypto.randomBytes (Z.of_nat SALT_LEN) ;;
       l <- alloc (Buffer_from_base64 b64) ;;
       modify (set_eks_memorySalt (Some l))
   end) ;;
  w' <- get_world ;;
  salt <- from_option read (ret []) (eks_memorySalt w') ;;
  alloc salt.

Definition wipeMemorySalt : M unit :=
  w <- get_world ;;
  match eks_memorySalt w with
  | Some l =>
      MemoryWiper.wipeUint8Array (Some l) ;;
      modify (set_eks_memorySalt None)
  | None => ret tt
  end.

(** The fixed-width serialization of the entropy bundle. *)
Definition serialize (entropy : RuntimeEntropyBundle) : M bytes :=
  b0 <- writeBigInt64LE (bootTime entropy) ;;
  b1 <- writeBigInt64LE (frameCounter entropy) ;;
  b2 <- writeBigInt64LE (Math_round (scrollVelocity entropy * 1000)%Q) ;;
  b3 <- writeBigInt64LE (chunkIndex entropy) ;;
  ret (b0 ++ b1 ++ b2 ++ b3 ++ memorySalt entropy).

Definition deriveEphemeralKey (chapterRootKey : bytes) (entropy : RuntimeEntropyBundle)
    : M loc :=
  blob <- serialize entropy ;;
  buf <- alloc blob ;;
  let ikmB64 := base64 chapterRootKey in
  let saltB64 := base64 blob in
  write buf (replicate (length blob) x00) ;;
  b64 <- NativeCrypto.hkdf ikmB64 saltB64 HKDF_INFO_LABELS.RUNTIME_EPHEMERAL KEY_LEN ;;
  alloc (Buffer_from_base64 b64).

Definition buildBundle (frameCounter : Z) (scrollVelocity : Q) (chunkIndex bootTime : Z)
    : M RuntimeEntropyBundle :=
  w <- get_world ;;
  salt <- match eks_memorySalt w with
          | Some l => read l
          | None => ret (zeros SALT_LEN)
          end ;;
  ret (mkBundle bootTime frameCounter scrollVelocity chunkIndex salt).
End with_primitives.
End EphemeralKeyService.

(** ** RuntimeEntropy.ts *)

Module RuntimeEntropy.
Section with_primitives.
Context `{P : Primitives}.

Definition incrementFrameCounter : M unit :=
  w <- get_world ;;
  modify (set_re_frameCounter ((re_frameCounter w + 1) mod 2 ^ 32)).

Definition updateScrollVelocity (velocityPxPerMs : Q) : M unit :=
  modify (set_re_scrollVelocity velocityPxPerMs).

Definition wipe : M unit :=
  w <- get_world ;;
  (match re_memorySalt w with
   | Some l =>
       MemoryWiper.wipeUint8Array (Some l) ;;
       modify (set_re_memorySalt None)
   | None => ret tt
   end) ;;
  EphemeralKeyService.wipeMemorySalt ;;
  modify (set_re_frameCounter 0) ;;
  modify (set_re_scrollVelocity 0%Q) ;;
  modify (set_re_bootTime 0).
End with_primitives.
End RuntimeEntropy.

(** ** DecoyCrypto.ts *)

Module DecoyCrypto.
Section with_primitives.
Context `{P : Primitives}.

Fixpoint draws (n : nat) : M unit :=
  match n with
  | O => ret tt
  | S n' => Math_random ;; draws n'
  end.

(** The CPU-bound decoy: a buffer of 48 to 159 random bytes, scrambled
    and dropped. Only its draws of [Math.random()] are visible. *)
Definition runSync : M unit :=
  log EvDecoySync ;;
  u <- Math_random ;;
  draws (Z.to_nat (48 + floor_mul u 112)).

Definition _oneOp : M unit :=
  settled (
    keyB64 <- NativeCrypto.randomBytes 32 ;;
    u <- Math_random ;;
    dataB64 <- NativeCrypto.randomBytes (64 + floor_mul u 192) ;;
    NativeCrypto.aesGCMEncrypt keyB64 dataB64 None).

Fixpoint ops (count : nat) : M unit :=
  match count with
  | O => ret tt
  | S c => _oneOp ;; ops c
  end.

(** [run(count)] is fire-and-forget. The native calls of the decoy are
    placed at the call site; their results are dropped. *)
Definition run (count : nat) : M unit :=
  log EvDecoyAsync ;; ops count.
End with_primitives.
End DecoyCrypto.

(** ** VirtualDecryptor.ts *)

Inductive ProgramStep : Type :=
| HMAC_VERIFY | REAL_DECRYPT | CANARY_CHECK | EPHEMERAL_DERIVE | DISPLAY_MUTATE
| DECOY_INJECT | DUMMY_SPIN.

Global Instance ProgramStep_eq_dec : EqDecision ProgramStep.
Proof. solve_decision. Defined.

Record VirtualProgram : Type := mkProgram {
  orderedSteps  : list ProgramStep;
  fragmentIndex : Z;
  entropyBundle : RuntimeEntropyBundle
}.

Record ChapterKeyBundle : Type := mkKeys {
  chapterRootKey : bytes;
  hmacKey        : bytes;
  metadataKey    : bytes;
  fragmentMapKey : bytes
}.

(** [steps.splice(pos, 0, step)]. *)
Definition splice {A} (pos : nat) (x : A) (l : list A) : list A :=
  take pos l ++ x :: drop pos l.

Module VirtualDecryptor.
Section with_primitives.
Context `{P : Primitives}.

Definition real : list ProgramStep :=
  [HMAC_VERIFY; REAL_DECRYPT; CANARY_CHECK; EPHEMERAL_DERIVE; DISPLAY_MUTATE].

(** [count] insertions of [step], each at a random position. *)
Fixpoint inject (count : nat) (step : ProgramStep) (steps : list ProgramStep)
    : M (list ProgramStep) :=
  match count with
  | O => ret steps
  | S c =>
      u <- Math_random ;;
      inject c step
        (splice (Z.to_nat (floor_mul u (Z.of_nat (length steps) + 1))) step steps)
  end.

(** Build a randomized execution program. *)
Definition buildProgram (fragmentIndex : Z) (entropy : RuntimeEntropyBundle)
    : M VirtualProgram :=
  let steps := real in
  u <- Math_random ;;
  let decoyCount := 2 + floor_mul u 3 in
  steps <- inject (Z.to_nat decoyCount) DECOY_INJECT steps ;;
  u' <- Math_random ;;
  let dummyCount := 1 + floor_mul u' 3 in
  steps <- inject (Z.to_nat dummyCount) DUMMY_SPIN steps ;;
  ret (mkProgram steps fragmentIndex entropy).

(** The three locals of [execute]. *)
Record Locals : Type := mkLocals {
  rawDecrypted  : option loc;
  ephemeralKey  : option loc;
  mutatedResult : option loc
}.

Definition applyMutation (data key : loc) : M loc :=
  d <- read data ;;
  k <- read key ;;
  alloc (DisplayMutation_applyMutation d k).

Definition _dummySpin : M unit := log EvDummySpin.

(** One round of the [for ... switch] of [execute]. *)
Definition exec_step (program : VirtualProgram) (encryptedFragment : EncryptedFragment)
    (keyBundle : ChapterKeyBundle) (imageId : string) (st : Locals) (step : ProgramStep)
    : M Locals :=
  match step with
  | HMAC_VERIFY => ret st
  | REAL_DECRYPT =>
      l <- FragmentEngine.decryptFragment encryptedFragment
             (chapterRootKey keyBundle) (hmacKey keyBundle) imageId ;;
      ret (mkLocals (Some l) (ephemeralKey st) (mutatedResult st))
  | CANARY_CHECK =>
      match rawDecrypted st with
      | None => throw (Error "CANARY_CHECK before REAL_DECRYPT")
      | Some _ => ret st
      end
  | EPHEMERAL_DERIVE =>
      match rawDecrypted st with
      | None => throw (Error "EPHEMERAL_DERIVE before REAL_DECRYPT")
      | Some _ =>
          ek <- EphemeralKeyService.deriveEphemeralKey
                  (chapterRootKey keyBundle) (entropyBundle program) ;;
          ret (mkLocals (rawDecrypted st) (Some ek) (mutatedResult st))
      end
  | DISPLAY_MUTATE =>
      match rawDecrypted st, ephemeralKey st with
      | Some raw, Some ek =>
          m <- applyMutation raw ek ;;
          MemoryWiper.wipeUint8Array (Some raw) ;;
          MemoryWiper.wipeUint8Array (Some ek) ;;
          ret (mkLocals None None (Some m))
      | _, _ => throw (Error "DISPLAY_MUTATE: prerequisites not met")
      end
  | DECOY_INJECT => DecoyCrypto.run 1 ;; ret st
  | DUMMY_SPIN => _dummySpin ;; ret st
  end.

Fixpoint exec_steps (program : VirtualProgram) (encryptedFragment : EncryptedFragment)
    (keyBundle : ChapterKeyBundle) (imageId : string) (st : Locals)
    (steps : list ProgramStep) : M Locals :=
  match steps with
  | [] => ret st
  | step :: rest =>
      st' <- exec_step program encryptedFragment keyBundle imageId st step ;;
      exec_steps program encryptedFragment keyBundle imageId st' rest
  end.

(** Execute the virtual program; returns the display-mutated bytes. *)
Definition execute (program : VirtualProgram) (encryptedFragment : EncryptedFragment)
    (keyBundle : ChapterKeyBundle) (imageId : string) : M loc :=
  DecoyCrypto.runSync ;;
  DecoyCrypto.run 1 ;;
  st <- exec_steps program encryptedFragment keyBundle imageId
          (mkLocals None None None) (orderedSteps program) ;;
  DecoyCrypto.runSync ;;
  match mutatedResult st with
  | None => throw (Error "VirtualDecryptor: program terminated without DISPLAY_MUTATE completing")
  | Some m => ret m
  end.
End with_primitives.
End VirtualDecryptor.

(** ** expo-secure-store and expo-file-system *)

Module SecureStore.
Definition getItemAsync (key : string) : M (option string) :=
  w <- get_world ;; ret (secure_store w !! key).

Definition setItemAsync (key value : string) : M unit :=
  log (EvStoreSet key) ;;
  modify (set_secure_store (λ m, <[key := value]> m)).

Definition deleteItemAsync (key : string) : M unit :=
  log (EvStoreDelete key) ;;
  w <- get_world ;;
  if store_faulty (env w) key
  then throw (Rejected "ERR_SECURESTORE" "Could not delete the value")
  else modify (set_secure_store (λ m, delete key m)).
End SecureStore.

Module FileSystem.
Definition exists_ (path : string) : M bool :=
  w <- get_world ;; ret (bool_decide (is_Some (files w !! path))).

Definition writeAsStringAsync (path contents : string) : M unit :=
  log (EvFileWrite path) ;;
  modify (set_files (λ m, <[path := contents]> m)).

Definition readAsStringAsync (path : string) : M string :=
  w <- get_world ;;
  match files w !! path with
  | Some contents => ret contents
  | None => throw (Rejected "ERR_FILESYSTEM" "File does not exist")
  end.
End FileSystem.

(** ** SecureFileStorage.ts *)

Module SecureFileStorage.
Section with_primitives.
Context `{P : Primitives}.

Definition VAULT_ROOT (w : World) : string :=
  documentDirectory (env w) +:+ STORAGE_CONSTANTS.ROOT_DIR +:+ "/".
Definition META_ROOT (w : World) : string :=
  documentDirectory (env w) +:+ STORAGE_CONSTANTS.META_DIR +:+ "/".

Definition getChapterDir (chapterId : string) : M string :=
  w <- get_world ;;
  ret (VAULT_ROOT w +:+ sha256_hex ("dir:" +:+ chapterId) +:+ "/").

Definition fragmentFilename (chapterId : string) (fragmentIndex : Z) (salt : string) : string :=
  sha256_hex (chapterId +:+ ":" +:+ pretty fragmentIndex +:+ ":" +:+ salt)
    +:+ STORAGE_CONSTANTS.FRAGMENT_EXT.

Definition _ensureNomedia (dir : string) : M unit :=
  let p := dir +:+ STORAGE_CONSTANTS.NOMEDIA_FILE in
  present <- FileSystem.exists_ p ;;
  if present then ret tt else FileSystem.writeAsStringAsync p EmptyString.

Definition initChapterDir (chapterId : string) : M string :=
  dir <- getChapterDir chapterId ;;
  _ensureNomedia dir ;;
  ret dir.

Definition writeFragment (chapterId filename dataB64 : string) : M unit :=
  dir <- initChapterDir chapterId ;;
  FileSystem.writeAsStringAsync (dir +:+ filename) dataB64.

Definition readFragment (chapterId filename : string) : M string :=
  dir <- getChapterDir chapterId ;;
  FileSystem.readAsStringAsync (dir +:+ filename).

Definition writeMeta (key value : string) : M unit :=
  w <- get_world ;;
  FileSystem.writeAsStringAsync (META_ROOT w +:+ sha256_hex key) value.

Definition readMeta (key : string) : M (option string) :=
  w <- get_world ;;
  let filepath := META_ROOT w +:+ sha256_hex key in
  present <- FileSystem.exists_ filepath ;;
  if present then contents <- FileSystem.readAsStringAsync filepath ;; ret (Some contents)
  else ret None.
End with_primitives.
End SecureFileStorage.

(** ** MetadataStore.ts: wrapped chapter keys *)

Module MetadataStore.
Section with_primitives.
Context `{P : Primitives}.

Definition storeWrappedKey (chapterId : string) (wk : WrappedChapterKey) : M unit :=
  SecureFileStorage.writeMeta ("wk:" +:+ chapterId) (JSON_stringify wk).

Definition loadWrappedKey (chapterId : string) : M (option WrappedChapterKey) :=
  raw <- SecureFileStorage.readMeta ("wk:" +:+ chapterId) ;;
  match raw with
  | None => ret None
  | Some text =>
      if String.eqb text EmptyString then ret None
      else match JSON_parse text with
           | Some wk => ret (Some wk)
           | None => throw (Error "SyntaxError: Unexpected token in JSON")
           end
  end.
End with_primitives.
End MetadataStore.

(** ** RootKeyService.ts *)

Module RootKeyService.
Section with_primitives.
Context `{P : Primitives}.
Import CRYPTO_CONSTANTS.

(** Derive the root secret; the caller must wipe the returned array. *)
Definition deriveRootSecret (userId : option string) : M loc :=
  saltB64 <- SecureStore.getItemAsync SECURE_STORE_DEVICE_SALT ;;
  match saltB64 with
  | None => throw (Error "Device salt missing — vault may be corrupted")
  | Some saltB64 =>
      if String.eqb saltB64 EmptyString
      then throw (Error "Device salt missing — vault may be corrupted")
      else
        uid <- match userId with
               | Some u => ret (Some u)
               | None => SecureStore.getItemAsync SECURE_STORE_USER_ID
               end ;;
        match uid with
        | None => throw (Error "User ID missing")
        | Some uid =>
            if String.eqb uid EmptyString then throw (Error "User ID missing")
            else
              w <- get_world ;;
              let fp_hash := sha256_hex (device_raw (env w)) in
              let pwdB64 := base64 (utf8 (fp_hash +:+ uid)) in
              derivedB64 <- NativeCrypto.pbkdf2 pwdB64 saltB64
                              PBKDF2_ITERATIONS PBKDF2_KEY_LENGTH ;;
              alloc (Buffer_from_base64 derivedB64)
        end
  end.

(** Irrevocably destroy the device salt: the three deletions are all
    started, and [Promise.allSettled] waits for each whatever its outcome. *)
Definition destroyDeviceSalt : M unit :=
  settled (SecureStore.deleteItemAsync SECURE_STORE_DEVICE_SALT) ;;
  settled (SecureStore.deleteItemAsync SECURE_STORE_USER_ID) ;;
  settled (SecureStore.deleteItemAsync SECURE_STORE_ROTATION_TS).
End with_primitives.
End RootKeyService.

(** ** KeyRotationService.ts *)

(** [parseInt(s, 10)] on the text of a stored timestamp: an optional sign
    and the leading decimal digits; [None] is NaN. *)
Definition digit_of (c : ascii) : option Z :=
  let n := Z.of_N (N_of_ascii c) in
  if (48 <=? n) && (n <=? 57) then Some (n - 48) else None.

Fixpoint parse_digits (s : string) (acc : option Z) : option Z :=
  match s with
  | EmptyString => acc
  | String c rest =>
      match digit_of c with
      | Some d => parse_digits rest (Some (default 0 acc * 10 + d))
      | None => acc
      end
  end.

Definition parseInt (s : string) : option Z :=
  match s with
  | String "-"%char rest => option_map Z.opp (parse_digits rest None)
  | String "+"%char rest => parse_digits rest None
  | _ => parse_digits s None
  end.

Module KeyRotationService.
Section with_primitives.
Context `{P : Primitives}.
Import CRYPTO_CONSTANTS.

(** [now] is the value of [Date.now()] at the call. *)
Definition isRotationDue (now : Z) : M bool :=
  tsStr <- SecureStore.getItemAsync SECURE_STORE_ROTATION_TS ;;
  match tsStr with
  | None => ret true
  | Some tsStr =>
      if String.eqb tsStr EmptyString then ret true
      else match parseInt tsStr with
           | Some ts => ret (KEY_ROTATION_INTERVAL_MS <=? now - ts)
           | None => ret false
           end
  end.

Definition _deriveWrappingKey (rootSecret : bytes) (chapterId : string) (version : Z)
    : M loc :=
  let ikmB64 := base64 rootSecret in
  let saltB64 := base64 (utf8 ("wrap:" +:+ chapterId +:+ ":" +:+ pretty version)) in
  b64 <- NativeCrypto.hkdf ikmB64 saltB64 HKDF_INFO_LABELS.KEY_WRAP 32 ;;
  alloc (Buffer_from_base64 b64).

Definition wrapChapterKey (chapterRootKey rootSecret : bytes) (chapterId : string)
    (version now : Z) : M WrappedChapterKey :=
  wrappingKey <- _deriveWrappingKey rootSecret chapterId version ;;
  try_finally
    (let keyB64 := base64 chapterRootKey in
     wk <- read wrappingKey ;;
     let encB64 := base64 wk in
     wrappedB64 <- NativeCrypto.aesGCMEncrypt encB64 keyB64 None ;;
     ret (mkWrapped wrappedB64 now version))
    (MemoryWiper.wipeUint8Array (Some wrappingKey)).

(** Unwrap; the caller must wipe the returned key. *)
Definition unwrapChapterKey (wrapped : WrappedChapterKey) (rootSecret : bytes)
    (chapterId : string) : M loc :=
  wrappingKey <- _deriveWrappingKey rootSecret chapterId (version wrapped) ;;
  try_finally
    (wk <- read wrappingKey ;;
     let encB64 := base64 wk in
     ptB64 <- NativeCrypto.aesGCMDecrypt encB64 (wrappedB64 wrapped) None ;;
     if String.eqb ptB64 EmptyString
     then throw (Error "Failed to unwrap chapter key — possible version mismatch")
     else alloc (Buffer_from_base64 ptB64))
    (MemoryWiper.wipeUint8Array (Some wrappingKey)).

Definition rotateWrappedKey (wrapped : WrappedChapterKey) (rootSecret : bytes)
    (chapterId : string) (now : Z) : M WrappedChapterKey :=
  chapterRootKey <- unwrapChapterKey wrapped rootSecret chapterId ;;
  try_finally
    (crk <- read chapterRootKey ;;
     wrapChapterKey crk rootSecret chapterId (version wrapped + 1) now)
    (MemoryWiper.wipeUint8Array (Some chapterRootKey)).

Definition recordRotationTimestamp (now : Z) : M unit :=
  SecureStore.setItemAsync SECURE_STORE_ROTATION_TS (pretty now).
End with_primitives.
End KeyRotationService.

(** ** ChapterRepository.ts: key rotation *)

Module ChapterRepository.
Section with_primitives.
Context `{P : Primitives}.

(** [t_due], [t_wrap] and [t_record] are the three readings of
    [Date.now()] made on the way. *)
Definition rotateKeyIfDue (chapterId : string) (t_due t_wrap t_record : Z) : M unit :=
  due <- KeyRotationService.isRotationDue t_due ;;
  if negb due then ret tt
  else
    wrapped <- MetadataStore.loadWrappedKey chapterId ;;
    match wrapped with
    | None => ret tt
    | Some wrapped =>
        rootSecret <- RootKeyService.deriveRootSecret None ;;
        try_finally
          (rs <- read rootSecret ;;
           newWrapped <- KeyRotationService.rotateWrappedKey wrapped rs chapterId t_wrap ;;
           MetadataStore.storeWrappedKey chapterId newWrapped)
          (MemoryWiper.wipeUint8Array (Some rootSecret) ;;
           KeyRotationService.recordRotationTimestamp t_record)
    end.
End with_primitives.
End ChapterRepository.

(** ** FridaDetector.ts *)

(** What the detector can observe of the JavaScript realm at one moment. *)
Record Realm : Type := mkRealm {
  global_defined       : string → bool;   (* globalThis[g] !== undefined *)
  object_proto_intact  : bool;            (* Object.getPrototypeOf({}) === Object.prototype *)
  array_proto_intact   : bool;
  function_proto_intact : bool;
  proto_probe_throws   : bool;
  native_sources       : list string;     (* Function.prototype.toString.call(fn), per built-in *)
  timings              : list Q           (* the eight elapsed times of the micro-loop, in ms *)
}.

Module FridaDetector.
Definition THROTTLE_MS : Z := 8000.

Definition FRIDA_GLOBALS : list string :=
  ["_frida_agent_main"; "__frida"; "Interceptor";
   "Stalker"; "NativeFunction"; "NativeCallback";
   "Memory"; "Script"; "Java"; "ObjC"; "recv"; "send"; "rpc"].

Definition _checkGlobals (r : Realm) : M bool :=
  log (EvVector "globals") ;;
  ret (existsb (global_defined r) FRIDA_GLOBALS).

Definition _checkPrototypes (r : Realm) : M bool :=
  log (EvVector "prototypes") ;;
  if proto_probe_throws r then ret true
  else if negb (object_proto_intact r) then ret true
  else if negb (array_proto_intact r) then ret true
  else if negb (function_proto_intact r) then ret true
  else ret false.

Definition _checkNativeStrings (r : Realm) : M bool :=
  log (EvVector "native-strings") ;;
  ret (existsb (λ src, negb (includes "[native code]" src)) (native_sources r)).

Definition Qsum (l : list Q) : Q := foldl Qplus 0%Q l.
Definition Qgtb (a b : Q) : bool := negb (Qle_bool a b).

Definition _checkTimingVariance (r : Realm) : M bool :=
  log (EvVector "timing-variance") ;;
  let N := 8%Q in
  let ts := timings r in
  let mean := (Qsum ts / N)%Q in
  let variance := (Qsum (map (λ t, (t - mean) * (t - mean))%Q ts) / N)%Q in
  ret (Qgtb variance 5 && Qgtb mean 2).

(** [a || b]: [b] runs only when [a] is false. *)
Definition orelse (a b : M bool) : M bool :=
  x <- a ;; if x then ret true else b.

(** [now] is the value of [Date.now()] at the start of the call. *)
Definition detect (now : Z) (r : Realm) : M bool :=
  w <- get_world ;;
  if now - frida_lastCheck w <? THROTTLE_MS then ret false
  else
    modify (set_frida_lastCheck now) ;;
    orelse (_checkGlobals r)
      (orelse (_checkPrototypes r)
         (orelse (_checkNativeStrings r) (_checkTimingVariance r))).
End FridaDetector.

(** ** SecurityOrchestrator.ts *)

Module SecurityOrchestrator.
Section with_primitives.
Context `{P : Primitives}.

(** Security violation handler; never returns normally. [now] is the
    value of [Date.now()] when the final error is built. *)
Definition handleViolation (reason : string) (now : Z) : M Empty_set :=
  w <- get_world ;;
  if violationInProgress w then throw (Error "SECURITY_VIOLATION")
  else
    modify (set_violationInProgress true) ;;
    settled RootKeyService.destroyDeviceSalt ;;
    EphemeralKeyService.wipeMemorySalt ;;
    RuntimeEntropy.wipe ;;
    throw (Error ("SECURITY_VIOLATION:" +:+ reason +:+ ":" +:+ pretty now)).

Definition periodicCheck (now t_err : Z) (r : Realm) : M unit :=
  detected <- FridaDetector.detect now r ;;
  if detected
  then handleViolation "frida:detected-during-use" t_err ;; ret tt
  else ret tt.

Definition onBackground : M unit :=
  EphemeralKeyService.wipeMemorySalt ;;
  RuntimeEntropy.wipe.
End with_primitives.
End SecurityOrchestrator.

(** ** LifecycleManager.ts: the tracked buffers *)

Module LifecycleManager.
(** [Set.add]: no duplicate. *)
Definition trackBuffer (buf : loc) : M unit :=
  modify (set_lm_buffers (λ s, if bool_decide (buf ∈ s) then s else s ++ [buf])).

Definition untrackBuffer (buf : loc) : M unit :=
  modify (set_lm_buffers (λ s, filter (λ l, l ≠ buf) s)).
End LifecycleManager.

(** ** useSecureChapter.ts: page management

    [liveBuffers] is a JavaScript [Map] from page index to buffer: an
    association list in insertion order. A call of [loadPage] runs up to its
    first [await] ([loadPage_begin]), is suspended while the entropy bundle,
    the manifest, the fragment file and [VirtualDecryptor.execute] are
    awaited, and runs its last part when they settle ([loadPage_resume]).
    Between the two parts any other callback of the hook may run. *)

Record Hook : Type := mkHook {
  ready       : bool;                  (* keyBundleRef.current && metadata *)
  liveBuffers : list (nat * loc);
  in_flight   : list nat               (* pages whose loadPage is suspended *)
}.

Module useSecureChapter.
Import CRYPTO_CONSTANTS.

Fixpoint map_get (m : list (nat * loc)) (k : nat) : option loc :=
  match m with
  | [] => None
  | (k', v) :: rest => if bool_decide (k' = k) then Some v else map_get rest k
  end.

Definition map_has (m : list (nat * loc)) (k : nat) : bool :=
  bool_decide (is_Some (map_get m k)).

Definition map_delete (m : list (nat * loc)) (k : nat) : list (nat * loc) :=
  filter (λ e, e.1 ≠ k) m.

(** [Map.set]: a present key keeps its place. *)
Definition map_set (m : list (nat * loc)) (k : nat) (v : loc) : list (nat * loc) :=
  if map_has m k then map (λ e, if bool_decide (e.1 = k) then (k, v) else e) m
  else m ++ [(k, v)].

Definition releasePage (idx : nat) (h : Hook) : M Hook :=
  match map_get (liveBuffers h) idx with
  | Some buf =>
      MemoryWiper.wipeUint8Array (Some buf) ;;
      LifecycleManager.untrackBuffer buf ;;
      ret (mkHook (ready h) (map_delete (liveBuffers h) idx) (in_flight h))
  | None => ret h
  end.

(** [loadPage] up to its first [await]. The page joins [in_flight] when
    the call goes on to decrypt. *)
Definition loadPage_begin (pageIdx : nat) (h : Hook) : M Hook :=
  if negb (ready h) then ret h
  else if map_has (liveBuffers h) pageIdx then ret h
  else
    h' <- (if (MAX_DECRYPTED_FRAGMENTS <=? length (liveBuffers h))%nat
           then match liveBuffers h with
                | (oldest, _) :: _ => releasePage oldest h
                | [] => ret h
                end
           else ret h) ;;
    RuntimeEntropy.incrementFrameCounter ;;
    ret (mkHook (ready h') (liveBuffers h') (in_flight h' ++ [pageIdx])).

(** [loadPage] after the awaited pipeline settled: [outcome] holds the
    contents of the array that [VirtualDecryptor.execute] returned, or the
    exception it threw. *)
Definition loadPage_resume (pageIdx : nat) (outcome : Result bytes) (h : Hook) : M Hook :=
  let h := mkHook (ready h) (liveBuffers h) (filter (λ p, p ≠ pageIdx) (in_flight h)) in
  match outcome with
  | Ok contents =>
      mutated <- alloc contents ;;
      LifecycleManager.trackBuffer mutated ;;
      ret (mkHook (ready h) (map_set (liveBuffers h) pageIdx mutated) (in_flight h))
  | Throw _ => ret h
  end.

(** What the event loop can run next on the hook. *)
Inductive Action : Type :=
| CallLoadPage (pageIdx : nat)
| Settle (pageIdx : nat) (outcome : Result bytes)
| CallReleasePage (idx : nat).

Definition step (a : Action) (h : Hook) : M Hook :=
  match a with
  | CallLoadPage p => loadPage_begin p h
  | Settle p outcome =>
      if bool_decide (p ∈ in_flight h) then loadPage_resume p outcome h else ret h
  | CallReleasePage i => releasePage i h
  end.

Fixpoint run (schedule : list Action) (h : Hook) : M Hook :=
  match schedule with
  | [] => ret h
  | a :: rest => h' <- step a h ;; run rest h'
  end.

(** A schedule on which every [loadPage] settles before the next callback
    of the hook runs. *)
Fixpoint sequential (schedule : list Action) : Prop :=
  match schedule with
  | [] => True
  | CallLoadPage p :: Settle q _ :: rest => p = q ∧ sequential rest
  | CallReleasePage _ :: rest => sequential rest
  | _ => False
  end.
End useSecureChapter.

(** ** Vocabulary of the statements *)

(** The service state that the cryptographic pipeline never touches. *)
Definition same_state (w w' : World) : Prop :=
  env w' = env w ∧ secure_store w' = secure_store w ∧ files w' = files w ∧
  frida_lastCheck w' = frida_lastCheck w ∧ violationInProgress w' = violationInProgress w ∧
  eks_memorySalt w' = eks_memorySalt w ∧ re_bootTime w' = re_bootTime w ∧
  re_frameCounter w' = re_frameCounter w ∧ re_scrollVelocity w' = re_scrollVelocity w ∧
  re_memorySalt w' = re_memorySalt w ∧ lm_buffers w' = lm_buffers w.

(** [tiles raw offset index frags]: the fragments are consecutive views of
    [raw] that start at [offset], carry the indices [index], [index + 1],
    ... and end exactly at the end of [raw]. *)
Fixpoint tiles (raw : bytes) (offset index : Z) (frags : list RawFragment) : Prop :=
  match frags with
  | [] => offset = Z.of_nat (length raw)
  | f :: rest =>
      rf_index f = index ∧ rf_offset f = offset ∧ 0 < rf_size f ∧
      offset + rf_size f ≤ Z.of_nat (length raw) ∧
      rf_data f = take (Z.to_nat (rf_size f)) (drop (Z.to_nat offset) raw) ∧
      tiles raw (offset + rf_size f) (index + 1) rest
  end.

(** Every fragment but the last has a size of the configured range. *)
Fixpoint sized (frags : list RawFragment) : Prop :=
  match frags with
  | [] => True
  | [_] => True
  | f :: rest =>
      CRYPTO_CONSTANTS.FRAGMENT_MIN_SIZE ≤ rf_size f < CRYPTO_CONSTANTS.FRAGMENT_MAX_SIZE
      ∧ sized rest
  end.

(** The canary of a fragment and the padding that follows it, as values. *)
Definition canary_of `{P : Primitives} (chapterRootKey : bytes) (fragmentIndex : Z) : bytes :=
  crypto_core.nativeHKDF chapterRootKey (utf8 ("canary:" +:+ pretty fragmentIndex))
    (utf8 HKDF_INFO_LABELS.CANARY_DERIVE) CRYPTO_CONSTANTS.CANARY_LENGTH.

Definition padding_of (canary : bytes) : bytes :=
  map (λ i, byte_of_Z (Z.lxor (byte_at canary (i mod 16)) ((Z.of_nat i + 1) * 90)))
    (seq 0 CRYPTO_CONSTANTS.CANARY_TRAILING_PAD).

(** What AES receives for a fragment, and the blob the native core builds
    around an initialisation vector. *)
Definition plaintext_of `{P : Primitives} (chapterRootKey : bytes) (index : Z) (data : bytes)
    : bytes :=
  data ++ canary_of chapterRootKey index ++ padding_of (canary_of chapterRootKey index).

Definition sealed `{P : Primitives} (key iv aad pt : bytes) : bytes :=
  iv ++ (AES_256_GCM_encrypt key iv aad pt).1 ++ (AES_256_GCM_encrypt key iv aad pt).2.

(** The four checks of [decryptFragment], as conditions on a record. *)
Definition hmac_matches `{P : Primitives} (hmacKey : bytes) (ef : EncryptedFragment) : Prop :=
  hex_of_bytes (HMAC_SHA256 hmacKey (Buffer_from_base64 (ef_encryptedData ef))) = ef_hmac ef.

Definition aad_matches `{P : Primitives} (imageId : string) (ef : EncryptedFragment) : Prop :=
  ef_aadB64 ef = base64 (FragmentEngine.aad_of imageId (ef_index ef)).

(** The outcome of the native AES-GCM call on the record, when its Base64
    text decodes to [blob]. *)
Definition gcm_opens `{P : Primitives} (chapterRootKey : bytes) (imageId : string)
    (ef : EncryptedFragment) (blob : bytes) : option bytes :=
  crypto_core.nativeAESGCMDecrypt chapterRootKey blob
    (Some (FragmentEngine.aad_of imageId (ef_index ef))).

Definition canary_matches `{P : Primitives} (chapterRootKey : bytes) (index : Z) (pt : bytes)
    : Prop :=
  (32 ≤ length pt)%nat ∧ take 16 (drop (length pt - 32) pt) = canary_of chapterRootKey index.

(** The steps of a program that are not noise, and the shape of a program
    whose first effective step is the decryption. *)
Definition is_real (s : ProgramStep) : Prop := s ≠ DECOY_INJECT ∧ s ≠ DUMMY_SPIN.

Definition harmless (s : ProgramStep) : Prop :=
  s = HMAC_VERIFY ∨ s = DECOY_INJECT ∨ s = DUMMY_SPIN.

Definition decrypt_first (steps : list ProgramStep) : Prop :=
  ∃ pre post, steps = pre ++ REAL_DECRYPT :: post ∧ Forall harmless pre.

Definition occurrences (s : ProgramStep) (steps : list ProgramStep) : nat :=
  length (filter (λ x, x = s) steps).

(** The two decoys that [execute] fires before its loop. *)
Definition preflight `{P : Primitives} : M unit :=
  DecoyCrypto.runSync ;; DecoyCrypto.run 1.

(** The heap after [MemoryWiper.wipeUint8Array] ran on [buf]. *)
Definition wiped (buf : option loc) (h : list bytes) : list bytes :=
  match buf with
  | Some l => match h !! l with
              | Some old => <[l := zeros (length old)]> h
              | None => h
              end
  | None => h
  end.

(** The credential store after [destroyDeviceSalt]: every entry whose
    deletion the store did not reject is gone. *)
Definition drop_entry (e : Env) (key : string) (m : gmap string string) : gmap string string :=
  if store_faulty e key then m else delete key m.

Definition purged (e : Env) (m : gmap string string) : gmap string string :=
  drop_entry e CRYPTO_CONSTANTS.SECURE_STORE_ROTATION_TS
    (drop_entry e CRYPTO_CONSTANTS.SECURE_STORE_USER_ID
       (drop_entry e CRYPTO_CONSTANTS.SECURE_STORE_DEVICE_SALT m)).

(** The error kinds of the design, recognised by what the code throws. *)
Inductive ErrorKind : Type :=
| IntegrityFail | SubstitutionFail | AuthFail | CanaryFail | UnwrapFail
| ProgramIncomplete | ProgramPreconditionViolated | SaltMissing | UserIdMissing.

Definition kind_of (e : Exn) : option ErrorKind :=
  match e with
  | Rejected code _ =>
      if String.eqb code "AES_AUTH_FAIL" then Some AuthFail else None
  | Error message =>
      if String.prefix "HMAC mismatch" message then Some IntegrityFail
      else if String.prefix "AAD mismatch" message then Some SubstitutionFail
      else if String.prefix "GCM authentication tag mismatch" message then Some AuthFail
      else if String.prefix "Canary mismatch" message then Some CanaryFail
      else if String.prefix "Failed to unwrap chapter key" message then Some UnwrapFail
      else if String.prefix "VirtualDecryptor: program terminated without DISPLAY_MUTATE"
                message then Some ProgramIncomplete
      else if String.prefix "CANARY_CHECK before" message
              || String.prefix "EPHEMERAL_DERIVE before" message
              || String.prefix "DISPLAY_MUTATE: prerequisites" message
           then Some ProgramPreconditionViolated
      else if String.prefix "Device salt missing" message then Some SaltMissing
      else if String.prefix "User ID missing" message then Some UserIdMissing
      else None
  end.

(** * The program logic

    Statements about a computation are made on its result at a world. *)

(** [wp m w Q]: on the world [w] the computation [m] returns normally, and
    its value and final world satisfy [Q]. *)
Definition wp {A} (m : M A) (w : World) (Q : A → World → Prop) : Prop :=
  ∃ a w', m w = (Ok a, w') ∧ Q a w'.

(** [framed w h t w']: [w'] has the heap [h] and the log [t], and the
    service state of [w]. *)
Definition framed (w : World) (h : list bytes) (t : list Event) (w' : World) : Prop :=
  heap w' = h ∧ trace w' = t ∧ same_state w w'.

(** [wpx m w Q]: on the world [w] the computation [m] throws, and the
    exception and the final world satisfy [Q]. *)
Definition wpx {A} (m : M A) (w : World) (Q : Exn → World → Prop) : Prop :=
  ∃ e w', m w = (Throw e, w') ∧ Q e w'.

(** [always_ok m]: [m] returns normally on every world. *)
Definition always_ok (m : M unit) : Prop := ∀ w, ∃ w', m w = (Ok tt, w').

(** The range of a signed 64-bit integer. *)
Definition in_int64 (v : Z) : Prop := - 2 ^ 63 ≤ v < 2 ^ 63.

(** ** A small stand-in for the native library

    It is used to run the services on concrete inputs and shows that the
    laws of [PrimitivesLaws] can be met. Nothing in it is cryptography. *)

Module Mock.
Definition checksum (parts : list bytes) : byte :=
  byte_of_Z (foldr (λ b acc, byte_to_Z b + 3 * acc) 7 (concat parts)).

Definition tag (key iv aad ct : bytes) : bytes :=
  replicate 16 (checksum [key; iv; aad; ct]).

Definition bytes_eqb (a b : bytes) : bool := bool_decide (a = b).

Definition primitives : Primitives := {|
  HMAC_SHA256 key data := replicate 32 (checksum [key; data]);
  AES_256_GCM_encrypt key iv aad pt := (pt, tag key iv aad pt);
  AES_256_GCM_decrypt key iv aad ct t :=
    if bytes_eqb t (tag key iv aad ct) then Some ct else None;
  PBKDF2_HMAC_SHA512 pwd salt iters len :=
    Some (replicate (Z.to_nat len) (checksum [pwd; salt]));
  base64 bs := string_of_list_byte bs;
  Buffer_from_base64 s := list_byte_of_string s;
  Base64_decode s := Some (list_byte_of_string s);
  sha256_hex s := hex_of_bytes (replicate 4 (checksum [list_byte_of_string s]));
  JSON_stringify wk := wrappedB64 wk;
  JSON_parse s := Some (mkWrapped s 0 1);
  DisplayMutation_applyMutation d k := reverse d;
|}.

Definition draw_half : Draw := mkDraw 1 2 eq_refl.

Definition env0 : Env :=
  mkEnv (λ _, draw_half) (λ k, byte_of_Z (Z.of_nat k)) (λ _, false) (λ _, false)
    "aid:1||mfr:acme" "file:///data/".

Definition world0 : World :=
  mkWorld env0 [] [] 0 0 ∅ ∅ 0 false None 0 0 0%Q None [].

Definition keys0 : ChapterKeyBundle :=
  mkKeys (replicate 32 x01) (replicate 32 x02) (replicate 32 x03) (replicate 32 x04).

Definition bundle0 : RuntimeEntropyBundle := mkBundle 1700000000000 1 0%Q 0 (zeros 16).



(** A record whose HMAC field is not the HMAC of its ciphertext. *)
Definition tampered : EncryptedFragment := mkEnc 0 "ciphertext" "aad" "00" 3.
End Mock.

(** ** Vocabulary of the key rotation statements *)

(** The wrapping key of [_deriveWrappingKey]. *)
Definition wrapping_key_of `{P : Primitives} (rootSecret : bytes) (chapterId : string)
    (v : Z) : bytes :=
  crypto_core.nativeHKDF rootSecret
    (utf8 ("wrap:" +:+ chapterId +:+ ":" +:+ pretty v)) (utf8 HKDF_INFO_LABELS.KEY_WRAP) 32.

(** The envelope [wk] is a strict Base64 text of a blob that AES-GCM opens
    to [k] under the wrapping key of its version. *)
Definition opens_to `{P : Primitives} (rootSecret : bytes) (chapterId : string)
    (wk : WrappedChapterKey) (k : bytes) : Prop :=
  ∃ blob, Base64_decode (wrappedB64 wk) = Some blob ∧
          crypto_core.nativeAESGCMDecrypt
            (wrapping_key_of rootSecret chapterId (version wk)) blob None = Some k.

(** The file of the wrapped key of a chapter, and the file of a fragment. *)
Definition wk_path `{P : Primitives} (chapterId : string) (w : World) : string :=
  SecureFileStorage.META_ROOT w +:+ sha256_hex ("wk:" +:+ chapterId).

Definition fragment_path `{P : Primitives} (chapterId filename : string) (w : World) : string :=
  (SecureFileStorage.VAULT_ROOT w +:+ sha256_hex ("dir:" +:+ chapterId) +:+ "/") +:+ filename.

(** [files_but path w w']: from [w] to [w'] the environment is the same and
    no file other than [path w] differs. *)
Definition files_but (path : World → string) (w w' : World) : Prop :=
  env w' = env w ∧ ∀ p, p ≠ path w → files w' !! p = files w !! p.

(** [keeps R m]: every run of [m], whatever its outcome, relates its first
    world to its last one by [R]. *)
Definition keeps {A} (R : World → World → Prop) (m : M A) : Prop :=
  ∀ w r w', m w = (r, w') → R w w'.

(** [files_same w w']: the environment and every file are the same. *)
Definition files_same (w w' : World) : Prop :=
  env w' = env w ∧ files w' = files w.


(** * Properties *)

(** ** Oracles and bytes *)

Lemma floor_mul_range (u : Draw) (n : Z) : 0 < n → 0 ≤ floor_mul u n < n.
Proof.
  intros Hn. unfold floor_mul.
  destruct u as [a d Hok]; simpl.
  apply andb_true_iff in Hok as [Ha Hd].
  apply Z.leb_le in Ha. apply Z.ltb_lt in Hd.
  split.
  - apply Z.div_pos; nia.
  - apply Z.div_lt_upper_bound; nia.
Qed.

(** ** The monad and the heap *)

Lemma bind_ok {A B} (m : M A) (k : A → M B) (w w' : World) (a : A) :
  m w = (Ok a, w') → bind m k w = k a w'.
Proof. unfold bind. by intros ->. Qed.

Lemma bind_throw {A B} (m : M A) (k : A → M B) (w w' : World) (e : Exn) :
  m w = (Throw e, w') → bind m k w = (Throw e, w').
Proof. unfold bind. by intros ->. Qed.

Lemma try_finally_ok {A} (body : M A) (fin : M unit) (w w1 w2 : World) (r : Result A) :
  body w = (r, w1) → fin w1 = (Ok tt, w2) → try_finally body fin w = (r, w2).
Proof. unfold try_finally. by intros -> ->. Qed.

Lemma same_state_refl (w : World) : same_state w w.
Proof. by repeat split. Qed.

Lemma same_state_trans (w1 w2 w3 : World) :
  same_state w1 w2 → same_state w2 w3 → same_state w1 w3.
Proof.
  unfold same_state. intros H1 H2.
  destruct H1 as (?&?&?&?&?&?&?&?&?&?&?), H2 as (?&?&?&?&?&?&?&?&?&?&?).
  repeat split; congruence.
Qed.

Lemma same_state_env (w w' : World) : same_state w w' → env w' = env w.
Proof. by intros [? _]. Qed.

Create HintDb same discriminated.
#[global] Hint Resolve same_state_refl : same.
#[global] Hint Extern 1 (same_state _ (set_heap _ _)) => by repeat split : same.
#[global] Hint Extern 1 (same_state _ (set_trace _ _)) => by repeat split : same.
#[global] Hint Extern 1 (same_state _ (set_js_draws _ _)) => by repeat split : same.
#[global] Hint Extern 1 (same_state _ (set_rng_pos _ _)) => by repeat split : same.
#[global] Hint Extern 3 (same_state _ _) => eapply same_state_trans; [eassumption|] : same.

Lemma insert_snoc {A} (h : list A) (x y : A) : <[length h := y]> (h ++ [x]) = h ++ [y].
Proof. rewrite insert_app_r_alt by lia. by rewrite Nat.sub_diag. Qed.

Lemma lookup_snoc {A} (h : list A) (x : A) : (h ++ [x]) !! length h = Some x.
Proof. by apply list_lookup_middle. Qed.

Lemma framed_trans w h t w1 h' t' w2 :
  framed w h t w1 → framed w1 h' t' w2 → framed w h' t' w2.
Proof.
  intros (_ & _ & Hs) (Hh & Ht & Hs').
  split; [done|]. split; [done|]. by eapply same_state_trans.
Qed.

Lemma framed_refl w : framed w (heap w) (trace w) w.
Proof. split; [done|]. split; [done|]. apply same_state_refl. Qed.

Lemma wp_bind {A B} (m : M A) (k : A → M B) (w : World) Q R :
  wp m w Q → (∀ a w1, Q a w1 → wp (k a) w1 R) → wp (bind m k) w R.
Proof.
  intros (a & w1 & Hrun & HQ) Hk.
  destruct (Hk a w1 HQ) as (b & w2 & Hrun2 & HR).
  exists b, w2. by rewrite (bind_ok _ _ _ _ _ Hrun).
Qed.

Lemma wp_mono {A} (m : M A) (w : World) (Q R : A → World → Prop) :
  wp m w Q → (∀ a w', Q a w' → R a w') → wp m w R.
Proof. intros (a & w' & Hrun & HQ) H. exists a, w'. eauto. Qed.

Lemma wp_ret {A} (a : A) (w : World) (Q : A → World → Prop) : Q a w → wp (ret a) w Q.
Proof. intros HQ. by exists a, w. Qed.

Lemma wp_alloc (contents : bytes) (w : World) :
  wp (alloc contents) w
    (λ l w', l = length (heap w) ∧ framed w (heap w ++ [contents]) (trace w) w').
Proof. eexists _, _. by repeat split. Qed.

Lemma wp_read (l : loc) (w : World) :
  wp (read l) w (λ c w', c = default [] (heap w !! l) ∧ w' = w).
Proof. eexists _, _. by repeat split. Qed.

Lemma wp_write (l : loc) (contents : bytes) (w : World) :
  wp (write l contents) w (λ _ w', framed w (<[l := contents]> (heap w)) (trace w) w').
Proof. eexists _, _. by repeat split. Qed.

Lemma wp_log (e : Event) (w : World) :
  wp (log e) w (λ _ w', framed w (heap w) (trace w ++ [e]) w').
Proof. eexists _, _. by repeat split. Qed.

Lemma wp_random (w : World) :
  wp Math_random w (λ _ w', framed w (heap w) (trace w) w').
Proof. eexists _, _. by repeat split. Qed.

Lemma wp_entropy (n : nat) (w : World) :
  wp (take_entropy n) w (λ iv w', length iv = n ∧ framed w (heap w) (trace w) w').
Proof.
  eexists _, _. split; [reflexivity|]. split; [|by repeat split].
  by rewrite length_map, length_seq.
Qed.

Lemma wp_get_world (w : World) : wp get_world w (λ v w', v = w ∧ w' = w).
Proof. by eexists _, _. Qed.


Lemma wpx_bind_r {A B} (m : M A) (k : A → M B) (w : World) Q R :
  wp m w Q → (∀ a w1, Q a w1 → wpx (k a) w1 R) → wpx (bind m k) w R.
Proof.
  intros (a & w1 & Hrun & HQ) Hk.
  destruct (Hk a w1 HQ) as (e & w2 & Hrun2 & HR).
  exists e, w2. by rewrite (bind_ok _ _ _ _ _ Hrun).
Qed.

Lemma wpx_throw {A} (e : Exn) (w : World) (Q : Exn → World → Prop) :
  Q e w → wpx (@throw A e) w Q.
Proof. intros HQ. by exists e, w. Qed.


Ltac wpx_step spec :=
  eapply wpx_bind_r; [apply spec|]; cbv beta.

(** Start of a sequence: run [spec] for the head, name what it gives. *)
Ltac wp_step spec :=
  eapply wp_bind; [apply spec|]; cbv beta.

(** End of a sequence: the last computation, up to consequence. *)
Ltac wp_last spec :=
  eapply wp_mono; [apply spec|]; cbv beta.

Ltac unframe :=
  repeat match goal with
         | H : framed _ _ _ _ |- _ => destruct H as (? & ? & ?)
         | H : _ ∧ _ |- _ => destruct H
         end; subst.

Ltac heap_simpl :=
  repeat match goal with
         | H : heap ?x = _ |- context [heap ?x] => rewrite H
         | H : trace ?x = _ |- context [trace ?x] => rewrite H
         end.

Ltac framed_solve :=
  unframe;
  split; [|split];
  [ heap_simpl; try done | heap_simpl; try done
  | eauto 10 using same_state_trans, same_state_refl ].

Lemma store_spec (l : loc) (i : nat) (v : Z) (w : World) (buf : bytes) :
  heap w !! l = Some buf →
  wp (store l i v) w
    (λ _ w', framed w (<[l := <[i := byte_of_Z v]> buf]> (heap w)) (trace w) w').
Proof.
  intros Hl. unfold store.
  wp_step wp_read. intros b w1 (-> & ->). rewrite Hl.
  change (default [] (Some buf)) with buf. apply wp_write.
Qed.

Lemma typed_set_spec (l : loc) (src : bytes) (offset : nat) (w : World) (buf : bytes) :
  heap w !! l = Some buf → (offset + length src ≤ length buf)%nat →
  wp (typed_set l src offset) w
    (λ _ w', framed w
       (<[l := take offset buf ++ src ++ drop (offset + length src) buf]> (heap w))
       (trace w) w').
Proof.
  intros Hl Hfit. unfold typed_set.
  wp_step wp_read. intros b w1 (-> & ->). rewrite Hl.
  change (default [] (Some buf)) with buf.
  destruct (Nat.ltb_spec (length buf) (offset + length src)); [lia|].
  apply wp_write.
Qed.

(** ** MemoryWiper *)

Lemma random_fill_spec (n : nat) :
  ∀ w, wp (MemoryWiper.random_fill n) w
         (λ fresh w', length fresh = n ∧ framed w (heap w) (trace w) w').
Proof.
  induction n as [|n IH]; intros w; simpl.
  - apply wp_ret. split; [done|apply framed_refl].
  - wp_step wp_random. intros u w1 Hf1.
    wp_step (IH w1). intros rest w2 (Hlen & Hf2).
    apply wp_ret. split; [simpl; by rewrite Hlen|]. framed_solve.
Qed.

Lemma pass_body_spec (l : loc) (pass : nat) (w : World) (old : bytes) :
  heap w !! l = Some old →
  wp (MemoryWiper.pass_body l pass) w
    (λ _ w', ∃ new, length new = length old ∧ framed w (<[l := new]> (heap w)) (trace w) w').
Proof.
  intros Hl. unfold MemoryWiper.pass_body.
  wp_step wp_read. intros buf w1 (-> & ->). rewrite Hl.
  change (default [] (Some old)) with old.
  destruct (pass mod 3)%nat as [|[|k]].
  - wp_last wp_write. intros ? w2 Hf.
    eexists. split; [apply length_replicate|done].
  - wp_last wp_write. intros ? w2 Hf.
    eexists. split; [apply length_replicate|done].
  - wp_step random_fill_spec. intros fresh w2 (Hlen & Hf).
    wp_last wp_write. intros ? w3 Hf3.
    exists fresh. split; [done|]. framed_solve.
Qed.

Lemma passes_spec (l : loc) (count : nat) :
  ∀ from w old, heap w !! l = Some old →
    wp (MemoryWiper.passes l from count) w
      (λ _ w', ∃ new, length new = length old ∧ framed w (<[l := new]> (heap w)) (trace w) w').
Proof.
  induction count as [|count IH]; intros from w old Hl; simpl.
  - apply wp_ret. exists old. split; [done|].
    rewrite list_insert_id by done. apply framed_refl.
  - wp_step (pass_body_spec l from w old Hl). intros ? w1 (mid & Hlen & Hf).
    assert (Hl1 : heap w1 !! l = Some mid).
    { destruct Hf as (-> & _). apply list_lookup_insert_eq. by eapply lookup_lt_Some. }
    wp_last (IH (S from) w1 mid Hl1).
    intros ? w2 (new & Hlen2 & Hf2). exists new. split; [congruence|].
    unframe. split; [|split]; [|congruence|eauto using same_state_trans].
    match goal with H : heap w2 = _ |- _ => rewrite H end.
    match goal with H : heap w1 = _ |- _ => rewrite H end.
    apply list_insert_insert_eq.
Qed.

(** After [wipeUint8Array] the buffer holds as many zero bytes as it had
    bytes; no other buffer changes. *)
Lemma wipe_spec (l : loc) (w : World) (old : bytes) :
  heap w !! l = Some old →
  wp (MemoryWiper.wipeUint8Array (Some l)) w
    (λ _ w', framed w (<[l := zeros (length old)]> (heap w)) (trace w) w').
Proof.
  intros Hl. unfold MemoryWiper.wipeUint8Array.
  wp_step wp_read. intros buf w1 (-> & ->). rewrite Hl.
  change (default [] (Some old)) with old.
  destruct (Nat.eqb_spec (length old) 0) as [Hz|Hnz].
  - apply wp_ret. destruct old; [|done]. rewrite list_insert_id by done. apply framed_refl.
  - wp_step (passes_spec l MemoryWiper.PASSES 0 w old Hl). intros ? w2 (new & Hlen & Hf).
    wp_last wp_write. intros ? w3 Hf3.
    unframe. split; [|split]; [|congruence|eauto using same_state_trans].
    match goal with H : heap w3 = _ |- _ => rewrite H end.
    match goal with H : heap w2 = _ |- _ => rewrite H end.
    apply list_insert_insert_eq.
Qed.

(** ** FragmentEngine.split *)

Section split_properties.
Import CRYPTO_CONSTANTS.

Lemma draw_size_spec (remaining : Z) (w : World) :
  0 < remaining →
  ∃ size w', FragmentEngine.draw_size remaining w = (Ok size, w') ∧
    0 < size ≤ remaining ∧
    (size < remaining → FRAGMENT_MIN_SIZE ≤ size < FRAGMENT_MAX_SIZE) ∧
    (remaining ≤ FRAGMENT_MIN_SIZE → size = remaining).
Proof.
  intros Hrem. unfold FragmentEngine.draw_size, FRAGMENT_MIN_SIZE, FRAGMENT_MAX_SIZE.
  destruct (Z.ltb_spec (51200 `min` remaining) (204800 `min` remaining)) as [Hlt|Hge].
  - unfold bind, Math_random, ret.
    set (u := math_random (env w) (js_draws w)).
    pose proof (floor_mul_range u (204800 `min` remaining - 51200 `min` remaining)) as Hr.
    eexists _, _. split; [reflexivity|]. lia.
  - eexists _, _. split; [reflexivity|]. lia.
Qed.

Lemma split_loop_spec (fuel : nat) (raw : bytes) :
  ∀ offset index acc w,
    0 ≤ offset ≤ Z.of_nat (length raw) →
    Z.of_nat (length raw) - offset ≤ Z.of_nat fuel →
    ∃ new w', FragmentEngine.split_loop fuel raw offset index acc w = (Ok (Some (acc ++ new)), w') ∧
      tiles raw offset index new ∧ sized new ∧
      (0 < Z.of_nat (length raw) - offset ≤ FRAGMENT_MIN_SIZE →
       new = [mkRaw index offset (drop (Z.to_nat offset) raw) (Z.of_nat (length raw) - offset)]).
Proof.
  induction fuel as [|fuel IH]; intros offset index acc w Hoff Hfuel.
  - exists [], w. simpl.
    destruct (Z.leb_spec (Z.of_nat (length raw)) offset); [|lia].
    rewrite app_nil_r. repeat split; simpl; lia.
  - simpl.
    destruct (Z.leb_spec (Z.of_nat (length raw)) offset) as [Hend|Hmore].
    + exists [], w. rewrite app_nil_r. repeat split; simpl; lia.
    + destruct (draw_size_spec (Z.of_nat (length raw) - offset) w) as
        (size & w1 & Hdraw & Hsize & Hmid & Hlast); [lia|].
      unfold bind at 1. rewrite Hdraw.
      set (f := mkRaw index offset (take (Z.to_nat size) (drop (Z.to_nat offset) raw)) size).
      destruct (IH (offset + size) (index + 1) (acc ++ [f]) w1) as
        (new & w2 & Hrun & Htiles & Hsized & Hone); [lia|lia|].
      exists (f :: new), w2. rewrite Hrun, <- app_assoc. simpl.
      split; [reflexivity|]. split; [|split].
      * repeat split; try lia. exact Htiles.
      * destruct new as [|g new']; [exact I|].
        split; [|exact Hsized].
        apply Hmid. simpl in Htiles. lia.
      * intros Hsmall. specialize (Hlast ltac:(lia)). subst size.
        destruct new as [|g new'].
        -- subst f. f_equal. f_equal.
           rewrite take_ge; [reflexivity|]. rewrite length_drop. lia.
        -- simpl in Htiles. lia.
Qed.

Lemma tiles_concat (raw : bytes) (frags : list RawFragment) :
  ∀ offset index, 0 ≤ offset → tiles raw offset index frags →
    concat (map rf_data frags) = drop (Z.to_nat offset) raw.
Proof.
  induction frags as [|f rest IH]; intros offset index Hoff Ht; simpl in *.
  - subst offset. rewrite Nat2Z.id, drop_all. reflexivity.
  - destruct Ht as (_ & _ & Hpos & Hle & Hdata & Hrest).
    assert (Hoff' : 0 ≤ offset + rf_size f) by lia.
    rewrite (IH _ _ Hoff' Hrest), Hdata.
    rewrite Z2Nat.inj_add by lia.
    rewrite <- drop_drop. apply take_drop.
Qed.
End split_properties.

Lemma sized_lookup (frags : list RawFragment) (k : nat) (f : RawFragment) :
  sized frags → frags !! k = Some f → (S k < length frags)%nat →
  CRYPTO_CONSTANTS.FRAGMENT_MIN_SIZE ≤ rf_size f < CRYPTO_CONSTANTS.FRAGMENT_MAX_SIZE.
Proof.
  revert k. induction frags as [|g rest IH]; intros k Hs Hk Hlen; [done|].
  destruct rest as [|g' rest']; [simpl in Hlen; lia|].
  destruct Hs as [Hg Hrest].
  destruct k as [|k]; simpl in Hk.
  - by inversion Hk; subst.
  - apply (IH k Hrest Hk). simpl in *. lia.
Qed.

Lemma tiles_lookup (raw : bytes) (frags : list RawFragment) :
  ∀ offset index k f, 0 ≤ offset → tiles raw offset index frags → frags !! k = Some f →
    rf_index f = index + Z.of_nat k ∧ Z.of_nat (length (rf_data f)) = rf_size f.
Proof.
  induction frags as [|g rest IH]; intros offset index k f Hoff Ht Hk; [done|].
  destruct Ht as (Hi & Ho & Hpos & Hle & Hdata & Hrest).
  destruct k as [|k]; simpl in Hk.
  - inversion Hk; subst g. split; [lia|].
    rewrite Hdata, length_take, length_drop. lia.
  - assert (Hoff' : 0 ≤ offset + rf_size g) by lia.
    destruct (IH _ _ _ _ Hoff' Hrest Hk) as [-> ->]. split; lia.
Qed.

(** C6. [FragmentEngine.split] ends on every input and for every sequence of
    random draws. Its fragments are consecutive, non-overlapping views that
    cover the input in index order: their contents concatenate to the input,
    fragment [k] has index [k] and as many bytes as its [size]. Every
    fragment but the last has a size in [51200, 204800). An empty input
    gives no fragment. A non-empty input below [FRAGMENT_MIN_SIZE] gives one
    fragment, equal to the whole input. *)
Theorem split_covers_input (raw : bytes) (w : World) :
  ∃ frags w', FragmentEngine.split raw w = (Ok (Some frags), w') ∧
    tiles raw 0 0 frags ∧
    concat (map rf_data frags) = raw ∧
    (∀ k f, frags !! k = Some f →
       rf_index f = Z.of_nat k ∧ Z.of_nat (length (rf_data f)) = rf_size f) ∧
    (∀ k f, frags !! k = Some f → (S k < length frags)%nat → 51200 ≤ rf_size f < 204800) ∧
    (raw = [] → frags = []) ∧
    ((0 < length raw)%nat → Z.of_nat (length raw) < CRYPTO_CONSTANTS.FRAGMENT_MIN_SIZE →
       frags = [mkRaw 0 0 raw (Z.of_nat (length raw))]).
Proof.
  destruct (split_loop_spec (length raw) raw 0 0 [] w) as
    (frags & w' & Hrun & Htiles & Hsized & Hone); [lia|lia|].
  exists frags, w'. simpl in Hrun.
  split; [exact Hrun|]. split; [exact Htiles|].
  split; [by rewrite (tiles_concat raw frags 0 0)|].
  split; [intros k f Hk; by destruct (tiles_lookup raw frags 0 0 k f) as [-> ->]|].
  split; [intros k f Hk Hlen; exact (sized_lookup frags k f Hsized Hk Hlen)|].
  split.
  - intros ->. destruct frags as [|f rest]; [done|]. simpl in Htiles. lia.
  - intros Hpos Hsmall. rewrite Hone by lia. f_equal. f_equal. lia.
Qed.

Lemma split_covers_input_witness :
  ∃ w', FragmentEngine.split [x01; x02; x03] Mock.world0
        = (Ok (Some [mkRaw 0 0 [x01; x02; x03] 3]), w').
Proof.
  destruct (split_covers_input [x01; x02; x03] Mock.world0)
    as (frags & w' & Hrun & _ & _ & _ & _ & _ & Hone).
  exists w'. rewrite Hrun, Hone; [reflexivity|simpl; lia|simpl; reflexivity].
Defined.

(** ** Bytes *)

Lemma byte_to_Z_range (b : byte) : 0 ≤ byte_to_Z b < 256.
Proof. unfold byte_to_Z. pose proof (Byte.to_N_bounded b). lia. Qed.

Lemma byte_to_Z_inj (a b : byte) : byte_to_Z a = byte_to_Z b → a = b.
Proof.
  unfold byte_to_Z. intros H. apply N2Z.inj in H.
  pose proof (Byte.of_to_N a) as Ha. rewrite H, Byte.of_to_N in Ha. congruence.
Qed.

Lemma byte_of_to_Z (b : byte) : byte_of_Z (byte_to_Z b) = b.
Proof.
  unfold byte_of_Z. pose proof (byte_to_Z_range b).
  rewrite Z.mod_small by lia. unfold byte_to_Z.
  by rewrite N2Z.id, Byte.of_to_N.
Qed.

(** ** The native core *)

Section native_properties.
Context `{P : Primitives} {L : PrimitivesLaws P}.

Lemma expand_length (fuel : nat) :
  ∀ prk info T ctr remaining, (remaining ≤ fuel)%nat →
    length (crypto_core.expand fuel prk info T ctr remaining) = remaining.
Proof.
  induction fuel as [|fuel IH]; intros prk info T ctr remaining Hle; simpl.
  - lia.
  - destruct (Nat.eqb_spec remaining 0) as [->|Hpos]; [done|].
    rewrite length_app, length_take, HMAC_SHA256_length, IH.
    + destruct (Nat.ltb_spec remaining 32); lia.
    + destruct (Nat.ltb_spec remaining 32); lia.
Qed.

Lemma nativeHKDF_length (ikm salt info : bytes) (out_len : nat) :
  length (crypto_core.nativeHKDF ikm salt info out_len) = out_len.
Proof. unfold crypto_core.nativeHKDF. by apply expand_length. Qed.

Lemma canary_of_length (key : bytes) (index : Z) : length (canary_of key index) = 16%nat.
Proof. apply nativeHKDF_length. Qed.

Lemma hkdf_spec (ikm salt : bytes) (info : string) (n : nat) (w : World) :
  wp (NativeCrypto.hkdf (base64 ikm) (base64 salt) info n) w
    (λ b64 w', b64 = base64 (crypto_core.nativeHKDF ikm salt (utf8 info) n) ∧
               framed w (heap w) (trace w ++ [EvNative "hkdf"]) w').
Proof.
  unfold NativeCrypto.hkdf.
  wp_step wp_log. intros ? w1 Hf.
  rewrite !Base64_decode_encode.
  apply wp_ret. split; [done|]. framed_solve.
Qed.

Lemma nativeAESGCMDecrypt_layout (key iv aad pt : bytes) :
  length key = 32%nat → length iv = 12%nat →
  crypto_core.nativeAESGCMDecrypt key
    (iv ++ (AES_256_GCM_encrypt key iv aad pt).1 ++ (AES_256_GCM_encrypt key iv aad pt).2)
    (Some aad) = Some pt.
Proof.
  intros Hkey Hiv. unfold crypto_core.nativeAESGCMDecrypt.
  pose proof (AES_256_GCM_tag_length key iv aad pt) as Htag.
  pose proof (AES_256_GCM_decrypt_encrypt key iv aad pt) as Hdec.
  set (ct := (AES_256_GCM_encrypt key iv aad pt).1) in *.
  set (tag := (AES_256_GCM_encrypt key iv aad pt).2) in *.
  rewrite Hkey, !length_app, Hiv, Htag.
  replace (32 =? 32)%nat with true by done.
  destruct (Nat.ltb_spec (12 + (length ct + 16)) 28) as [?|_]; [lia|].
  simpl negb. cbv iota. simpl orb. cbv iota.
  replace (12 + (length ct + 16) - 12 - 16)%nat with (length ct) by lia.
  rewrite <- Hiv at 1. rewrite take_app_length.
  rewrite <- Hiv at 1. rewrite drop_app_length, take_app_length.
  replace (12 + length ct)%nat with (length (iv ++ ct)) by (rewrite length_app; lia).
  rewrite app_assoc, drop_app_length.
  exact Hdec.
Qed.
End native_properties.

(** ** CanaryService *)

Section canary_properties.
Context `{P : Primitives} {L : PrimitivesLaws P}.
Import CRYPTO_CONSTANTS.

Lemma derive_spec (key : bytes) (index : Z) (w : World) :
  wp (CanaryService.derive key index) w
    (λ l w', l = length (heap w) ∧
             framed w (heap w ++ [canary_of key index]) (trace w ++ [EvNative "hkdf"]) w').
Proof.
  unfold CanaryService.derive.
  wp_step hkdf_spec. intros b64 w1 (-> & Hf).
  wp_last wp_alloc. intros l w2 (-> & Hf2).
  rewrite Buffer_from_base64_encode in Hf2.
  split; [unframe; by heap_simpl|]. framed_solve.
Qed.

Lemma padding_of_length (cn : bytes) : length (padding_of cn) = 16%nat.
Proof. unfold padding_of. by rewrite length_map, length_seq. Qed.

Lemma padding_of_lookup (cn : bytes) (i : nat) :
  (i < 16)%nat →
  padding_of cn !! i
  = Some (byte_of_Z (Z.lxor (byte_at cn (i mod 16)) ((Z.of_nat i + 1) * 90))).
Proof.
  intros Hi. unfold padding_of. rewrite list_lookup_fmap.
  rewrite lookup_seq_lt by done. reflexivity.
Qed.

Lemma pad_loop_spec (out c : loc) (data cn : bytes) (count : nat) :
  ∀ i w,
    (i + count ≤ 16)%nat → length cn = 16%nat → c ≠ out →
    heap w !! c = Some cn →
    heap w !! out = Some (data ++ cn ++ take i (padding_of cn) ++ zeros (16 - i)) →
    wp (CanaryService.pad_loop out c (length data) i count) w
      (λ _ w', framed w
         (<[out := data ++ cn ++ take (i + count) (padding_of cn)
                     ++ zeros (16 - (i + count))]> (heap w))
         (trace w) w').
Proof.
  induction count as [|count IH]; intros i w Hle Hcn Hne Hc Hout;
    cbn [CanaryService.pad_loop].
  - apply wp_ret. rewrite Nat.add_0_r, list_insert_id by done. apply framed_refl.
  - wp_step wp_read. intros cn' w1 (-> & ->). rewrite Hc.
    change (default [] (Some cn)) with cn.
    wp_step (store_spec out). { exact Hout. }
    intros ? w1 Hf.
    assert (Hstep :
      <[(length data + CANARY_LENGTH + i)%nat :=
          byte_of_Z (Z.lxor (byte_at cn (i mod CANARY_LENGTH)) ((Z.of_nat i + 1) * 90))]>
        (data ++ cn ++ take i (padding_of cn) ++ zeros (16 - i))
      = data ++ cn ++ take (S i) (padding_of cn) ++ zeros (16 - S i)).
    { unfold CANARY_LENGTH.
      rewrite insert_app_r_alt by lia.
      rewrite insert_app_r_alt by lia.
      rewrite insert_app_r_alt by (rewrite length_take, padding_of_length; lia).
      rewrite length_take, padding_of_length.
      replace (length data + 16 + i - length data - length cn - i `min` 16)%nat
        with 0%nat by lia.
      replace (16 - i)%nat with (S (16 - S i)) by lia.
      rewrite (take_S_r _ _ _ (padding_of_lookup cn i ltac:(lia))).
      by rewrite <- app_assoc. }
    rewrite Hstep in Hf.
    assert (Hc1 : heap w1 !! c = Some cn).
    { destruct Hf as (-> & _). by rewrite list_lookup_insert_ne. }
    assert (Hout1 : heap w1 !! out
                    = Some (data ++ cn ++ take (S i) (padding_of cn) ++ zeros (16 - S i))).
    { destruct Hf as (-> & _). apply list_lookup_insert_eq. by eapply lookup_lt_Some. }
    wp_last (IH (S i) w1 ltac:(lia) Hcn Hne Hc1 Hout1). intros ? w2 Hf2.
    replace (i + S count)%nat with (S i + count)%nat by lia.
    unframe. split; [|split]; [|congruence|eauto using same_state_trans].
    match goal with H : heap w2 = _ |- _ => rewrite H end.
    match goal with H : heap w1 = _ |- _ => rewrite H end.
    apply list_insert_insert_eq.
Qed.
Lemma drop_zeros (k n : nat) : drop k (zeros n) = zeros (n - k).
Proof. unfold zeros. apply drop_replicate. Qed.

Lemma embed_spec (data : bytes) (c : loc) (cn : bytes) (w : World) :
  heap w !! c = Some cn → length cn = 16%nat →
  wp (CanaryService.embed data c) w
    (λ out w', out = length (heap w) ∧
               framed w (heap w ++ [data ++ cn ++ padding_of cn]) (trace w) w').
Proof.
  intros Hc Hcn. unfold CanaryService.embed.
  pose proof (lookup_lt_Some _ _ _ Hc) as Hlt.
  change CANARY_TOTAL_OVERHEAD with 32%nat. change CANARY_TRAILING_PAD with 16%nat.
  wp_step wp_alloc. intros out w1 (-> & Hf1).
  set (out := length (heap w)) in *.
  assert (Hne : c ≠ out) by (unfold out; lia).
  assert (H1 : heap w1 !! out = Some (zeros (length data + 32))).
  { destruct Hf1 as (-> & _). apply lookup_snoc. }
  wp_step (typed_set_spec out data 0 w1 _ H1).
  { unfold zeros. rewrite length_replicate. lia. }
  intros ? w2 Hf2.
  rewrite take_0, drop_zeros in Hf2.
  replace (length data + 32 - (0 + length data))%nat with 32%nat in Hf2 by lia.
  simpl app in Hf2.
  assert (H2 : heap w2 !! out = Some (data ++ zeros 32)).
  { destruct Hf2 as (-> & _). apply list_lookup_insert_eq. by eapply lookup_lt_Some. }
  assert (Hc2 : heap w2 !! c = Some cn).
  { destruct Hf2 as (-> & _), Hf1 as (-> & _).
    rewrite list_lookup_insert_ne by done. by rewrite lookup_app_l. }
  wp_step wp_read. intros cn' w2' (-> & ->). rewrite Hc2.
  change (default [] (Some cn)) with cn.
  wp_step (typed_set_spec out cn (length data) w2 _ H2).
  { rewrite length_app. unfold zeros. rewrite length_replicate. lia. }
  intros ? w3 Hf3.
  rewrite take_app_length, drop_app_add, drop_zeros, Hcn in Hf3.
  change (32 - 16)%nat with 16%nat in Hf3.
  assert (H3 : heap w3 !! out
               = Some (data ++ cn ++ take 0 (padding_of cn) ++ zeros (16 - 0))).
  { destruct Hf3 as (-> & _). rewrite take_0. simpl.
    apply list_lookup_insert_eq. by eapply lookup_lt_Some. }
  assert (Hc3 : heap w3 !! c = Some cn).
  { destruct Hf3 as (-> & _). by rewrite list_lookup_insert_ne. }
  wp_step (pad_loop_spec out c data cn 16 0 w3 ltac:(lia) Hcn Hne Hc3 H3).
  intros ? w4 Hf4.
  apply wp_ret. split; [done|].
  change (16 - (0 + 16))%nat with 0%nat in Hf4. change (0 + 16)%nat with 16%nat in Hf4.
  rewrite <- (padding_of_length cn) in Hf4 at 1. rewrite firstn_all in Hf4.
  simpl zeros in Hf4. rewrite app_nil_r in Hf4.
  unframe. split; [|split]; [|by heap_simpl|eauto 10 using same_state_trans].
  heap_simpl. rewrite !list_insert_insert_eq. apply insert_snoc.
Qed.

(** The comparison loop is zero exactly when the sixteen canary bytes of
    the blob equal the expected ones. *)
Lemma verify_loop_zero (d e : bytes) (start count : nat) :
  ∀ i diff, 0 ≤ diff →
    CanaryService.verify_loop d e start i count diff = 0 ↔
    diff = 0 ∧ ∀ j, (j < count)%nat → byte_at d (start + (i + j)) = byte_at e (i + j).
Proof.
  assert (Hat : ∀ (l : bytes) k, 0 ≤ byte_at l k).
  { intros l k. unfold byte_at. destruct (l !! k); [apply byte_to_Z_range|lia]. }
  induction count as [|count IH]; intros i diff Hdiff; simpl.
  - split; [intros ->; split; [done|intros; lia]|by intros [-> _]].
  - rewrite IH.
    2:{ apply Z.lor_nonneg. split; [done|]. apply Z.lxor_nonneg. split; intros; apply Hat. }
    rewrite Z.lor_eq_0_iff, Z.lxor_eq_0_iff. split.
    + intros ((-> & H0) & Hrest). split; [done|]. intros [|j] Hj.
      * by rewrite Nat.add_0_r.
      * specialize (Hrest j ltac:(lia)).
        by replace (i + S j)%nat with (S i + j)%nat by lia.
    + intros (-> & Hall). split; [split; [done|]|].
      * specialize (Hall 0%nat ltac:(lia)). by rewrite Nat.add_0_r in Hall.
      * intros j Hj. specialize (Hall (S j) ltac:(lia)).
        by replace (i + S j)%nat with (S i + j)%nat in Hall by lia.
Qed.

Lemma byte_at_ext (a b : bytes) :
  length a = length b →
  (∀ j, (j < length a)%nat → byte_at a j = byte_at b j) → a = b.
Proof.
  intros Hlen Hall. apply list_eq_same_length with (length a); [done|done|].
  intros j x y Hj Hx Hy. specialize (Hall j Hj). unfold byte_at in Hall.
  rewrite Hx, Hy in Hall. by apply byte_to_Z_inj.
Qed.

Lemma verify_spec (d e : loc) (dv ev : bytes) (w : World) :
  heap w !! d = Some dv → heap w !! e = Some ev → length ev = 16%nat →
  wp (CanaryService.verify d e) w
    (λ ok w', w' = w ∧
              ok = bool_decide ((32 ≤ length dv)%nat
                                ∧ take 16 (drop (length dv - 32) dv) = ev)).
Proof.
  intros Hd He Hev. unfold CanaryService.verify.
  change CANARY_TOTAL_OVERHEAD with 32%nat. change CANARY_LENGTH with 16%nat.
  wp_step wp_read. intros dv' w1 (-> & ->). rewrite Hd.
  change (default [] (Some dv)) with dv.
  destruct (Nat.ltb_spec (length dv) 32) as [Hshort|Hlong].
  - apply wp_ret. split; [done|]. rewrite bool_decide_eq_false_2; [done|]. lia.
  - wp_step wp_read. intros ev' w1 (-> & ->). rewrite He.
    change (default [] (Some ev)) with ev.
    apply wp_ret. split; [done|].
    set (start := (length dv - 32)%nat).
    assert (Hlen : length (take 16 (drop start dv)) = 16%nat).
    { rewrite length_take, length_drop. lia. }
    apply eq_true_iff_eq. rewrite Z.eqb_eq, bool_decide_eq_true.
    rewrite (verify_loop_zero dv ev start 16 0 0) by lia.
    split.
    + intros (_ & Hall). split; [done|].
      apply byte_at_ext; [congruence|]. rewrite Hlen. intros j Hj.
      specialize (Hall j Hj). change (0 + j)%nat with j in Hall.
      rewrite <- Hall. unfold byte_at.
      by rewrite lookup_take_lt, lookup_drop by lia.
    + intros (_ & Heq). split; [done|]. intros j Hj.
      change (0 + j)%nat with j.
      rewrite <- Heq. unfold byte_at.
      by rewrite lookup_take_lt, lookup_drop by lia.
Qed.

Lemma strip_spec (d : loc) (dv : bytes) (w : World) :
  heap w !! d = Some dv → (32 ≤ length dv)%nat →
  wp (CanaryService.strip d) w
    (λ r w', r = length (heap w) ∧
             framed w (heap w ++ [take (length dv - 32) dv]) (trace w) w').
Proof.
  intros Hd Hlong. unfold CanaryService.strip.
  change CANARY_TOTAL_OVERHEAD with 32%nat.
  wp_step wp_read. intros dv' w1 (-> & ->). rewrite Hd.
  change (default [] (Some dv)) with dv.
  destruct (Nat.ltb_spec (length dv) 32) as [?|_]; [lia|].
  wp_step wp_alloc. intros r w1 (-> & Hf1).
  assert (H1 : heap w1 !! length (heap w) = Some (zeros (length dv - 32))).
  { destruct Hf1 as (-> & _). apply lookup_snoc. }
  wp_step (typed_set_spec (length (heap w)) (take (length dv - 32) dv) 0 w1 _ H1).
  { unfold zeros. rewrite length_replicate, length_take. lia. }
  intros ? w2 Hf2. apply wp_ret. split; [done|].
  rewrite take_0, drop_zeros, length_take in Hf2.
  replace (length dv - 32 - (0 + (length dv - 32) `min` length dv))%nat with 0%nat
    in Hf2 by lia.
  simpl in Hf2. rewrite app_nil_r in Hf2.
  unframe. split; [|split]; [|by heap_simpl|eauto 10 using same_state_trans].
  heap_simpl. apply insert_snoc.
Qed.
End canary_properties.

(** ** The bridge and CryptoEngine *)

Lemma charCodeAt_inj (c1 c2 : ascii) :
  Z.of_N (N_of_ascii c1) = Z.of_N (N_of_ascii c2) → c1 = c2.
Proof.
  intros H. apply N2Z.inj in H.
  by rewrite <- (ascii_N_embedding c1), <- (ascii_N_embedding c2), H.
Qed.

Lemma string_ext (a : string) :
  ∀ b, String.length a = String.length b →
    (∀ j, (j < String.length a)%nat → charCodeAt a j = charCodeAt b j) → a = b.
Proof.
  induction a as [|c a IH]; intros [|c' b] Hlen Hall; try done.
  simpl in Hlen. f_equal.
  - apply charCodeAt_inj. apply (Hall 0%nat). simpl. lia.
  - apply IH; [lia|]. intros j Hj. apply (Hall (S j)). simpl. lia.
Qed.

Lemma charCodeAt_nonneg (s : string) (i : nat) : 0 ≤ charCodeAt s i.
Proof. unfold charCodeAt. destruct (get i s); lia. Qed.

Lemma diff_loop_zero (a b : string) (count : nat) :
  ∀ i diff, 0 ≤ diff →
    CryptoEngine.diff_loop a b i count diff = 0 ↔
    diff = 0 ∧ ∀ j, (j < count)%nat → charCodeAt a (i + j) = charCodeAt b (i + j).
Proof.
  induction count as [|count IH]; intros i diff Hdiff; simpl.
  - split; [intros ->; split; [done|intros; lia]|by intros [-> _]].
  - rewrite IH.
    2:{ apply Z.lor_nonneg. split; [done|].
        apply Z.lxor_nonneg. split; intros; apply charCodeAt_nonneg. }
    rewrite Z.lor_eq_0_iff, Z.lxor_eq_0_iff. split.
    + intros ((-> & H0) & Hrest). split; [done|]. intros [|j] Hj.
      * by rewrite Nat.add_0_r.
      * specialize (Hrest j ltac:(lia)).
        by replace (i + S j)%nat with (S i + j)%nat by lia.
    + intros (-> & Hall). split; [split; [done|]|].
      * specialize (Hall 0%nat ltac:(lia)). by rewrite Nat.add_0_r in Hall.
      * intros j Hj. specialize (Hall (S j) ltac:(lia)).
        by replace (i + S j)%nat with (S i + j)%nat in Hall by lia.
Qed.

Section engine_properties.
Context `{P : Primitives} {L : PrimitivesLaws P}.

Lemma decode_aad (aad : option bytes) :
  from_option (λ a, option_map Some (Base64_decode a)) (Some None) (option_map base64 aad)
  = Some aad.
Proof. destruct aad; simpl; [by rewrite Base64_decode_encode|done]. Qed.

Lemma hmacSHA256_spec (key data : bytes) (w : World) :
  wp (CryptoEngine.hmacSHA256 key data) w
    (λ hex w', hex = hex_of_bytes (HMAC_SHA256 key data) ∧
               framed w (heap w) (trace w ++ [EvNative "hmacSHA256"]) w').
Proof.
  unfold CryptoEngine.hmacSHA256, NativeCrypto.hmacSHA256.
  wp_step wp_log. intros ? w1 Hf.
  rewrite !Base64_decode_encode. apply wp_ret. split; [done|]. framed_solve.
Qed.

Lemma verifyHMAC_spec (key data : bytes) (expectedHex : string) (w : World) :
  wp (CryptoEngine.verifyHMAC key data expectedHex) w
    (λ ok w', ok = bool_decide (hex_of_bytes (HMAC_SHA256 key data) = expectedHex) ∧
              framed w (heap w) (trace w ++ [EvNative "hmacSHA256"]) w').
Proof.
  unfold CryptoEngine.verifyHMAC.
  wp_step hmacSHA256_spec. intros computed w1 (-> & Hf).
  set (computed := hex_of_bytes (HMAC_SHA256 key data)).
  destruct (Nat.eqb_spec (String.length computed) (String.length expectedHex)) as [Hlen|Hlen];
    simpl negb; cbv iota; apply wp_ret; (split; [|done]).
  - apply eq_true_iff_eq. rewrite Z.eqb_eq, bool_decide_eq_true.
    rewrite (diff_loop_zero computed expectedHex _ 0 0) by lia.
    split.
    + intros (_ & Hall). by apply string_ext.
    + intros <-. done.
  - rewrite bool_decide_eq_false_2; [done|]. intros Heq. by rewrite Heq in Hlen.
Qed.

Lemma aesGCMEncrypt_spec (key pt : bytes) (aad : option bytes) (w : World) :
  length key = 32%nat →
  wp (NativeCrypto.aesGCMEncrypt (base64 key) (base64 pt) (option_map base64 aad)) w
    (λ data w',
       (∃ iv, length iv = 12%nat ∧
              data = base64 (iv ++ (AES_256_GCM_encrypt key iv (default [] aad) pt).1
                                ++ (AES_256_GCM_encrypt key iv (default [] aad) pt).2)) ∧
       framed w (heap w) (trace w ++ [EvNative "aesGCMEncrypt"]) w').
Proof.
  intros Hkey. unfold NativeCrypto.aesGCMEncrypt.
  wp_step wp_log. intros ? w1 Hf1.
  rewrite !Base64_decode_encode, decode_aad.
  unfold crypto_core.nativeAESGCMEncrypt. rewrite Hkey.
  change (negb (32 =? 32)%nat) with false. cbv iota.
  eapply wp_bind.
  { wp_step wp_entropy. intros iv w2 (Hiv & Hf2).
    destruct (AES_256_GCM_encrypt key iv (default [] aad) pt) as [ct tag] eqn:Henc.
    apply wp_ret.
    instantiate (1 := λ r w', (∃ iv, length iv = 12%nat ∧
       r = Some (iv ++ (AES_256_GCM_encrypt key iv (default [] aad) pt).1
                    ++ (AES_256_GCM_encrypt key iv (default [] aad) pt).2)) ∧
       framed w (heap w) (trace w ++ [EvNative "aesGCMEncrypt"]) w').
    cbv beta. split; [exists iv; by rewrite Henc|]. framed_solve. }
  cbv beta. intros r w2 ((iv & Hiv & ->) & Hf2).
  apply wp_ret. split; [by exists iv|done].
Qed.

Lemma aesGCMDecrypt_ok (key : bytes) (blobB64 : string) (aad : option bytes)
    (blob pt : bytes) (w : World) :
  Base64_decode blobB64 = Some blob →
  crypto_core.nativeAESGCMDecrypt key blob aad = Some pt →
  wp (NativeCrypto.aesGCMDecrypt (base64 key) blobB64 (option_map base64 aad)) w
    (λ ptB64 w', ptB64 = base64 pt ∧
                 framed w (heap w) (trace w ++ [EvNative "aesGCMDecrypt"]) w').
Proof.
  intros Hblob Hdec. unfold NativeCrypto.aesGCMDecrypt.
  wp_step wp_log. intros ? w1 Hf1.
  rewrite Base64_decode_encode, Hblob, decode_aad, Hdec.
  apply wp_ret. split; [done|]. framed_solve.
Qed.

Lemma aesGCMDecrypt_auth_fail (key : bytes) (blobB64 : string) (aad : option bytes)
    (blob : bytes) (w : World) :
  Base64_decode blobB64 = Some blob →
  crypto_core.nativeAESGCMDecrypt key blob aad = None →
  wpx (NativeCrypto.aesGCMDecrypt (base64 key) blobB64 (option_map base64 aad)) w
    (λ e w', e = Rejected "AES_AUTH_FAIL" "GCM tag mismatch — integrity violation" ∧
             framed w (heap w) (trace w ++ [EvNative "aesGCMDecrypt"]) w').
Proof.
  intros Hblob Hdec. unfold NativeCrypto.aesGCMDecrypt.
  wpx_step wp_log. intros ? w1 Hf1.
  rewrite Base64_decode_encode, Hblob, decode_aad, Hdec.
  apply wpx_throw. split; [done|]. framed_solve.
Qed.
End engine_properties.

(** ** FragmentEngine: encryption and decryption *)

Section fragment_properties.
Context `{P : Primitives} {L : PrimitivesLaws P}.

Lemma encrypt_spec (key pt aad : bytes) (w : World) :
  length key = 32%nat →
  wp (CryptoEngine.encrypt key pt (Some aad)) w
    (λ blob w',
       (∃ iv, length iv = 12%nat ∧
              blob = mkBlob (base64 (sealed key iv aad pt)) (Some (base64 aad))) ∧
       framed w (heap w) (trace w ++ [EvNative "aesGCMEncrypt"]) w').
Proof.
  intros Hkey. unfold CryptoEngine.encrypt.
  wp_step (aesGCMEncrypt_spec key pt (Some aad) w Hkey).
  intros data w1 ((iv & Hiv & ->) & Hf).
  apply wp_ret. split; [by exists iv|done].
Qed.

Lemma decrypt_ok (key : bytes) (data : string) (aad blob pt : bytes) (w : World) :
  Base64_decode data = Some blob →
  crypto_core.nativeAESGCMDecrypt key blob (Some aad) = Some pt →
  pt ≠ [] →
  wp (CryptoEngine.decrypt key (mkBlob data (Some (base64 aad)))) w
    (λ l w', l = length (heap w) ∧
             framed w (heap w ++ [pt]) (trace w ++ [EvNative "aesGCMDecrypt"]) w').
Proof.
  intros Hblob Hdec Hpt. unfold CryptoEngine.decrypt. simpl blob_aadB64. simpl blob_data.
  wp_step (aesGCMDecrypt_ok key data (Some aad) blob pt w Hblob Hdec).
  intros ptB64 w1 (-> & Hf).
  destruct (String.eqb_spec (base64 pt) EmptyString) as [Hempty|_].
  { by apply base64_nonempty in Hempty. }
  wp_last wp_alloc. intros l w2 (-> & Hf2).
  rewrite Buffer_from_base64_encode in Hf2.
  split; [unframe; by heap_simpl|]. framed_solve.
Qed.


Lemma plaintext_of_length (key : bytes) (index : Z) (data : bytes) :
  length (plaintext_of key index data) = (length data + 32)%nat.
Proof.
  unfold plaintext_of. rewrite !length_app, padding_of_length, canary_of_length. lia.
Qed.

Lemma plaintext_of_canary (key : bytes) (index : Z) (data : bytes) :
  canary_matches key index (plaintext_of key index data).
Proof.
  unfold canary_matches. rewrite plaintext_of_length. split; [lia|].
  replace (length data + 32 - 32)%nat with (length data) by lia.
  unfold plaintext_of. rewrite drop_app_length.
  rewrite <- (canary_of_length key index) at 1. apply take_app_length.
Qed.

Lemma plaintext_of_strip (key : bytes) (index : Z) (data : bytes) :
  take (length (plaintext_of key index data) - 32) (plaintext_of key index data) = data.
Proof.
  rewrite plaintext_of_length.
  replace (length data + 32 - 32)%nat with (length data) by lia.
  apply take_app_length.
Qed.

(** What [encryptFragment] returns and leaves behind. *)
Lemma encryptFragment_spec (fragment : RawFragment) (crk hk : bytes) (imageId : string)
    (w : World) :
  length crk = 32%nat →
  wp (FragmentEngine.encryptFragment fragment crk hk imageId) w
    (λ ef w',
       (∃ iv, length iv = 12%nat ∧
          let blob := sealed crk iv (FragmentEngine.aad_of imageId (rf_index fragment))
                        (plaintext_of crk (rf_index fragment) (rf_data fragment)) in
          ef = mkEnc (rf_index fragment) (base64 blob)
                 (base64 (FragmentEngine.aad_of imageId (rf_index fragment)))
                 (hex_of_bytes (HMAC_SHA256 hk blob)) (rf_size fragment)) ∧
       framed w (heap w ++ [zeros 16; zeros (length (rf_data fragment) + 32)])
         (trace w ++ [EvNative "hkdf"; EvNative "aesGCMEncrypt"; EvNative "hmacSHA256"]) w').
Proof.
  intros Hkey. unfold FragmentEngine.encryptFragment.
  set (idx := rf_index fragment). set (data := rf_data fragment).
  set (cn := canary_of crk idx).
  wp_step derive_spec. intros c w1 (-> & Hf1).
  assert (Hc1 : heap w1 !! length (heap w) = Some cn).
  { destruct Hf1 as (-> & _). apply lookup_snoc. }
  wp_step (embed_spec data _ cn w1 Hc1 (canary_of_length crk idx)).
  intros out w2 (-> & Hf2).
  assert (Hlen1 : length (heap w1) = S (length (heap w))).
  { destruct Hf1 as (-> & _). rewrite length_app. simpl. lia. }
  assert (Hc2 : heap w2 !! length (heap w) = Some cn).
  { destruct Hf2 as (-> & _). rewrite lookup_app_l by lia. done. }
  wp_step (wipe_spec _ w2 cn Hc2). intros ? w3 Hf3.
  fold (plaintext_of crk idx data) in Hf2.
  assert (Hout3 : heap w3 !! length (heap w1) = Some (plaintext_of crk idx data)).
  { destruct Hf3 as (-> & _), Hf2 as (-> & _).
    rewrite list_lookup_insert_ne by lia. apply lookup_snoc. }
  wp_step wp_read. intros pt w3' (-> & ->). rewrite Hout3.
  change (default [] (Some ?x)) with x.
  wp_step (encrypt_spec crk (plaintext_of crk idx data)
             (FragmentEngine.aad_of imageId idx) w3 Hkey).
  intros blob w4 ((iv & Hiv & ->) & Hf4).
  assert (Hout4 : heap w4 !! length (heap w1) = Some (plaintext_of crk idx data)).
  { destruct Hf4 as (-> & _). done. }
  wp_step (wipe_spec _ w4 _ Hout4). intros ? w5 Hf5.
  simpl blob_data. rewrite Buffer_from_base64_encode.
  wp_step hmacSHA256_spec. intros hmac w6 (-> & Hf6).
  apply wp_ret. split; [by exists iv|].
  assert (Hcn : length cn = 16%nat) by apply canary_of_length.
  rewrite plaintext_of_length in Hf5. rewrite Hcn in Hf3.
  unframe. split; [|split]; [| |eauto 10 using same_state_trans].
  - heap_simpl.
    rewrite insert_app_l by (rewrite length_app; simpl; lia).
    rewrite insert_snoc.
    replace (length (heap w ++ [canary_of crk idx])) with (length (heap w ++ [zeros 16]))
      by (rewrite !length_app; done).
    rewrite insert_snoc. by rewrite <- app_assoc.
  - heap_simpl. by rewrite <- !app_assoc.
Qed.
Lemma decryptFragment_ok (ef : EncryptedFragment) (crk hk : bytes) (imageId : string)
    (blob pt : bytes) (w : World) :
  hmac_matches hk ef → aad_matches imageId ef →
  Base64_decode (ef_encryptedData ef) = Some blob →
  gcm_opens crk imageId ef blob = Some pt → pt ≠ [] →
  canary_matches crk (ef_index ef) pt →
  wp (FragmentEngine.decryptFragment ef crk hk imageId) w
    (λ l w', l = (length (heap w) + 2)%nat ∧
             framed w (heap w ++ [zeros (length pt); zeros 16; take (length pt - 32) pt])
               (trace w ++ [EvNative "hmacSHA256"; EvNative "aesGCMDecrypt";
                            EvNative "hkdf"]) w').
Proof.
  intros Hmac Haad Hblob Hopen Hpt Hcanary.
  unfold FragmentEngine.decryptFragment.
  wp_step verifyHMAC_spec. intros ok w1 (-> & Hf1).
  rewrite (bool_decide_eq_true_2 _ Hmac). simpl negb. cbv iota.
  rewrite (proj2 (String.eqb_eq (ef_aadB64 ef) _) Haad). simpl negb. cbv iota.
  rewrite Haad.
  wp_step (decrypt_ok crk _ _ blob pt w1 Hblob Hopen Hpt). intros d w2 (-> & Hf2).
  wp_step derive_spec. intros c w3 (-> & Hf3).
  assert (Hlen1 : length (heap w1) = length (heap w)) by (by destruct Hf1 as (-> & _)).
  assert (Hlen2 : length (heap w2) = S (length (heap w))).
  { destruct Hf2 as (-> & _). rewrite length_app, Hlen1. simpl. lia. }
  set (cn := canary_of crk (ef_index ef)) in *.
  assert (Hcn : length cn = 16%nat) by apply canary_of_length.
  assert (Hd3 : heap w3 !! length (heap w1) = Some pt).
  { destruct Hf3 as (-> & _), Hf2 as (-> & _).
    rewrite lookup_app_l by (rewrite length_app; simpl; lia). apply lookup_snoc. }
  assert (Hc3 : heap w3 !! length (heap w2) = Some cn).
  { destruct Hf3 as (-> & _). apply lookup_snoc. }
  wp_step (verify_spec _ _ pt cn w3 Hd3 Hc3 Hcn). intros ok w3' (-> & ->).
  rewrite (bool_decide_eq_true_2 _ Hcanary).
  wp_step (wipe_spec _ w3 cn Hc3). intros ? w4 Hf4.
  simpl negb. cbv iota.
  assert (Hd4 : heap w4 !! length (heap w1) = Some pt).
  { destruct Hf4 as (-> & _). rewrite list_lookup_insert_ne by lia. done. }
  destruct Hcanary as [Hlong _].
  wp_step (strip_spec _ pt w4 Hd4 Hlong). intros r w5 (-> & Hf5).
  assert (Hd5 : heap w5 !! length (heap w1) = Some pt).
  { destruct Hf5 as (-> & _). rewrite lookup_app_l; [done|]. by eapply lookup_lt_Some. }
  wp_step (wipe_spec _ w5 pt Hd5). intros ? w6 Hf6.
  apply wp_ret.
  assert (Hlen4 : length (heap w4) = (length (heap w) + 2)%nat).
  { destruct Hf4 as (-> & _), Hf3 as (-> & _).
    rewrite length_insert, length_app. simpl. lia. }
  split; [done|]. rewrite Hcn in Hf4.
  unframe. split; [|split]; [| |eauto 10 using same_state_trans].
  - heap_simpl. rewrite insert_snoc.
    rewrite <- !app_assoc. simpl.
    rewrite insert_app_r_alt by lia. rewrite Nat.sub_diag. done.
  - heap_simpl. by rewrite <- !app_assoc.
Qed.

Lemma decryptFragment_integrity_fail (ef : EncryptedFragment) (crk hk : bytes)
    (imageId : string) (w : World) :
  ¬ hmac_matches hk ef →
  wpx (FragmentEngine.decryptFragment ef crk hk imageId) w
    (λ e w', e = Error ("HMAC mismatch on fragment " +:+ pretty (ef_index ef)
                          +:+ " of " +:+ imageId) ∧
             framed w (heap w) (trace w ++ [EvNative "hmacSHA256"]) w').
Proof.
  intros Hmac. unfold FragmentEngine.decryptFragment.
  wpx_step verifyHMAC_spec. intros ok w1 (-> & Hf1).
  rewrite (bool_decide_eq_false_2 _ Hmac). simpl negb. cbv iota.
  by apply wpx_throw.
Qed.



End fragment_properties.

(** ** The stand-in library meets the laws *)

Lemma Mock_laws : PrimitivesLaws Mock.primitives.
Proof.
  split; cbn [Mock.primitives HMAC_SHA256 AES_256_GCM_encrypt AES_256_GCM_decrypt
               base64 Buffer_from_base64 Base64_decode fst snd].
  - intros. apply length_replicate.
  - intros. apply length_replicate.
  - intros. unfold Mock.bytes_eqb. by rewrite bool_decide_eq_true_2.
  - apply list_byte_of_string_of_list_byte.
  - intros. by rewrite list_byte_of_string_of_list_byte.
  - intros [|b bs] Hne; [done|]. done.
Qed.

(** ** C1: the fragment round trip *)

(** C1. For every byte array [data], every 32-byte chapter root key, every
    HMAC key, every image id and every fragment index, [encryptFragment]
    returns a record, [decryptFragment] under the same keys and image id
    returns normally on that record, and the array it returns holds exactly
    [data]. For every 16-byte canary, [strip] applied to the array built by
    [embed] returns an array that holds exactly [data]. *)
Theorem decrypt_encrypt_roundtrip `{P : Primitives} (L : PrimitivesLaws P)
    (data crk hk : bytes) (imageId : string) (i offset size : Z) (w : World) :
  length crk = 32%nat →
  (∃ ef w1 l w2,
     FragmentEngine.encryptFragment (mkRaw i offset data size) crk hk imageId w = (Ok ef, w1) ∧
     FragmentEngine.decryptFragment ef crk hk imageId w1 = (Ok l, w2) ∧
     heap w2 !! l = Some data) ∧
  (∀ (canary : bytes) (c : loc) (w0 : World),
     length canary = 16%nat → heap w0 !! c = Some canary →
     ∃ out w1 r w2,
       CanaryService.embed data c w0 = (Ok out, w1) ∧
       CanaryService.strip out w1 = (Ok r, w2) ∧
       heap w2 !! r = Some data).
Proof.
  intros Hkey. split.
  - destruct (encryptFragment_spec (mkRaw i offset data size) crk hk imageId w Hkey)
      as (ef & w1 & Henc & (iv & Hiv & Hef) & Hf1).
    simpl in Hef.
    set (aad := FragmentEngine.aad_of imageId i) in *.
    set (pt := plaintext_of crk i data) in *.
    assert (Hpt : pt ≠ []).
    { intros Heq. pose proof (plaintext_of_length crk i data) as Hlen.
      fold pt in Hlen. rewrite Heq in Hlen. simpl in Hlen. lia. }
    destruct (decryptFragment_ok ef crk hk imageId (sealed crk iv aad pt) pt w1)
      as (l & w2 & Hdec & -> & Hf2).
    + unfold hmac_matches. rewrite Hef. simpl. by rewrite Buffer_from_base64_encode.
    + unfold aad_matches. by rewrite Hef.
    + rewrite Hef. simpl. apply Base64_decode_encode.
    + unfold gcm_opens. rewrite Hef. simpl.
      by apply nativeAESGCMDecrypt_layout.
    + exact Hpt.
    + rewrite Hef. simpl. apply plaintext_of_canary.
    + exists ef, w1, (length (heap w1) + 2)%nat, w2.
      split; [done|]. split; [done|].
      destruct Hf2 as (-> & _).
      rewrite lookup_app_r by lia.
      replace (length (heap w1) + 2 - length (heap w1))%nat with 2%nat by lia.
      simpl. f_equal. apply plaintext_of_strip.
  - intros canary c w0 Hlen Hc.
    destruct (embed_spec data c canary w0 Hc Hlen) as (out & w1 & Hembed & -> & Hf1).
    assert (Hout : heap w1 !! length (heap w0) = Some (data ++ canary ++ padding_of canary)).
    { destruct Hf1 as (-> & _). apply lookup_snoc. }
    destruct (strip_spec _ _ w1 Hout) as (r & w2 & Hstrip & -> & Hf2).
    { rewrite !length_app, padding_of_length. lia. }
    exists (length (heap w0)), w1, (length (heap w1)), w2.
    split; [done|]. split; [done|].
    destruct Hf2 as (-> & _). rewrite lookup_snoc. f_equal.
    rewrite !length_app, padding_of_length, Hlen.
    replace (length data + (16 + 16) - 32)%nat with (length data) by lia.
    apply take_app_length.
Qed.

Lemma decrypt_encrypt_roundtrip_witness :
  ∃ ef w1 l w2,
    FragmentEngine.encryptFragment (P := Mock.primitives)
      (mkRaw 0 0 [x0a; x0b; x0c] 3) (replicate 32 x01) (replicate 32 x02) "ch42:0"
      Mock.world0 = (Ok ef, w1) ∧
    FragmentEngine.decryptFragment (P := Mock.primitives)
      ef (replicate 32 x01) (replicate 32 x02) "ch42:0" w1 = (Ok l, w2) ∧
    heap w2 !! l = Some [x0a; x0b; x0c].
Proof.
  apply (decrypt_encrypt_roundtrip Mock_laws [x0a; x0b; x0c] (replicate 32 x01)
           (replicate 32 x02) "ch42:0" 0 0 3 Mock.world0).
  reflexivity.
Defined.

(** ** C2: the order of the checks of [decryptFragment] *)

Lemma append_inj_r (p a b : string) : p +:+ a = p +:+ b → a = b.
Proof. induction p as [|c p IH]; simpl; [done|]. intros H. apply IH. by injection H. Qed.






(** ** VirtualDecryptor.buildProgram *)

Section program_properties.
Context `{P : Primitives} {L : PrimitivesLaws P}.

Lemma filter_splice (Q : ProgramStep → Prop) `{∀ x, Decision (Q x)} pos x steps :
  filter Q (splice pos x steps)
  = filter Q (take pos steps) ++ (if decide (Q x) then [x] else []) ++ filter Q (drop pos steps).
Proof.
  unfold splice. rewrite filter_app, filter_cons. by destruct (decide (Q x)).
Qed.

Lemma filter_splice_out (Q : ProgramStep → Prop) `{∀ x, Decision (Q x)} pos x steps :
  ¬ Q x → filter Q (splice pos x steps) = filter Q steps.
Proof.
  intros Hx. rewrite filter_splice. destruct (decide (Q x)); [done|].
  simpl. by rewrite <- filter_app, take_drop.
Qed.

Lemma occurrences_splice_same pos x steps :
  occurrences x (splice pos x steps) = S (occurrences x steps).
Proof.
  unfold occurrences. rewrite filter_splice. destruct (decide (x = x)); [|done].
  rewrite !length_app. simpl.
  rewrite <- (take_drop pos steps) at 3. rewrite filter_app, length_app. lia.
Qed.

Lemma inject_spec (count : nat) (step : ProgramStep) :
  ¬ is_real step →
  ∀ steps w,
    wp (VirtualDecryptor.inject count step steps) w
      (λ steps' w',
         filter is_real steps' = filter is_real steps ∧
         occurrences step steps' = (occurrences step steps + count)%nat ∧
         (∀ other, other ≠ step → occurrences other steps' = occurrences other steps) ∧
         framed w (heap w) (trace w) w').
Proof.
  intros Hnoise. induction count as [|count IH]; intros steps w; simpl.
  - apply wp_ret. split; [done|]. split; [lia|]. split; [done|]. apply framed_refl.
  - wp_step wp_random. intros u w1 Hf1.
    wp_last IH. intros steps' w2 (Hreal & Hocc & Hother & Hf2).
    split; [|split; [|split]].
    + rewrite Hreal. by apply filter_splice_out.
    + rewrite Hocc, occurrences_splice_same. lia.
    + intros other Hne. rewrite (Hother other Hne).
      unfold occurrences. by rewrite filter_splice_out.
    + framed_solve.
Qed.

Lemma buildProgram_spec (index : Z) (entropy : RuntimeEntropyBundle) (w : World) :
  wp (VirtualDecryptor.buildProgram index entropy) w
    (λ program w',
       filter is_real (orderedSteps program) = VirtualDecryptor.real ∧
       (2 ≤ occurrences DECOY_INJECT (orderedSteps program) ≤ 4)%nat ∧
       (1 ≤ occurrences DUMMY_SPIN (orderedSteps program) ≤ 3)%nat ∧
       fragmentIndex program = index ∧
       entropyBundle program = entropy).
Proof.
  unfold VirtualDecryptor.buildProgram.
  wp_step wp_random. intros u w1 Hf1.
  wp_step (inject_spec (Z.to_nat (2 + floor_mul u 3)) DECOY_INJECT).
  { unfold is_real. tauto. }
  intros steps1 w2 (Hreal1 & Hocc1 & Hother1 & Hf2).
  wp_step wp_random. intros u' w3 Hf3.
  wp_step (inject_spec (Z.to_nat (1 + floor_mul u' 3)) DUMMY_SPIN).
  { unfold is_real. tauto. }
  intros steps2 w4 (Hreal2 & Hocc2 & Hother2 & Hf4).
  apply wp_ret.
  pose proof (floor_mul_range u 3 ltac:(lia)) as Hu.
  pose proof (floor_mul_range u' 3 ltac:(lia)) as Hu'.
  simpl. split; [by rewrite Hreal2, Hreal1|].
  split; [|split; [|done]].
  - rewrite (Hother2 DECOY_INJECT) by done. rewrite Hocc1.
    change (occurrences DECOY_INJECT VirtualDecryptor.real) with 0%nat. lia.
  - rewrite Hocc2. rewrite (Hother1 DUMMY_SPIN) by done.
    change (occurrences DUMMY_SPIN VirtualDecryptor.real) with 0%nat. lia.
Qed.
(** *** VirtualDecryptor.execute *)


Lemma always_ok_bind (m k : M unit) : always_ok m → always_ok k → always_ok (m ;; k).
Proof.
  intros Hm Hk w. destruct (Hm w) as (w1 & Hrun). destruct (Hk w1) as (w2 & Hrun2).
  exists w2. by rewrite (bind_ok _ _ _ _ _ Hrun).
Qed.

Lemma draws_ok (n : nat) : always_ok (DecoyCrypto.draws n).
Proof.
  induction n as [|n IH]; intros w; simpl; [by eexists|].
  destruct (IH (set_js_draws S w)) as (w' & Hrun). exists w'.
  unfold bind, Math_random. by rewrite Hrun.
Qed.

Lemma runSync_ok : always_ok DecoyCrypto.runSync.
Proof.
  intros w. unfold DecoyCrypto.runSync.
  destruct (draws_ok (Z.to_nat (48 + floor_mul (math_random (env w) (js_draws w)) 112))
              (set_js_draws S (set_trace (λ t, t ++ [EvDecoySync]) w))) as (w' & Hrun).
  exists w'. unfold bind, log, modify, Math_random. simpl. by rewrite Hrun.
Qed.

Lemma ops_ok (count : nat) : always_ok (DecoyCrypto.ops count).
Proof.
  induction count as [|count IH]; intros w; simpl; [by eexists|].
  apply always_ok_bind; [|done]. intros w0. by eexists.
Qed.

Lemma run_ok (count : nat) : always_ok (DecoyCrypto.run count).
Proof.
  unfold DecoyCrypto.run. apply always_ok_bind; [|apply ops_ok].
  intros w. by eexists.
Qed.

Lemma preflight_ok : always_ok preflight.
Proof. apply always_ok_bind; [apply runSync_ok|apply run_ok]. Qed.

Section with_call.
Variables (program : VirtualProgram) (ef : EncryptedFragment)
          (keys : ChapterKeyBundle) (imageId : string).

Let steps_from := VirtualDecryptor.exec_steps program ef keys imageId.
Let step_from := VirtualDecryptor.exec_step program ef keys imageId.

Lemma execute_unfold (w : World) :
  ∃ w1, preflight w = (Ok tt, w1) ∧
    VirtualDecryptor.execute program ef keys imageId w
    = match steps_from (VirtualDecryptor.mkLocals None None None)
              (orderedSteps program) w1 with
      | (Throw e, w2) => (Throw e, w2)
      | (Ok st, w2) =>
          match DecoyCrypto.runSync w2 with
          | (Throw e, w3) => (Throw e, w3)
          | (Ok _, w3) =>
              match VirtualDecryptor.mutatedResult st with
              | None =>
                  (Throw (Error "VirtualDecryptor: program terminated without DISPLAY_MUTATE completing"), w3)
              | Some m => (Ok m, w3)
              end
          end
      end.
Proof.
  destruct (preflight_ok w) as (w1 & Hpre). exists w1. split; [done|].
  unfold preflight, bind in Hpre. unfold VirtualDecryptor.execute, bind.
  destruct (DecoyCrypto.runSync w) as [[u|e] wa]; [destruct u|done].
  destruct (DecoyCrypto.run 1 wa) as [[u|e] wb]; [destruct u|done].
  inversion Hpre; subst wb. unfold steps_from.
  destruct (VirtualDecryptor.exec_steps _ _ _ _ _ _ w1) as [[st|e] w2]; [|done].
  destruct (DecoyCrypto.runSync w2) as [[u|e] w3]; [destruct u|done].
  by destruct (VirtualDecryptor.mutatedResult st).
Qed.

Lemma exec_step_harmless (s : ProgramStep) (st : VirtualDecryptor.Locals) (w : World) :
  harmless s → ∃ w', step_from st s w = (Ok st, w').
Proof.
  intros [-> | [-> | ->]]; unfold step_from; simpl.
  - by eexists.
  - destruct (run_ok 1 w) as (w' & Hrun). exists w'.
    by rewrite (bind_ok _ _ _ _ _ Hrun).
  - by eexists.
Qed.

Lemma exec_steps_harmless (pre : list ProgramStep) :
  Forall harmless pre →
  ∀ rest st w, ∃ w', steps_from st (pre ++ rest) w = steps_from st rest w'.
Proof.
  induction 1 as [|s pre Hs Hpre IH]; intros rest st w; simpl; [by eexists|].
  destruct (exec_step_harmless s st w Hs) as (w1 & Hrun).
  destruct (IH rest st w1) as (w2 & Hrest). exists w2.
  unfold steps_from in *. simpl. unfold step_from in Hrun.
  by rewrite (bind_ok _ _ _ _ _ Hrun).
Qed.

(** A failure of the decryption reaches the caller of [execute] as it is. *)
Lemma execute_propagates (e : Exn) (w : World) :
  decrypt_first (orderedSteps program) →
  (∀ w0, ∃ w0', FragmentEngine.decryptFragment ef (chapterRootKey keys) (hmacKey keys)
                 imageId w0 = (Throw e, w0')) →
  ∃ w', VirtualDecryptor.execute program ef keys imageId w = (Throw e, w').
Proof.
  intros (pre & post & Hsteps & Hpre) Hfail.
  destruct (execute_unfold w) as (w1 & _ & ->). rewrite Hsteps.
  destruct (exec_steps_harmless pre Hpre (REAL_DECRYPT :: post)
              (VirtualDecryptor.mkLocals None None None) w1) as (w2 & ->).
  destruct (Hfail w2) as (w3 & Hthrow).
  exists w3. unfold steps_from. simpl.
  by rewrite (bind_throw _ _ _ _ _ (bind_throw _ _ _ _ _ Hthrow)).
Qed.

Lemma exec_step_mutated (s : ProgramStep) (st st' : VirtualDecryptor.Locals)
    (w w' : World) :
  s ≠ DISPLAY_MUTATE → step_from st s w = (Ok st', w') →
  VirtualDecryptor.mutatedResult st' = VirtualDecryptor.mutatedResult st.
Proof.
  intros Hs. unfold step_from. destruct s; simpl; try done.
  - by inversion 1.
  - unfold bind. destruct (FragmentEngine.decryptFragment _ _ _ _ _) as [[l|e] w1];
      by inversion 1.
  - destruct (VirtualDecryptor.rawDecrypted st); by inversion 1.
  - destruct (VirtualDecryptor.rawDecrypted st); [|by inversion 1].
    unfold bind. destruct (EphemeralKeyService.deriveEphemeralKey _ _ _) as [[l|e] w1];
      by inversion 1.
  - unfold bind. destruct (DecoyCrypto.run 1 w) as [[u|e] w1]; by inversion 1.
  - by inversion 1.
Qed.

Lemma exec_steps_mutated (steps : list ProgramStep) :
  ∀ st st' w w' m,
    steps_from st steps w = (Ok st', w') →
    VirtualDecryptor.mutatedResult st' = Some m →
    VirtualDecryptor.mutatedResult st = Some m ∨ DISPLAY_MUTATE ∈ steps.
Proof.
  induction steps as [|s steps IH]; intros st st' w w' m Hrun Hm.
  - inversion Hrun; subst. by left.
  - unfold steps_from in Hrun. simpl in Hrun. unfold bind in Hrun.
    destruct (VirtualDecryptor.exec_step program ef keys imageId st s w)
      as [[st1|e] w1] eqn:Hstep; [|done].
    destruct (decide (s = DISPLAY_MUTATE)) as [->|Hne].
    + right. apply list_elem_of_here.
    + destruct (IH st1 st' w1 w' m Hrun Hm) as [H1|Hin].
      * left. by rewrite <- (exec_step_mutated s st st1 w w1 Hne Hstep).
      * right. by apply list_elem_of_further.
Qed.

(** [execute] hands back bytes only when a DISPLAY_MUTATE step ran. *)
Lemma execute_ok_mutated (w w' : World) (l : loc) :
  VirtualDecryptor.execute program ef keys imageId w = (Ok l, w') →
  DISPLAY_MUTATE ∈ orderedSteps program.
Proof.
  destruct (execute_unfold w) as (w1 & _ & ->).
  destruct (steps_from _ _ w1) as [[st|e] w2] eqn:Hrun; [|done].
  destruct (DecoyCrypto.runSync w2) as [[u|e] w3]; [destruct u|done].
  destruct (VirtualDecryptor.mutatedResult st) as [m|] eqn:Hm; [|done].
  intros _. by destruct (exec_steps_mutated _ _ _ _ _ _ Hrun Hm).
Qed.
End with_call.

Lemma filter_eq_cons_split (Q : ProgramStep → Prop) `{∀ x, Decision (Q x)}
    (steps : list ProgramStep) (x : ProgramStep) (tl : list ProgramStep) :
  filter Q steps = x :: tl →
  ∃ pre post, steps = pre ++ x :: post ∧ Forall (λ s, ¬ Q s) pre ∧ filter Q post = tl.
Proof.
  induction steps as [|s steps IH]; [done|].
  rewrite filter_cons. destruct (decide (Q s)) as [Hs|Hs].
  - intros Heq. inversion Heq; subst. by exists [], steps.
  - intros Heq. destruct (IH Heq) as (pre & post & -> & Hpre & Hpost).
    exists (s :: pre), post. split; [done|]. split; [by constructor|done].
Qed.

Lemma built_decrypt_first (steps : list ProgramStep) :
  filter is_real steps = VirtualDecryptor.real → decrypt_first steps.
Proof.
  intros Hreal.
  destruct (filter_eq_cons_split is_real steps _ _ Hreal) as (pre & rest & -> & Hpre & Hrest).
  destruct (filter_eq_cons_split is_real rest _ _ Hrest) as (mid & post & -> & Hmid & _).
  exists (pre ++ HMAC_VERIFY :: mid), post. split; [by rewrite <- app_assoc|].
  assert (Hnoise : ∀ l, Forall (λ s, ¬ is_real s) l → Forall harmless l).
  { intros l Hl. eapply Forall_impl; [exact Hl|].
    intros s Hs. unfold is_real in Hs. unfold harmless.
    destruct s; first [by left | by right; left | by right; right
                      | exfalso; apply Hs; by split]. }
  apply Forall_app. split; [by apply Hnoise|].
  constructor; [by left|by apply Hnoise].
Qed.
End program_properties.

(** ** C7: the randomized program and its execution *)

(** C7, as stated, fails: a program whose DISPLAY_MUTATE step cannot
    complete because nothing was decrypted ends with the error of that step,
    and a program built by [buildProgram] that is run on a record with a wrong
    HMAC ends with the HMAC error of [decryptFragment]. Neither error is
    ProgramIncomplete. *)
Lemma execute_not_ProgramIncomplete :
  (∃ w',
     VirtualDecryptor.execute (P := Mock.primitives)
       (mkProgram [DISPLAY_MUTATE] 0 Mock.bundle0) Mock.tampered Mock.keys0 "ch42:0"
       Mock.world0
     = (Throw (Error "DISPLAY_MUTATE: prerequisites not met"), w')) ∧
  kind_of (Error "DISPLAY_MUTATE: prerequisites not met") ≠ Some ProgramIncomplete ∧
  (∃ program w1 w',
     VirtualDecryptor.buildProgram 0 Mock.bundle0 Mock.world0 = (Ok program, w1) ∧
     VirtualDecryptor.execute (P := Mock.primitives)
       program Mock.tampered Mock.keys0 "ch42:0" w1
     = (Throw (Error "HMAC mismatch on fragment 0 of ch42:0"), w')) ∧
  kind_of (Error "HMAC mismatch on fragment 0 of ch42:0") ≠ Some ProgramIncomplete.
Proof.
  split; [|split; [|split]].
  - eexists. vm_compute. reflexivity.
  - vm_compute. discriminate.
  - eexists _, _, _. split; [vm_compute; reflexivity|]. vm_compute. reflexivity.
  - vm_compute. discriminate.
Qed.

(** C7, amended. For every sequence of random draws [buildProgram] returns a
    step list in which HMAC_VERIFY, REAL_DECRYPT, CANARY_CHECK,
    EPHEMERAL_DERIVE and DISPLAY_MUTATE occur once each and in that order,
    with 2 to 4 DECOY_INJECT and 1 to 3 DUMMY_SPIN steps among them.
    [execute] returns bytes only for a program that contains a
    DISPLAY_MUTATE step. When its loop ends without a mutated result it
    fails with ProgramIncomplete. When a step throws, [execute] fails with
    the error of that step: in particular, on a program whose first
    effective step is the decryption, a record with a wrong HMAC makes
    [execute] fail with IntegrityFail. *)
Theorem program_shape_and_outcome `{P : Primitives} (L : PrimitivesLaws P)
    (index : Z) (entropy : RuntimeEntropyBundle) (w : World)
    (program : VirtualProgram) (ef : EncryptedFragment) (keys : ChapterKeyBundle)
    (imageId : string) (w0 : World) :
  (∃ built w',
     VirtualDecryptor.buildProgram index entropy w = (Ok built, w') ∧
     filter is_real (orderedSteps built)
       = [HMAC_VERIFY; REAL_DECRYPT; CANARY_CHECK; EPHEMERAL_DERIVE; DISPLAY_MUTATE] ∧
     (2 ≤ occurrences DECOY_INJECT (orderedSteps built) ≤ 4)%nat ∧
     (1 ≤ occurrences DUMMY_SPIN (orderedSteps built) ≤ 3)%nat ∧
     decrypt_first (orderedSteps built)) ∧
  (∀ l w', VirtualDecryptor.execute program ef keys imageId w0 = (Ok l, w') →
     DISPLAY_MUTATE ∈ orderedSteps program) ∧
  (∃ w1, preflight w0 = (Ok tt, w1) ∧
     (∀ st w2,
        VirtualDecryptor.exec_steps program ef keys imageId
          (VirtualDecryptor.mkLocals None None None) (orderedSteps program) w1 = (Ok st, w2) →
        VirtualDecryptor.mutatedResult st = None →
        ∃ e w3, VirtualDecryptor.execute program ef keys imageId w0 = (Throw e, w3) ∧
                kind_of e = Some ProgramIncomplete) ∧
     (∀ e w2,
        VirtualDecryptor.exec_steps program ef keys imageId
          (VirtualDecryptor.mkLocals None None None) (orderedSteps program) w1 = (Throw e, w2) →
        VirtualDecryptor.execute program ef keys imageId w0 = (Throw e, w2))) ∧
  (decrypt_first (orderedSteps program) → ¬ hmac_matches (hmacKey keys) ef →
   ∃ e w', VirtualDecryptor.execute program ef keys imageId w0 = (Throw e, w') ∧
           kind_of e = Some IntegrityFail).
Proof.
  split; [|split; [|split]].
  - destruct (buildProgram_spec index entropy w)
      as (built & w' & Hrun & Hreal & Hdecoy & Hdummy & _).
    exists built, w'. split; [done|]. split; [done|]. split; [done|]. split; [done|].
    by apply built_decrypt_first.
  - intros l w' Hrun. by eapply execute_ok_mutated.
  - destruct (execute_unfold program ef keys imageId w0) as (w1 & Hpre & Hexec).
    exists w1. split; [done|]. split.
    + intros st w2 Hrun Hnone. rewrite Hexec, Hrun, Hnone.
      destruct (runSync_ok w2) as (w3 & ->). by eexists _, _.
    + intros e w2 Hrun. by rewrite Hexec, Hrun.
  - intros Hfirst Hmac.
    destruct (execute_propagates program ef keys imageId
                (Error ("HMAC mismatch on fragment " +:+ pretty (ef_index ef)
                          +:+ " of " +:+ imageId)) w0 Hfirst) as (w' & Hrun).
    + intros w1.
      destruct (decryptFragment_integrity_fail ef (chapterRootKey keys) (hmacKey keys)
                  imageId w1 Hmac) as (e & w1' & Hthrow & -> & _).
      by exists w1'.
    + by eexists _, w'.
Qed.

Lemma program_shape_and_outcome_witness :
  ∃ e w',
    VirtualDecryptor.execute (P := Mock.primitives)
      (mkProgram VirtualDecryptor.real 0 Mock.bundle0) Mock.tampered Mock.keys0 "ch42:0"
      Mock.world0 = (Throw e, w') ∧
    kind_of e = Some IntegrityFail.
Proof.
  destruct (program_shape_and_outcome Mock_laws 0 Mock.bundle0 Mock.world0
              (mkProgram VirtualDecryptor.real 0 Mock.bundle0) Mock.tampered Mock.keys0
              "ch42:0" Mock.world0) as (_ & _ & _ & Hfail).
  apply Hfail.
  - exists [HMAC_VERIFY], [CANARY_CHECK; EPHEMERAL_DERIVE; DISPLAY_MUTATE].
    split; [reflexivity|]. repeat constructor.
  - unfold hmac_matches. vm_compute. discriminate.
Defined.

(** ** C8: random bytes *)

Lemma toInt_small (n : Z) : -2147483648 ≤ n ≤ 2147483647 → NativeCrypto.toInt n = n.
Proof. unfold NativeCrypto.toInt. lia. Qed.

(** C8. For every integer [n] with [n ≤ 0] or [n > 4096] the request is
    rejected with an error: no array is created and no byte of the entropy
    stream is consumed. For every [n] with [1 ≤ n ≤ 4096], when the entropy
    source does not fail, the call returns an array of exactly [n] bytes. *)
Theorem randomBytes_bounds `{P : Primitives} (L : PrimitivesLaws P) (n : Z) (w : World) :
  (n ≤ 0 ∨ 4096 < n →
   ∃ w', CryptoEngine.randomBytes n w = (Throw (Rejected "RAND_FAILED" "RNG returned null"), w') ∧
         heap w' = heap w ∧ rng_pos w' = rng_pos w) ∧
  (1 ≤ n ≤ 4096 → entropy_fails (env w) (rng_pos w) = false →
   ∃ l w' bs, CryptoEngine.randomBytes n w = (Ok l, w') ∧
              heap w' !! l = Some bs ∧ Z.of_nat (length bs) = n ∧
              heap w !! l = None).
Proof.
  split.
  - intros Hn. eexists.
    unfold CryptoEngine.randomBytes, NativeCrypto.randomBytes, crypto_core.nativeRandomBytes.
    unfold bind at 1. unfold bind at 1. unfold log, modify. simpl.
    assert (Hout : (NativeCrypto.toInt n <=? 0) || (4096 <? NativeCrypto.toInt n) = true).
    { unfold NativeCrypto.toInt. apply orb_true_iff.
      destruct Hn; [left; apply Z.leb_le|right; apply Z.ltb_lt]; lia. }
    unfold bind. rewrite Hout. simpl. done.
  - intros Hn Hok.
    unfold CryptoEngine.randomBytes, NativeCrypto.randomBytes, crypto_core.nativeRandomBytes.
    rewrite toInt_small by lia.
    assert (Hin : (n <=? 0) || (4096 <? n) = false).
    { apply orb_false_iff. split; [apply Z.leb_gt|apply Z.ltb_ge]; lia. }
    rewrite Hin.
    unfold bind, log, modify, get_world, take_entropy, alloc, ret. simpl.
    rewrite Hok. simpl. eexists _, _, _. split; [reflexivity|]. simpl.
    split; [apply lookup_snoc|].
    rewrite Buffer_from_base64_encode, length_map, length_seq.
    split; [lia|]. apply lookup_ge_None_2. lia.
Qed.

Lemma randomBytes_bounds_witness :
  ∃ l w' bs,
    CryptoEngine.randomBytes (P := Mock.primitives) 16 Mock.world0 = (Ok l, w') ∧
    heap w' !! l = Some bs ∧ Z.of_nat (length bs) = 16 ∧ heap Mock.world0 !! l = None.
Proof.
  apply (randomBytes_bounds Mock_laws 16 Mock.world0); [lia|reflexivity].
Defined.

(** ** C9: the throttle of the detector *)







(** ** C10: the entropy bundle without a session salt *)

Lemma writeBigInt64LE_ok (v : Z) (w : World) :
  in_int64 v → writeBigInt64LE v w = (Ok (le_bytes 8 v), w).
Proof.
  intros [Hlo Hhi]. unfold writeBigInt64LE.
  destruct (Z.leb_spec (- 2 ^ 63) v); [|lia].
  destruct (Z.ltb_spec v (2 ^ 63)); [done|lia].
Qed.

(** C10. When no session salt exists, [buildBundle] returns normally and
    leaves the world as it is: nothing is drawn from the entropy stream. The
    [memorySalt] of the bundle is 16 zero bytes, and the ephemeral key
    derived from the bundle is the HKDF output for the chapter root key and
    the serialization of the four counters followed by 16 zero bytes: a
    function of the four counters and the key alone. *)
Theorem buildBundle_without_salt `{P : Primitives} (L : PrimitivesLaws P)
    (frames : Z) (velocity : Q) (chunk boot : Z)
    (chapterRootKey : bytes) (w : World) :
  eks_memorySalt w = None →
  EphemeralKeyService.buildBundle frames velocity chunk boot w
  = (Ok (mkBundle boot frames velocity chunk (zeros 16)), w) ∧
  (in_int64 boot → in_int64 frames →
   in_int64 (Math_round (velocity * 1000)%Q) → in_int64 chunk →
   ∀ w0, ∃ l w',
     EphemeralKeyService.deriveEphemeralKey chapterRootKey
       (mkBundle boot frames velocity chunk (zeros 16)) w0 = (Ok l, w') ∧
     heap w' !! l
     = Some (crypto_core.nativeHKDF chapterRootKey
               (le_bytes 8 boot ++ le_bytes 8 frames
                  ++ le_bytes 8 (Math_round (velocity * 1000)%Q)
                  ++ le_bytes 8 chunk ++ zeros 16)
               (utf8 "runtime-ephemeral") 32)).
Proof.
  intros Hnone. split.
  - unfold EphemeralKeyService.buildBundle, bind, get_world. by rewrite Hnone.
  - intros Hb Hf Hv Hc w0.
    unfold EphemeralKeyService.deriveEphemeralKey, EphemeralKeyService.serialize.
    cbn [bootTime frameCounter scrollVelocity chunkIndex memorySalt].
    set (blob := le_bytes 8 boot ++ _).
    assert (Hser :
      (b0 <- writeBigInt64LE boot ;;
       b1 <- writeBigInt64LE frames ;;
       b2 <- writeBigInt64LE (Math_round (velocity * 1000)%Q) ;;
       b3 <- writeBigInt64LE chunk ;;
       ret (b0 ++ b1 ++ b2 ++ b3 ++ zeros 16)) w0 = (Ok blob, w0)).
    { unfold bind. by rewrite !writeBigInt64LE_ok. }
    rewrite (bind_ok _ _ _ _ _ Hser).
    assert (Hwp : wp
      (buf <- alloc blob ;;
       write buf (replicate (length blob) x00) ;;
       b64 <- NativeCrypto.hkdf (base64 chapterRootKey) (base64 blob)
                HKDF_INFO_LABELS.RUNTIME_EPHEMERAL EphemeralKeyService.KEY_LEN ;;
       alloc (Buffer_from_base64 b64)) w0
      (λ l w', heap w' !! l
               = Some (crypto_core.nativeHKDF chapterRootKey blob
                         (utf8 "runtime-ephemeral") 32))).
    { wp_step wp_alloc. intros buf w1 (-> & Hf1).
      wp_step wp_write. intros ? w2 Hf2.
      wp_step hkdf_spec. intros b64 w3 (-> & Hf3).
      wp_last wp_alloc. intros l w4 (-> & Hf4).
      rewrite Buffer_from_base64_encode in Hf4.
      destruct Hf4 as (-> & _). apply lookup_snoc. }
    destruct Hwp as (l & w' & Hrun & Hl). by exists l, w'.
Qed.

Lemma buildBundle_without_salt_witness :
  EphemeralKeyService.buildBundle 7 0%Q 0 1700000000000 Mock.world0
  = (Ok (mkBundle 1700000000000 7 0%Q 0 (zeros 16)), Mock.world0).
Proof.
  apply (buildBundle_without_salt Mock_laws 7 0%Q 0 1700000000000 [] Mock.world0).
  reflexivity.
Defined.

(** ** C5: the violation handler *)

Lemma wipe_any (buf : option loc) (w : World) :
  wp (MemoryWiper.wipeUint8Array buf) w
    (λ _ w', framed w (wiped buf (heap w)) (trace w) w').
Proof.
  destruct buf as [l|]; simpl.
  - destruct (heap w !! l) as [old|] eqn:Hl.
    + by apply wipe_spec.
    + unfold MemoryWiper.wipeUint8Array.
      wp_step wp_read. intros c w1 (-> & ->). rewrite Hl. simpl.
      apply wp_ret. apply framed_refl.
  - apply wp_ret. apply framed_refl.
Qed.

Lemma wiped_lookup (l : loc) (h : list bytes) (old : bytes) :
  h !! l = Some old → wiped (Some l) h !! l = Some (zeros (length old)).
Proof.
  intros Hl. unfold wiped. rewrite Hl.
  apply list_lookup_insert_eq. by eapply lookup_lt_Some.
Qed.

Lemma wiped_zeros (buf : option loc) (h : list bytes) (l : loc) (n : nat) :
  h !! l = Some (zeros n) → wiped buf h !! l = Some (zeros n).
Proof.
  intros Hl. destruct buf as [k|]; simpl; [|done].
  destruct (h !! k) as [old|] eqn:Hk; [|done].
  destruct (decide (k = l)) as [->|Hne].
  - rewrite Hl in Hk. inversion Hk; subst old.
    rewrite list_lookup_insert_eq by (by eapply lookup_lt_Some).
    unfold zeros. by rewrite length_replicate.
  - by rewrite list_lookup_insert_ne.
Qed.

Lemma wiped_length (buf : option loc) (h : list bytes) (l : loc) (old : bytes) :
  h !! l = Some old → ∃ new, wiped buf h !! l = Some new ∧ length new = length old.
Proof.
  intros Hl. destruct buf as [k|]; simpl; [|by eexists].
  destruct (h !! k) as [old'|] eqn:Hk; [|by eexists].
  destruct (decide (k = l)) as [->|Hne].
  - rewrite Hl in Hk. inversion Hk; subst old'.
    rewrite list_lookup_insert_eq by (by eapply lookup_lt_Some).
    eexists. split; [done|]. unfold zeros. by rewrite length_replicate.
  - rewrite list_lookup_insert_ne by done. by eexists.
Qed.

Section violation.
Import CRYPTO_CONSTANTS.

Lemma deleteItemAsync_settled (key : string) (w : World) :
  settled (SecureStore.deleteItemAsync key) w
  = (Ok tt, set_secure_store (drop_entry (env w) key)
              (set_trace (λ t, t ++ [EvStoreDelete key]) w)).
Proof.
  unfold settled, SecureStore.deleteItemAsync, bind, log, modify, get_world, throw,
    drop_entry.
  simpl. by destruct (store_faulty (env w) key).
Qed.

Lemma destroyDeviceSalt_run (w : World) :
  ∃ w', settled RootKeyService.destroyDeviceSalt w = (Ok tt, w') ∧
    trace w' = trace w ++ [EvStoreDelete SECURE_STORE_DEVICE_SALT;
                           EvStoreDelete SECURE_STORE_USER_ID;
                           EvStoreDelete SECURE_STORE_ROTATION_TS] ∧
    secure_store w' = purged (env w) (secure_store w) ∧
    heap w' = heap w ∧ env w' = env w ∧
    violationInProgress w' = violationInProgress w ∧
    eks_memorySalt w' = eks_memorySalt w ∧ re_memorySalt w' = re_memorySalt w.
Proof.
  unfold RootKeyService.destroyDeviceSalt.
  eexists. split.
  - unfold settled at 1.
    rewrite (bind_ok _ _ _ _ _ (deleteItemAsync_settled _ _)).
    rewrite (bind_ok _ _ _ _ _ (deleteItemAsync_settled _ _)).
    rewrite deleteItemAsync_settled. reflexivity.
  - simpl. rewrite <- !app_assoc. by repeat split.
Qed.

Lemma wipeMemorySalt_run (w : World) :
  wp EphemeralKeyService.wipeMemorySalt w
    (λ _ w', ∃ wm, w' = set_eks_memorySalt None wm ∧
                   framed w (wiped (eks_memorySalt w) (heap w)) (trace w) wm).
Proof.
  unfold EphemeralKeyService.wipeMemorySalt.
  wp_step wp_get_world. intros v w0 (-> & ->).
  destruct (eks_memorySalt w) as [l|] eqn:Heks.
  - wp_step wipe_any. intros ? w1 Hf.
    exists tt, (set_eks_memorySalt None w1). split; [done|]. by exists w1.
  - apply wp_ret. exists w. split; [|apply framed_refl].
    destruct w; simpl in *. by subst.
Qed.

Lemma RuntimeEntropy_wipe_run (w : World) :
  wp RuntimeEntropy.wipe w
    (λ _ w',
       heap w' = wiped (eks_memorySalt w) (wiped (re_memorySalt w) (heap w)) ∧
       trace w' = trace w ∧ env w' = env w ∧ secure_store w' = secure_store w ∧
       files w' = files w ∧ violationInProgress w' = violationInProgress w ∧
       frida_lastCheck w' = frida_lastCheck w ∧
       eks_memorySalt w' = None ∧ re_memorySalt w' = None ∧
       re_frameCounter w' = 0 ∧ re_scrollVelocity w' = 0%Q ∧ re_bootTime w' = 0).
Proof.
  unfold RuntimeEntropy.wipe.
  wp_step wp_get_world. intros v w0 (-> & ->).
  eapply wp_bind.
  { instantiate (1 := λ _ w', ∃ wm, w' = set_re_memorySalt None wm ∧
                        framed w (wiped (re_memorySalt w) (heap w)) (trace w) wm).
    destruct (re_memorySalt w) as [l|] eqn:Hre.
    - wp_step wipe_any. intros ? w1 Hf.
      exists tt, (set_re_memorySalt None w1). split; [done|]. by exists w1.
    - apply wp_ret. exists w. split; [|apply framed_refl].
      destruct w; simpl in *. by subst. }
  cbv beta. intros ? w1 (wm & -> & Hh & Ht & Hs).
  wp_step wipeMemorySalt_run. intros ? w2 (wn & -> & Hh2 & Ht2 & Hs2).
  simpl in Hh2, Ht2.
  eexists _, _. split; [reflexivity|]. simpl.
  destruct Hs as (?&?&?&?&?&?&?&?&?&?&?), Hs2 as (?&?&?&?&?&?&?&?&?&?&?).
  simpl in *.
  repeat split; try congruence.
Qed.

Lemma handleViolation_first (reason : string) (now : Z) (w : World) :
  violationInProgress w = false →
  ∃ w', SecurityOrchestrator.handleViolation reason now w
        = (Throw (Error ("SECURITY_VIOLATION:" +:+ reason +:+ ":" +:+ pretty now)), w') ∧
    violationInProgress w' = true ∧
    trace w' = trace w ++ [EvStoreDelete SECURE_STORE_DEVICE_SALT;
                           EvStoreDelete SECURE_STORE_USER_ID;
                           EvStoreDelete SECURE_STORE_ROTATION_TS] ∧
    secure_store w' = purged (env w) (secure_store w) ∧
    heap w' = wiped None (wiped (re_memorySalt w) (wiped (eks_memorySalt w) (heap w))) ∧
    eks_memorySalt w' = None ∧ re_memorySalt w' = None ∧
    re_frameCounter w' = 0 ∧ re_scrollVelocity w' = 0%Q ∧ re_bootTime w' = 0.
Proof.
  intros Hflag. unfold SecurityOrchestrator.handleViolation.
  unfold bind at 1. unfold get_world. rewrite Hflag.
  unfold bind at 1. unfold modify.
  set (wa := set_violationInProgress true w).
  destruct (destroyDeviceSalt_run wa) as (wd & Hrun & Htr & Hst & Hh & Henv & Hfl & Hek & Hre).
  rewrite (bind_ok _ _ _ _ _ Hrun).
  destruct (wipeMemorySalt_run wd) as (u1 & w1 & Hrun1 & wm & -> & Hh1 & Ht1 & Hs1).
  rewrite (bind_ok _ _ _ _ _ Hrun1).
  destruct (RuntimeEntropy_wipe_run (set_eks_memorySalt None wm))
    as (u2 & w2 & Hrun2 & Hh2 & Ht2 & Henv2 & Hst2 & Hfi2 & Hfl2 & Hfr2 & Hek2 & Hre2 & Hc).
  rewrite (bind_ok _ _ _ _ _ Hrun2).
  exists w2. split; [done|].
  destruct Hs1 as (?&?&?&?&?&?&?&?&?&?&?). simpl in *.
  repeat split; try tauto; try congruence.
Qed.
End violation.

Lemma drop_entry_None (e : Env) (k key : string) (m : gmap string string) :
  m !! key = None → drop_entry e k m !! key = None.
Proof.
  intros Hm. unfold drop_entry. destruct (store_faulty e k); [done|].
  apply lookup_delete_None. by right.
Qed.

Lemma drop_entry_gone (e : Env) (k : string) (m : gmap string string) :
  store_faulty e k = false → drop_entry e k m !! k = None.
Proof.
  intros Hok. unfold drop_entry. rewrite Hok. apply lookup_delete_None. by left.
Qed.

(** C5, as stated, fails: the second invocation does not end with the error
    of the first one. The first throws the identifier with the reason and
    the time, the second throws the bare word. *)
Lemma handleViolation_second_error_differs :
  ∃ w1 w2,
    SecurityOrchestrator.handleViolation "frida:detected-at-boot" 1700000000000 Mock.world0
    = (Throw (Error "SECURITY_VIOLATION:frida:detected-at-boot:1700000000000"), w1) ∧
    SecurityOrchestrator.handleViolation "frida:detected-at-boot" 1700000000000 w1
    = (Throw (Error "SECURITY_VIOLATION"), w2) ∧
    Error "SECURITY_VIOLATION:frida:detected-at-boot:1700000000000"
    ≠ Error "SECURITY_VIOLATION".
Proof.
  eexists _, _. split; [vm_compute; reflexivity|].
  split; [vm_compute; reflexivity|]. discriminate.
Qed.

(** C5, amended. The first invocation of [handleViolation] sets the guard,
    attempts the deletion of the device salt, the user id and the rotation
    timestamp (every entry whose deletion is not rejected is gone), wipes
    the ephemeral memory salt and the runtime entropy (both salt buffers are
    left filled with zeros, both references are null, the counters are 0),
    whichever deletions fail, and throws
    [SECURITY_VIOLATION:<reason>:<epoch_ms>]. Every later invocation throws
    the fixed error [SECURITY_VIOLATION], without reason or time, and
    changes nothing: no destructive step runs again. *)
Theorem handleViolation_one_shot (reason : string) (now : Z) (w : World) :
  (violationInProgress w = false →
   ∃ w', SecurityOrchestrator.handleViolation reason now w
         = (Throw (Error ("SECURITY_VIOLATION:" +:+ reason +:+ ":" +:+ pretty now)), w') ∧
     trace w' = trace w ++ [EvStoreDelete "ls_dsalt_v1"; EvStoreDelete "ls_uid_v1";
                            EvStoreDelete "ls_rts_v1"] ∧
     (∀ key, key ∈ ["ls_dsalt_v1"; "ls_uid_v1"; "ls_rts_v1"] →
        store_faulty (env w) key = false → secure_store w' !! key = None) ∧
     (∀ l old, eks_memorySalt w = Some l ∨ re_memorySalt w = Some l →
        heap w !! l = Some old → heap w' !! l = Some (zeros (length old))) ∧
     eks_memorySalt w' = None ∧ re_memorySalt w' = None ∧
     re_frameCounter w' = 0 ∧ re_scrollVelocity w' = 0%Q ∧ re_bootTime w' = 0 ∧
     violationInProgress w' = true ∧
     (∀ reason' now', SecurityOrchestrator.handleViolation reason' now' w'
                      = (Throw (Error "SECURITY_VIOLATION"), w'))) ∧
  (violationInProgress w = true →
   SecurityOrchestrator.handleViolation reason now w = (Throw (Error "SECURITY_VIOLATION"), w)).
Proof.
  assert (Hlater : ∀ reason' now' w0, violationInProgress w0 = true →
            SecurityOrchestrator.handleViolation reason' now' w0
            = (Throw (Error "SECURITY_VIOLATION"), w0)).
  { intros reason' now' w0 Hflag.
    unfold SecurityOrchestrator.handleViolation, bind, get_world. by rewrite Hflag. }
  split; [|by apply Hlater].
  intros Hflag.
  destruct (handleViolation_first reason now w Hflag)
    as (w' & Hrun & Hguard & Htr & Hst & Hh & Hek & Hre & Hfc & Hsv & Hbt).
  exists w'. split; [done|]. split; [done|].
  split; [|split; [|by auto 10]].
  - intros key Hkey Hok. rewrite Hst. unfold purged.
    apply list_elem_of_In in Hkey. simpl in Hkey.
    destruct Hkey as [<- | [<- | [<- | []]]].
    + do 2 apply drop_entry_None. by apply drop_entry_gone.
    + apply drop_entry_None. by apply drop_entry_gone.
    + by apply drop_entry_gone.
  - intros l old Hsalt Hl. rewrite Hh. simpl.
    destruct Hsalt as [Heks|Hres].
    + apply wiped_zeros. rewrite Heks. by apply wiped_lookup.
    + destruct (wiped_length (eks_memorySalt w) (heap w) l old Hl) as (mid & Hmid & Hlen).
      rewrite Hres, <- Hlen. by apply wiped_lookup.
Qed.

Lemma handleViolation_one_shot_witness :
  ∃ w',
    SecurityOrchestrator.handleViolation "integrity:root" 1700000000000 Mock.world0
    = (Throw (Error "SECURITY_VIOLATION:integrity:root:1700000000000"), w') ∧
    violationInProgress w' = true.
Proof.
  destruct (proj1 (handleViolation_one_shot "integrity:root" 1700000000000 Mock.world0))
    as (w' & Hrun & _ & _ & _ & _ & _ & _ & _ & _ & Hguard & _).
  - reflexivity.
  - exists w'. split; [exact Hrun|exact Hguard].
Defined.

(** ** C3: the live buffer registry *)

Section registry.
Import useSecureChapter.

(** C3. Three calls of [loadPage] for the pages 0, 1 and 2 that are made
    back to back on a ready hook with an empty registry each pass the
    capacity check while the registry is still empty. When the three
    pipelines settle, each call inserts its buffer: the registry holds three
    buffers, and none of them has been wiped. *)
Theorem loadPage_race_exceeds_cap (page0 page1 page2 : bytes) (w : World) :
  ∃ h w',
    run
      [CallLoadPage 0; CallLoadPage 1; CallLoadPage 2;
       Settle 0 (Ok page0); Settle 1 (Ok page1); Settle 2 (Ok page2)]
      (mkHook true [] []) w = (Ok h, w') ∧
    liveBuffers h = [(0, length (heap w)); (1, S (length (heap w)));
                     (2, S (S (length (heap w))))]%nat ∧
    (CRYPTO_CONSTANTS.MAX_DECRYPTED_FRAGMENTS < length (liveBuffers h))%nat ∧
    heap w' = heap w ++ [page0; page1; page2].
Proof.
  eexists _, _. split; [reflexivity|]. cbn.
  rewrite !length_app. cbn. rewrite <- !app_assoc. cbn.
  replace (length (heap w) + 1 + 1)%nat with (S (S (length (heap w)))) by lia.
  replace (length (heap w) + 1)%nat with (S (length (heap w))) by lia.
  generalize (length (heap w)). intros n.
  by vm_compute.
Qed.
End registry.

(** ** C4: wrapped chapter keys *)

Lemma wp_try_finally {A} (body : M A) (fin : M unit) (w : World)
    (Q R : A → World → Prop) :
  wp body w Q → (∀ a w1, Q a w1 → wp fin w1 (λ _ w2, R a w2)) →
  wp (try_finally body fin) w R.
Proof.
  intros (a & w1 & Hbody & HQ) Hfin.
  destruct (Hfin a w1 HQ) as ([] & w2 & Hrun & HR).
  exists a, w2. split; [|done]. by apply (try_finally_ok _ _ _ w1).
Qed.

Section rotation_properties.
Context `{P : Primitives} {L : PrimitivesLaws P}.

Lemma wrapping_key_of_length (rootSecret : bytes) (chapterId : string) (v : Z) :
  length (wrapping_key_of rootSecret chapterId v) = 32%nat.
Proof. apply nativeHKDF_length. Qed.

Lemma deriveWrappingKey_spec (rootSecret : bytes) (chapterId : string) (v : Z) (w : World) :
  wp (KeyRotationService._deriveWrappingKey rootSecret chapterId v) w
    (λ l w', l = length (heap w) ∧
             framed w (heap w ++ [wrapping_key_of rootSecret chapterId v])
               (trace w ++ [EvNative "hkdf"]) w').
Proof.
  unfold KeyRotationService._deriveWrappingKey.
  wp_step hkdf_spec. intros b64 w1 (-> & Hf).
  wp_last wp_alloc. intros l w2 (-> & Hf2).
  rewrite Buffer_from_base64_encode in Hf2.
  unfold wrapping_key_of. split; [unframe; by heap_simpl|]. framed_solve.
Qed.

Lemma nativeAESGCMDecrypt_no_aad (key blob : bytes) :
  crypto_core.nativeAESGCMDecrypt key blob None
  = crypto_core.nativeAESGCMDecrypt key blob (Some []).
Proof. reflexivity. Qed.

(** The part of [wrapChapterKey] that follows the derivation of the
    wrapping key, for a wrapping key at [l]. *)
Lemma wrap_with_key (key k : bytes) (l : loc) (v now : Z) (w : World) :
  length key = 32%nat → heap w !! l = Some key →
  wp (try_finally
        (let keyB64 := base64 k in
         wk <- read l ;;
         let encB64 := base64 wk in
         wrappedB64 <- NativeCrypto.aesGCMEncrypt encB64 keyB64 None ;;
         ret (mkWrapped wrappedB64 now v))
        (MemoryWiper.wipeUint8Array (Some l))) w
    (λ wk w', version wk = v ∧ rotationTimestamp wk = now ∧
              (∃ blob, Base64_decode (wrappedB64 wk) = Some blob ∧
                       crypto_core.nativeAESGCMDecrypt key blob None = Some k) ∧
              framed w (<[l := zeros 32]> (heap w))
                (trace w ++ [EvNative "aesGCMEncrypt"]) w').
Proof.
  intros Hlen Hl.
  eapply wp_try_finally.
  - cbv zeta. wp_step wp_read. intros c w2 (-> & ->). rewrite Hl.
    change (default [] (Some key)) with key.
    wp_step (aesGCMEncrypt_spec key k None w Hlen).
    intros data w3 ((iv & Hiv & ->) & Hf3).
    apply wp_ret.
    instantiate (1 := λ wk w', version wk = v ∧ rotationTimestamp wk = now ∧
                   (∃ blob, Base64_decode (wrappedB64 wk) = Some blob ∧
                            crypto_core.nativeAESGCMDecrypt key blob None = Some k) ∧
                   framed w (heap w) (trace w ++ [EvNative "aesGCMEncrypt"]) w').
    cbv beta. split; [done|]. split; [done|]. split; [|done].
    eexists. split; [apply Base64_decode_encode|].
    rewrite nativeAESGCMDecrypt_no_aad.
    apply (nativeAESGCMDecrypt_layout key iv [] k Hlen Hiv).
  - intros wk w2 (Hv & Ht & Hopen & Hf2). cbv beta.
    assert (Hl2 : heap w2 !! l = Some key).
    { destruct Hf2 as (-> & _). done. }
    wp_last (wipe_spec l w2 key Hl2). intros ? w3 Hf3.
    split; [done|]. split; [done|]. split; [done|].
    unframe. split; [|split].
    + heap_simpl. by rewrite Hlen.
    + by heap_simpl.
    + eauto 10 using same_state_trans.
Qed.

(** [wrapChapterKey] returns an envelope of the version asked for that
    opens to the key; the wrapping key is left on the heap as zeros. *)
Lemma wrapChapterKey_spec (k rootSecret : bytes) (chapterId : string) (v now : Z)
    (w : World) :
  wp (KeyRotationService.wrapChapterKey k rootSecret chapterId v now) w
    (λ wk w', version wk = v ∧ rotationTimestamp wk = now ∧
              opens_to rootSecret chapterId wk k ∧
              framed w (heap w ++ [zeros 32])
                (trace w ++ [EvNative "hkdf"; EvNative "aesGCMEncrypt"]) w').
Proof.
  unfold KeyRotationService.wrapChapterKey.
  wp_step deriveWrappingKey_spec. intros l w1 (-> & Hf1).
  pose proof (wrapping_key_of_length rootSecret chapterId v) as Hlen.
  assert (Hl : heap w1 !! length (heap w) = Some (wrapping_key_of rootSecret chapterId v)).
  { destruct Hf1 as (-> & _). apply lookup_snoc. }
  wp_last (wrap_with_key _ k _ v now w1 Hlen Hl).
  intros wk w2 (Hv & Ht & Hopen & Hf2).
  split; [done|]. split; [done|]. split.
  - unfold opens_to. by rewrite Hv.
  - unframe. split; [|split].
    + heap_simpl. by rewrite insert_snoc.
    + heap_simpl. by rewrite <- app_assoc.
    + eauto 10 using same_state_trans.
Qed.

(** The part of [unwrapChapterKey] that follows the derivation of the
    wrapping key, for a wrapping key at [l]. *)
Lemma unwrap_with_key (key blob k : bytes) (text : string) (l : loc) (w : World) :
  heap w !! l = Some key → Base64_decode text = Some blob →
  crypto_core.nativeAESGCMDecrypt key blob None = Some k → k ≠ [] →
  wp (try_finally
        (wk <- read l ;;
         let encB64 := base64 wk in
         ptB64 <- NativeCrypto.aesGCMDecrypt encB64 text None ;;
         if String.eqb ptB64 EmptyString
         then throw (Error "Failed to unwrap chapter key — possible version mismatch")
         else alloc (Buffer_from_base64 ptB64))
        (MemoryWiper.wipeUint8Array (Some l))) w
    (λ r w', r = length (heap w) ∧
             framed w (<[l := zeros (length key)]> (heap w) ++ [k])
               (trace w ++ [EvNative "aesGCMDecrypt"]) w').
Proof.
  intros Hl Hblob Hdec Hk.
  eapply wp_try_finally.
  - wp_step wp_read. intros c w2 (-> & ->). rewrite Hl.
    change (default [] (Some key)) with key. cbv zeta.
    wp_step (aesGCMDecrypt_ok key text None blob k w Hblob Hdec).
    intros ptB64 w3 (-> & Hf3).
    destruct (String.eqb_spec (base64 k) EmptyString) as [Hempty|_].
    { by apply base64_nonempty in Hempty. }
    wp_last wp_alloc. intros r w4 (-> & Hf4).
    rewrite Buffer_from_base64_encode in Hf4.
    instantiate (1 := λ r w', r = length (heap w) ∧
                   framed w (heap w ++ [k]) (trace w ++ [EvNative "aesGCMDecrypt"]) w').
    cbv beta. unframe. split; [|split; [|split]].
    + by heap_simpl.
    + by heap_simpl.
    + by heap_simpl.
    + eauto 10 using same_state_trans.
  - intros r w2 (-> & Hf2). cbv beta.
    assert (Hl2 : heap w2 !! l = Some key).
    { destruct Hf2 as (-> & _). by apply lookup_app_l_Some. }
    wp_last (wipe_spec l w2 key Hl2). intros ? w3 Hf3.
    split; [done|].
    unframe. split; [|split].
    + heap_simpl. apply insert_app_l. by eapply lookup_lt_Some.
    + by heap_simpl.
    + eauto 10 using same_state_trans.
Qed.

(** [unwrapChapterKey] on an envelope that opens to a key that is not
    empty returns a fresh array with the key. *)
Lemma unwrapChapterKey_spec (wk : WrappedChapterKey) (k rootSecret : bytes)
    (chapterId : string) (w : World) :
  opens_to rootSecret chapterId wk k → k ≠ [] →
  wp (KeyRotationService.unwrapChapterKey wk rootSecret chapterId) w
    (λ l w', l = S (length (heap w)) ∧
             framed w (heap w ++ [zeros 32; k])
               (trace w ++ [EvNative "hkdf"; EvNative "aesGCMDecrypt"]) w').
Proof.
  intros (blob & Hblob & Hdec) Hk.
  unfold KeyRotationService.unwrapChapterKey.
  wp_step deriveWrappingKey_spec. intros l w1 (-> & Hf1).
  pose proof (wrapping_key_of_length rootSecret chapterId (version wk)) as Hlen.
  assert (Hl : heap w1 !! length (heap w)
               = Some (wrapping_key_of rootSecret chapterId (version wk))).
  { destruct Hf1 as (-> & _). apply lookup_snoc. }
  wp_last (unwrap_with_key _ blob k _ _ w1 Hl Hblob Hdec Hk).
  intros r w2 (-> & Hf2). rewrite Hlen in Hf2.
  unframe. split; [|split; [|split]].
  + heap_simpl. rewrite length_app. simpl. lia.
  + heap_simpl. rewrite insert_snoc. by rewrite <- app_assoc.
  + heap_simpl. by rewrite <- app_assoc.
  + eauto 10 using same_state_trans.
Qed.

(** [rotateWrappedKey] returns an envelope of the next version that opens
    to the same key; the unwrapped key is left on the heap as zeros. *)
Lemma rotateWrappedKey_spec (wk : WrappedChapterKey) (k rootSecret : bytes)
    (chapterId : string) (now : Z) (w : World) :
  opens_to rootSecret chapterId wk k → k ≠ [] →
  wp (KeyRotationService.rotateWrappedKey wk rootSecret chapterId now) w
    (λ wk' w', version wk' = version wk + 1 ∧ rotationTimestamp wk' = now ∧
               opens_to rootSecret chapterId wk' k ∧
               framed w (heap w ++ [zeros 32; zeros (length k); zeros 32])
                 (trace w ++ [EvNative "hkdf"; EvNative "aesGCMDecrypt";
                              EvNative "hkdf"; EvNative "aesGCMEncrypt"]) w').
Proof.
  intros Hopen Hk. unfold KeyRotationService.rotateWrappedKey.
  wp_step (unwrapChapterKey_spec wk k rootSecret chapterId w Hopen Hk).
  intros l w1 (-> & Hf1).
  assert (Hl : heap w1 !! S (length (heap w)) = Some k).
  { destruct Hf1 as (-> & _).
    change (heap w ++ [zeros 32; k]) with (heap w ++ [zeros 32] ++ [k]).
    rewrite app_assoc.
    replace (S (length (heap w))) with (length (heap w ++ [zeros 32]))
      by (rewrite length_app; simpl; lia).
    apply lookup_snoc. }
  eapply wp_try_finally.
  - wp_step wp_read. intros c w2 (-> & ->). rewrite Hl.
    change (default [] (Some k)) with k.
    wp_last wrapChapterKey_spec. intros wk' w3 (Hv & Ht & Hopen' & Hf3).
    instantiate (1 := λ wk' w', version wk' = version wk + 1 ∧ rotationTimestamp wk' = now ∧
                   opens_to rootSecret chapterId wk' k ∧
                   framed w (heap w ++ [zeros 32; k; zeros 32])
                     (trace w ++ [EvNative "hkdf"; EvNative "aesGCMDecrypt";
                                  EvNative "hkdf"; EvNative "aesGCMEncrypt"]) w').
    cbv beta. split; [done|]. split; [done|]. split; [done|].
    unframe. split; [|split].
    + heap_simpl. by rewrite <- app_assoc.
    + heap_simpl. by rewrite <- app_assoc.
    + eauto 10 using same_state_trans.
  - intros wk' w2 (Hv & Ht & Hopen' & Hf2). cbv beta.
    assert (Hl2 : heap w2 !! S (length (heap w)) = Some k).
    { destruct Hf2 as (-> & _).
      change (heap w ++ [zeros 32; k; zeros 32])
        with (heap w ++ [zeros 32] ++ [k] ++ [zeros 32]).
      rewrite app_assoc.
      replace (S (length (heap w))) with (length (heap w ++ [zeros 32]))
        by (rewrite length_app; simpl; lia).
      by apply list_lookup_middle. }
    wp_last (wipe_spec (S (length (heap w))) w2 k Hl2). intros ? w3 Hf3.
    split; [done|]. split; [done|]. split; [done|].
    unframe. split; [|split].
    + heap_simpl.
      change (heap w ++ [zeros 32; k; zeros 32])
        with (heap w ++ [zeros 32] ++ [k] ++ [zeros 32]).
      rewrite app_assoc.
      replace (S (length (heap w))) with (length (heap w ++ [zeros 32]) + 0)%nat
        by (rewrite length_app; simpl; lia).
      rewrite insert_app_r. simpl. by rewrite <- app_assoc.
    + by heap_simpl.
    + eauto 10 using same_state_trans.
Qed.
End rotation_properties.

(** *** What a run can do to the files *)

Section keeps_rules.
Context {R : World → World → Prop}.
Hypothesis R_refl : ∀ w, R w w.
Hypothesis R_trans : ∀ w1 w2 w3, R w1 w2 → R w2 w3 → R w1 w3.

Lemma keeps_ret {A} (a : A) : keeps R (ret a).
Proof. intros w r w' [= <- <-]. apply R_refl. Qed.

Lemma keeps_throw {A} (e : Exn) : keeps R (@throw A e).
Proof. intros w r w' [= <- <-]. apply R_refl. Qed.

Lemma keeps_get_world : keeps R get_world.
Proof. intros w r w' [= <- <-]. apply R_refl. Qed.

Lemma keeps_read (l : loc) : keeps R (read l).
Proof. intros w r w' [= <- <-]. apply R_refl. Qed.

Lemma keeps_bind {A B} (m : M A) (k : A → M B) :
  keeps R m → (∀ a, keeps R (k a)) → keeps R (bind m k).
Proof.
  intros Hm Hk w r w'. unfold bind.
  destruct (m w) as [[a|e] w1] eqn:Hrun.
  - intros Hrun2. eapply R_trans; [by eapply Hm|by eapply Hk].
  - intros [= <- <-]. by eapply Hm.
Qed.

Lemma keeps_try_finally {A} (body : M A) (fin : M unit) :
  keeps R body → keeps R fin → keeps R (try_finally body fin).
Proof.
  intros Hbody Hfin w r w'. unfold try_finally.
  destruct (body w) as [r1 w1] eqn:Hrun.
  destruct (fin w1) as [[u|e] w2] eqn:Hrun2; intros [= <- <-];
    (eapply R_trans; [by eapply Hbody|by eapply Hfin]).
Qed.
End keeps_rules.

Lemma keeps_modify (R : World → World → Prop) (f : World → World) :
  (∀ w, R w (f w)) → keeps R (modify f).
Proof. intros Hf w r w' [= <- <-]. apply Hf. Qed.

Lemma keeps_weaken {A} (R R' : World → World → Prop) (m : M A) :
  (∀ w w', R w w' → R' w w') → keeps R m → keeps R' m.
Proof. intros Himp Hm w r w' Hrun. apply Himp. by eapply Hm. Qed.

Lemma files_same_refl (w : World) : files_same w w.
Proof. by split. Qed.

Lemma files_same_trans (w1 w2 w3 : World) :
  files_same w1 w2 → files_same w2 w3 → files_same w1 w3.
Proof. intros [H1 H2] [H3 H4]. split; congruence. Qed.

Lemma framed_files_same (w w' : World) (h : list bytes) (t : list Event) :
  framed w h t w' → files_same w w'.
Proof. intros (_ & _ & Henv & _ & Hfiles & _). by split. Qed.

(** A computation that always returns keeps what its specification keeps. *)
Lemma keeps_wp {A} (R : World → World → Prop) (m : M A) :
  (∀ w, wp m w (λ _ w', R w w')) → keeps R m.
Proof.
  intros Hwp w r w' Hrun. destruct (Hwp w) as (a & w1 & Hrun1 & HR).
  rewrite Hrun in Hrun1. by injection Hrun1 as -> ->.
Qed.

Lemma keeps_wipe (buf : option loc) : keeps files_same (MemoryWiper.wipeUint8Array buf).
Proof.
  apply keeps_wp. intros w. wp_last wipe_any. intros ? w'. apply framed_files_same.
Qed.

Lemma keeps_log (e : Event) : keeps files_same (log e).
Proof. by apply keeps_modify. Qed.

Lemma keeps_alloc (contents : bytes) : keeps files_same (alloc contents).
Proof. by intros w r w' [= <- <-]. Qed.

Lemma keeps_take_entropy (n : nat) : keeps files_same (take_entropy n).
Proof. by intros w r w' [= <- <-]. Qed.

(** One step of a proof that a straight-line service function keeps the
    files: the rule of the head construct, or a case split on what it
    branches on. *)
Ltac keeps_files_step :=
  lazymatch goal with
  | |- keeps _ (bind _ _) =>
      apply (keeps_bind files_same_trans); [|intros ?]
  | |- keeps _ (try_finally _ _) =>
      apply (keeps_try_finally files_same_trans)
  | |- keeps _ (ret _) => apply (keeps_ret files_same_refl)
  | |- keeps _ (throw _) => apply (keeps_throw files_same_refl)
  | |- keeps _ get_world => apply (keeps_get_world files_same_refl)
  | |- keeps _ (read _) => apply (keeps_read files_same_refl)
  | |- keeps _ (log _) => apply keeps_log
  | |- keeps _ (alloc _) => apply keeps_alloc
  | |- keeps _ (take_entropy _) => apply keeps_take_entropy
  | |- keeps _ (MemoryWiper.wipeUint8Array _) => apply keeps_wipe
  | |- keeps _ (modify _) => apply keeps_modify; intros ?; by split
  | |- keeps _ (match ?x with Some _ => _ | None => _ end) => destruct x
  | |- keeps _ (if ?x then _ else _) => destruct x
  | |- keeps _ (let '(_, _) := ?x in _) => destruct x
  end.

Ltac keeps_files := repeat keeps_files_step.

Section rotation_files.
Context `{P : Primitives} {L : PrimitivesLaws P}.

Lemma keeps_getItemAsync (key : string) : keeps files_same (SecureStore.getItemAsync key).
Proof. unfold SecureStore.getItemAsync. keeps_files. Qed.

Lemma keeps_isRotationDue (now : Z) : keeps files_same (KeyRotationService.isRotationDue now).
Proof.
  unfold KeyRotationService.isRotationDue.
  apply (keeps_bind files_same_trans); [apply keeps_getItemAsync|].
  intros tsStr. keeps_files.
Qed.

Lemma keeps_readMeta (key : string) : keeps files_same (SecureFileStorage.readMeta key).
Proof.
  unfold SecureFileStorage.readMeta, FileSystem.exists_, FileSystem.readAsStringAsync.
  keeps_files.
Qed.

Lemma keeps_loadWrappedKey (chapterId : string) :
  keeps files_same (MetadataStore.loadWrappedKey chapterId).
Proof.
  unfold MetadataStore.loadWrappedKey.
  apply (keeps_bind files_same_trans); [apply keeps_readMeta|].
  intros raw. keeps_files.
Qed.

Lemma keeps_hkdf (ikmB64 saltB64 info : string) (n : nat) :
  keeps files_same (NativeCrypto.hkdf ikmB64 saltB64 info n).
Proof. unfold NativeCrypto.hkdf. keeps_files. Qed.

Lemma keeps_pbkdf2 (passwordB64 saltB64 : string) (iterations keyLength : Z) :
  keeps files_same (NativeCrypto.pbkdf2 passwordB64 saltB64 iterations keyLength).
Proof. unfold NativeCrypto.pbkdf2. keeps_files. Qed.

Lemma keeps_aesGCMEncrypt (keyB64 plaintextB64 : string) (aadB64 : option string) :
  keeps files_same (NativeCrypto.aesGCMEncrypt keyB64 plaintextB64 aadB64).
Proof.
  unfold NativeCrypto.aesGCMEncrypt, crypto_core.nativeAESGCMEncrypt. keeps_files.
Qed.

Lemma keeps_aesGCMDecrypt (keyB64 blobB64 : string) (aadB64 : option string) :
  keeps files_same (NativeCrypto.aesGCMDecrypt keyB64 blobB64 aadB64).
Proof. unfold NativeCrypto.aesGCMDecrypt. keeps_files. Qed.

Lemma keeps_deriveRootSecret (userId : option string) :
  keeps files_same (RootKeyService.deriveRootSecret userId).
Proof.
  unfold RootKeyService.deriveRootSecret.
  apply (keeps_bind files_same_trans); [apply keeps_getItemAsync|].
  intros saltB64. destruct saltB64 as [saltB64|]; [|keeps_files].
  destruct (String.eqb saltB64 EmptyString); [keeps_files|].
  apply (keeps_bind files_same_trans).
  { destruct userId; [keeps_files|apply keeps_getItemAsync]. }
  intros uid. destruct uid as [uid|]; [|keeps_files].
  destruct (String.eqb uid EmptyString); [keeps_files|].
  apply (keeps_bind files_same_trans); [keeps_files|]. intros w0.
  apply (keeps_bind files_same_trans); [apply keeps_pbkdf2|].
  intros derivedB64. keeps_files.
Qed.

Lemma keeps_deriveWrappingKey (rootSecret : bytes) (chapterId : string) (v : Z) :
  keeps files_same (KeyRotationService._deriveWrappingKey rootSecret chapterId v).
Proof.
  unfold KeyRotationService._deriveWrappingKey.
  apply (keeps_bind files_same_trans); [apply keeps_hkdf|].
  intros b64. keeps_files.
Qed.

Lemma keeps_wrapChapterKey (k rootSecret : bytes) (chapterId : string) (v now : Z) :
  keeps files_same (KeyRotationService.wrapChapterKey k rootSecret chapterId v now).
Proof.
  unfold KeyRotationService.wrapChapterKey.
  apply (keeps_bind files_same_trans); [apply keeps_deriveWrappingKey|].
  intros l. keeps_files_step; [|keeps_files]. cbv zeta.
  keeps_files_step; [keeps_files|].
  apply (keeps_bind files_same_trans); [apply keeps_aesGCMEncrypt|].
  intros wrappedB64. keeps_files.
Qed.

Lemma keeps_unwrapChapterKey (wk : WrappedChapterKey) (rootSecret : bytes)
    (chapterId : string) :
  keeps files_same (KeyRotationService.unwrapChapterKey wk rootSecret chapterId).
Proof.
  unfold KeyRotationService.unwrapChapterKey.
  apply (keeps_bind files_same_trans); [apply keeps_deriveWrappingKey|].
  intros l. keeps_files_step; [|keeps_files].
  keeps_files_step; [keeps_files|]. cbv zeta.
  apply (keeps_bind files_same_trans); [apply keeps_aesGCMDecrypt|].
  intros ptB64. keeps_files.
Qed.

Lemma keeps_rotateWrappedKey (wk : WrappedChapterKey) (rootSecret : bytes)
    (chapterId : string) (now : Z) :
  keeps files_same (KeyRotationService.rotateWrappedKey wk rootSecret chapterId now).
Proof.
  unfold KeyRotationService.rotateWrappedKey.
  apply (keeps_bind files_same_trans); [apply keeps_unwrapChapterKey|].
  intros l. keeps_files_step; [|keeps_files].
  keeps_files_step; [keeps_files|]. apply keeps_wrapChapterKey.
Qed.

Lemma keeps_recordRotationTimestamp (now : Z) :
  keeps files_same (KeyRotationService.recordRotationTimestamp now).
Proof.
  unfold KeyRotationService.recordRotationTimestamp, SecureStore.setItemAsync. keeps_files.
Qed.

Lemma files_but_refl (path : World → string) (w : World) : files_but path w w.
Proof. by split. Qed.

Lemma files_same_but (path : World → string) (w w' : World) :
  files_same w w' → files_but path w w'.
Proof. intros [Henv Hfiles]. split; [done|]. intros p _. by rewrite Hfiles. Qed.

Lemma wk_path_env (chapterId : string) (w w' : World) :
  env w' = env w → wk_path chapterId w' = wk_path chapterId w.
Proof. unfold wk_path, SecureFileStorage.META_ROOT. by intros ->. Qed.

Lemma files_but_wk_trans (chapterId : string) (w1 w2 w3 : World) :
  files_but (wk_path chapterId) w1 w2 → files_but (wk_path chapterId) w2 w3 →
  files_but (wk_path chapterId) w1 w3.
Proof.
  intros [He1 Hf1] [He2 Hf2]. split; [congruence|].
  intros p Hp. rewrite Hf2, Hf1; [done|done|]. by rewrite (wk_path_env _ _ _ He1).
Qed.

Lemma storeWrappedKey_files (chapterId : string) (wk : WrappedChapterKey) :
  keeps (files_but (wk_path chapterId)) (MetadataStore.storeWrappedKey chapterId wk).
Proof.
  unfold MetadataStore.storeWrappedKey, SecureFileStorage.writeMeta,
    FileSystem.writeAsStringAsync.
  intros w r w'. unfold bind, get_world, log, modify. intros [= <- <-].
  split; [done|]. intros p Hp. simpl. by rewrite lookup_insert_ne.
Qed.

Lemma rotateKeyIfDue_files (chapterId : string) (t_due t_wrap t_record : Z) :
  keeps (files_but (wk_path chapterId))
    (ChapterRepository.rotateKeyIfDue chapterId t_due t_wrap t_record).
Proof.
  pose proof (files_but_refl (wk_path chapterId)) as Hrefl.
  pose proof (files_but_wk_trans chapterId) as Htrans.
  assert (Hsame : ∀ A (m : M A), keeps files_same m → keeps (files_but (wk_path chapterId)) m).
  { intros A m. apply keeps_weaken. apply files_same_but. }
  unfold ChapterRepository.rotateKeyIfDue.
  apply (keeps_bind Htrans); [apply Hsame, keeps_isRotationDue|].
  intros due. destruct due; simpl negb; cbv iota; [|apply (keeps_ret Hrefl)].
  apply (keeps_bind Htrans); [apply Hsame, keeps_loadWrappedKey|].
  intros wrapped. destruct wrapped as [wrapped|]; [|apply (keeps_ret Hrefl)].
  apply (keeps_bind Htrans); [apply Hsame, keeps_deriveRootSecret|].
  intros rootSecret.
  apply (keeps_try_finally Htrans).
  - apply (keeps_bind Htrans); [apply Hsame; keeps_files|]. intros rs.
    apply (keeps_bind Htrans); [apply Hsame, keeps_rotateWrappedKey|].
    intros newWrapped. apply storeWrappedKey_files.
  - apply Hsame.
    apply (keeps_bind files_same_trans); [apply keeps_wipe|].
    intros _. apply keeps_recordRotationTimestamp.
Qed.

Lemma string_append_assoc (a b c : string) : (a +:+ b) +:+ c = a +:+ (b +:+ c).
Proof. induction a as [|x a IH]; [done|]. change (String x ((a +:+ b) +:+ c) = String x (a +:+ b +:+ c)). by rewrite IH. Qed.

(** A fragment file is never the file of a wrapped key: the two live
    under different directories of the document directory. *)
Lemma fragment_path_not_wk (chapterId chapterId' filename : string) (w : World) :
  fragment_path chapterId' filename w ≠ wk_path chapterId w.
Proof.
  unfold fragment_path, wk_path, SecureFileStorage.VAULT_ROOT, SecureFileStorage.META_ROOT.
  rewrite !string_append_assoc. intros Heq.
  apply append_inj_r in Heq. discriminate Heq.
Qed.
End rotation_files.

(** C4. For every chapter root key [k] that is not empty, every root
    secret, chapter and version [v]: [wrapChapterKey] returns an envelope of
    version [v], and [unwrapChapterKey] on it returns an array that holds
    exactly [k]. [rotateWrappedKey] on an envelope that opens to [k] returns
    an envelope of the next version, and [unwrapChapterKey] on that one
    returns [k] again. Whatever the outcome of [rotateKeyIfDue], every file
    other than the wrapped-key entry of the chapter reads after the call as
    it did before; no fragment file is that entry. *)
Theorem rotation_keeps_key_and_fragments `{P : Primitives} (L : PrimitivesLaws P)
    (k rootSecret : bytes) (chapterId : string) (v now : Z) (w : World) :
  k ≠ [] →
  (∃ wk w1 l w2,
     KeyRotationService.wrapChapterKey k rootSecret chapterId v now w = (Ok wk, w1) ∧
     version wk = v ∧ opens_to rootSecret chapterId wk k ∧
     KeyRotationService.unwrapChapterKey wk rootSecret chapterId w1 = (Ok l, w2) ∧
     heap w2 !! l = Some k) ∧
  (∀ wk now' w0, opens_to rootSecret chapterId wk k →
     ∃ wk' w1 l w2,
       KeyRotationService.rotateWrappedKey wk rootSecret chapterId now' w0 = (Ok wk', w1) ∧
       version wk' = version wk + 1 ∧
       KeyRotationService.unwrapChapterKey wk' rootSecret chapterId w1 = (Ok l, w2) ∧
       heap w2 !! l = Some k) ∧
  (∀ t_due t_wrap t_record r w',
     ChapterRepository.rotateKeyIfDue chapterId t_due t_wrap t_record w = (r, w') →
     ∀ p, p ≠ wk_path chapterId w → files w' !! p = files w !! p) ∧
  (∀ chapterId' filename, fragment_path chapterId' filename w ≠ wk_path chapterId w).
Proof.
  intros Hk.
  assert (Hunwrap : ∀ wk w1, opens_to rootSecret chapterId wk k →
            ∃ l w2, KeyRotationService.unwrapChapterKey wk rootSecret chapterId w1
                    = (Ok l, w2) ∧ heap w2 !! l = Some k).
  { intros wk w1 Hopen.
    destruct (unwrapChapterKey_spec wk k rootSecret chapterId w1 Hopen Hk)
      as (l & w2 & Hrun & -> & Hh & _).
    exists (S (length (heap w1))), w2. split; [done|]. rewrite Hh.
    change (heap w1 ++ [zeros 32; k]) with (heap w1 ++ [zeros 32] ++ [k]).
    rewrite app_assoc.
    replace (S (length (heap w1))) with (length (heap w1 ++ [zeros 32]))
      by (rewrite length_app; simpl; lia).
    apply lookup_snoc. }
  split; [|split; [|split]].
  - destruct (wrapChapterKey_spec k rootSecret chapterId v now w)
      as (wk & w1 & Hrun & Hv & _ & Hopen & _).
    destruct (Hunwrap wk w1 Hopen) as (l & w2 & Hrun2 & Hl).
    by exists wk, w1, l, w2.
  - intros wk now' w0 Hopen.
    destruct (rotateWrappedKey_spec wk k rootSecret chapterId now' w0 Hopen Hk)
      as (wk' & w1 & Hrun & Hv & _ & Hopen' & _).
    destruct (Hunwrap wk' w1 Hopen') as (l & w2 & Hrun2 & Hl).
    by exists wk', w1, l, w2.
  - intros t_due t_wrap t_record r w' Hrun.
    by destruct (rotateKeyIfDue_files chapterId t_due t_wrap t_record w r w' Hrun).
  - intros chapterId' filename. apply fragment_path_not_wk.
Qed.

Lemma rotation_keeps_key_and_fragments_witness :
  ∃ wk w1 l w2,
    KeyRotationService.wrapChapterKey (P := Mock.primitives) (replicate 32 x07) (replicate 64 x01) "ch42" 1
      1700000000000 Mock.world0 = (Ok wk, w1) ∧
    version wk = 1 ∧ opens_to (P := Mock.primitives) (replicate 64 x01) "ch42" wk (replicate 32 x07) ∧
    KeyRotationService.unwrapChapterKey (P := Mock.primitives) wk (replicate 64 x01) "ch42" w1 = (Ok l, w2) ∧
    heap w2 !! l = Some (replicate 32 x07).
Proof.
  apply (rotation_keeps_key_and_fragments Mock_laws (replicate 32 x07) (replicate 64 x01)
           "ch42" 1 1700000000000 Mock.world0).
  discriminate.
Defined.

(** * Further properties of the services *)

(** ** MemoryWiper *)






(** ** CanaryService *)

(** X2. For every data and every 16-byte canary, [verify] accepts the array
    that [embed] returns; the array holds the data, then the canary, then
    the 16 padding bytes, and [verify] changes nothing. *)
Theorem verify_accepts_embedded (data cn : bytes) (c : loc) (w : World) :
  heap w !! c = Some cn → length cn = 16%nat →
  ∃ out w1,
    CanaryService.embed data c w = (Ok out, w1) ∧
    heap w1 !! out = Some (data ++ cn ++ padding_of cn) ∧
    heap w !! out = None ∧
    CanaryService.verify out c w1 = (Ok true, w1).
Proof.
  intros Hc Hlen.
  destruct (embed_spec data c cn w Hc Hlen) as (out & w1 & Hrun & -> & Hh & _).
  assert (Hout : heap w1 !! length (heap w) = Some (data ++ cn ++ padding_of cn)).
  { rewrite Hh. apply lookup_snoc. }
  assert (Hc1 : heap w1 !! c = Some cn).
  { rewrite Hh. by apply lookup_app_l_Some. }
  exists (length (heap w)), w1. split; [done|]. split; [done|].
  split; [by apply lookup_ge_None_2|].
  destruct (verify_spec _ c _ cn w1 Hout Hc1 Hlen) as (ok & w2 & Hrun2 & -> & ->).
  rewrite Hrun2. f_equal. f_equal. apply bool_decide_eq_true_2.
  rewrite !length_app, padding_of_length, Hlen. split; [lia|].
  replace (length data + (16 + 16) - 32)%nat with (length data) by lia.
  rewrite drop_app_length. rewrite <- Hlen. apply take_app_length.
Qed.

Lemma verify_accepts_embedded_witness :
  ∃ out w1,
    CanaryService.embed [x0a; x0b] 0%nat (set_heap (λ _, [replicate 16 x07]) Mock.world0)
    = (Ok out, w1) ∧
    CanaryService.verify out 0%nat w1 = (Ok true, w1).
Proof.
  destruct (verify_accepts_embedded [x0a; x0b] (replicate 16 x07) 0
              (set_heap (λ _, [replicate 16 x07]) Mock.world0))
    as (out & w1 & Hrun & _ & _ & Hver); [reflexivity|reflexivity|].
  exists out, w1. split; [exact Hrun|exact Hver].
Defined.

(** X3. [verify] reads two arrays and changes nothing. Against a 16-byte
    canary it answers true exactly when the array has at least 32 bytes and
    the 16 bytes that start 32 bytes before its end are the canary: neither
    the data in front nor the 16 padding bytes behind are inspected. *)
Theorem verify_decides (d e : loc) (dv ev : bytes) (w : World) :
  heap w !! d = Some dv → heap w !! e = Some ev → length ev = 16%nat →
  CanaryService.verify d e w
  = (Ok (bool_decide ((32 ≤ length dv)%nat ∧ take 16 (drop (length dv - 32) dv) = ev)), w) ∧
  (∀ data pad, length pad = 16%nat → dv = data ++ ev ++ pad →
     CanaryService.verify d e w = (Ok true, w)) ∧
  ((length dv < 32)%nat → CanaryService.verify d e w = (Ok false, w)).
Proof.
  intros Hd He Hlen.
  destruct (verify_spec d e dv ev w Hd He Hlen) as (ok & w' & Hrun & -> & ->).
  split; [done|]. split.
  - intros data pad Hpad ->. rewrite Hrun. f_equal. f_equal.
    apply bool_decide_eq_true_2. rewrite !length_app, Hpad, Hlen. split; [lia|].
    replace (length data + (16 + 16) - 32)%nat with (length data) by lia.
    rewrite drop_app_length. rewrite <- Hlen. apply take_app_length.
  - intros Hshort. rewrite Hrun. f_equal. f_equal.
    apply bool_decide_eq_false_2. lia.
Qed.

Lemma verify_decides_witness :
  CanaryService.verify 0%nat 1%nat
    (set_heap (λ _, [[x01; x02; x03]; replicate 16 x07]) Mock.world0)
  = (Ok false, set_heap (λ _, [[x01; x02; x03]; replicate 16 x07]) Mock.world0).
Proof.
  apply (verify_decides 0 1 [x01; x02; x03] (replicate 16 x07)
           (set_heap (λ _, [[x01; x02; x03]; replicate 16 x07]) Mock.world0));
    [reflexivity|reflexivity|reflexivity|simpl; lia].
Defined.

(** X4. [strip] returns a copy, not a view: on an array of at least 32
    bytes it returns a fresh array with all but the last 32 bytes, and when
    the source is wiped afterwards the result still holds them. On a shorter
    array it throws a RangeError and creates nothing. *)
Theorem strip_copies (d : loc) (dv : bytes) (w : World) :
  heap w !! d = Some dv →
  ((32 ≤ length dv)%nat →
   ∃ r w1 w2,
     CanaryService.strip d w = (Ok r, w1) ∧ r ≠ d ∧ heap w !! r = None ∧
     heap w1 !! r = Some (take (length dv - 32) dv) ∧ heap w1 !! d = Some dv ∧
     MemoryWiper.wipeUint8Array (Some d) w1 = (Ok tt, w2) ∧
     heap w2 !! d = Some (zeros (length dv)) ∧
     heap w2 !! r = Some (take (length dv - 32) dv)) ∧
  ((length dv < 32)%nat →
   CanaryService.strip d w = (Throw (Error "RangeError: Invalid typed array length"), w)).
Proof.
  intros Hd. split.
  - intros Hlen.
    destruct (strip_spec d dv w Hd Hlen) as (r & w1 & Hrun & -> & Hh & _).
    pose proof (lookup_lt_Some _ _ _ Hd) as Hlt.
    assert (Hd1 : heap w1 !! d = Some dv).
    { rewrite Hh. by apply lookup_app_l_Some. }
    destruct (wipe_spec d w1 dv Hd1) as ([] & w2 & Hrun2 & Hh2 & _).
    exists (length (heap w)), w1, w2. split; [done|]. split; [lia|].
    split; [by apply lookup_ge_None_2|].
    split; [rewrite Hh; apply lookup_snoc|]. split; [done|]. split; [done|].
    rewrite Hh2. split.
    + apply list_lookup_insert_eq. by eapply lookup_lt_Some.
    + rewrite list_lookup_insert_ne by lia. rewrite Hh. apply lookup_snoc.
  - intros Hshort. unfold CanaryService.strip, bind, read. rewrite Hd. simpl.
    destruct (Nat.ltb_spec (length dv) CRYPTO_CONSTANTS.CANARY_TOTAL_OVERHEAD) as [_|Hge];
      [done|].
    change CRYPTO_CONSTANTS.CANARY_TOTAL_OVERHEAD with 32%nat in Hge. lia.
Qed.

Lemma strip_copies_witness :
  CanaryService.strip 0%nat (set_heap (λ _, [[x01; x02; x03]]) Mock.world0)
  = (Throw (Error "RangeError: Invalid typed array length"),
     set_heap (λ _, [[x01; x02; x03]]) Mock.world0).
Proof.
  apply (strip_copies 0 [x01; x02; x03] (set_heap (λ _, [[x01; x02; x03]]) Mock.world0));
    [reflexivity|simpl; lia].
Defined.

(** ** CryptoEngine *)



(** X6. For every 32-byte key, associated data and plaintext that is not
    empty, [decrypt] on what [encrypt] returned gives a fresh array with the
    plaintext. For the empty plaintext, under a Base64 codec that encodes no
    bytes as the empty text, [decrypt] takes the empty result of the native
    call for a failure and throws the authentication error although the tag
    was accepted. *)
Theorem CryptoEngine_decrypt_encrypt `{P : Primitives} (L : PrimitivesLaws P)
    (key pt aad : bytes) (w : World) :
  length key = 32%nat →
  ∃ blob w1,
    CryptoEngine.encrypt key pt (Some aad) w = (Ok blob, w1) ∧
    (pt ≠ [] →
     ∃ l w2, CryptoEngine.decrypt key blob w1 = (Ok l, w2) ∧
             heap w2 !! l = Some pt ∧ heap w1 !! l = None) ∧
    (pt = [] → base64 [] = EmptyString →
     ∃ w2, CryptoEngine.decrypt key blob w1
           = (Throw (Error "GCM authentication tag mismatch — fragment integrity violated"),
              w2)).
Proof.
  intros Hkey.
  destruct (encrypt_spec key pt aad w Hkey) as (blob & w1 & Hrun & (iv & Hiv & ->) & Hf).
  exists (mkBlob (base64 (sealed key iv aad pt)) (Some (base64 aad))), w1.
  split; [done|].
  pose proof (nativeAESGCMDecrypt_layout key iv aad pt Hkey Hiv) as Hopen.
  fold (sealed key iv aad pt) in Hopen.
  split.
  - intros Hpt.
    destruct (decrypt_ok key _ aad _ pt w1 (Base64_decode_encode _) Hopen Hpt)
      as (l & w2 & Hrun2 & -> & Hh & _).
    exists (length (heap w1)), w2. split; [done|]. rewrite Hh.
    split; [apply lookup_snoc|by apply lookup_ge_None_2].
  - intros -> Hempty. unfold CryptoEngine.decrypt.
    simpl blob_aadB64. simpl blob_data.
    destruct (aesGCMDecrypt_ok key _ (Some aad) _ [] w1 (Base64_decode_encode _) Hopen)
      as (ptB64 & w2 & Hrun2 & -> & _).
    exists w2. rewrite (bind_ok _ _ _ _ _ Hrun2). by rewrite Hempty.
Qed.

Lemma CryptoEngine_decrypt_encrypt_witness :
  ∃ blob w1,
    CryptoEngine.encrypt (P := Mock.primitives) (replicate 32 x01) [x2a] (Some [x07])
      Mock.world0 = (Ok blob, w1) ∧
    ∃ l w2, CryptoEngine.decrypt (P := Mock.primitives) (replicate 32 x01) blob w1 = (Ok l, w2) ∧
            heap w2 !! l = Some [x2a].
Proof.
  destruct (CryptoEngine_decrypt_encrypt Mock_laws (replicate 32 x01) [x2a] [x07] Mock.world0)
    as (blob & w1 & Hrun & Hok & _); [reflexivity|].
  exists blob, w1. split; [exact Hrun|].
  destruct Hok as (l & w2 & Hrun2 & Hl & _); [discriminate|].
  exists l, w2. split; [exact Hrun2|exact Hl].
Defined.

(** ** The native library *)

Section expand_properties.
Context `{P : Primitives} {L : PrimitivesLaws P}.

Lemma expand_nothing (fuel : nat) (prk info T : bytes) (ctr : Z) :
  crypto_core.expand fuel prk info T ctr 0 = [].
Proof. by destruct fuel. Qed.

Lemma expand_prefix (f1 : nat) :
  ∀ f2 prk info T ctr r1 r2,
    (r1 ≤ r2)%nat → (r1 ≤ f1)%nat → (r2 ≤ f2)%nat →
    crypto_core.expand f1 prk info T ctr r1
    = take r1 (crypto_core.expand f2 prk info T ctr r2).
Proof.
  induction f1 as [|f1 IH]; intros f2 prk info T ctr r1 r2 H12 H1 H2.
  { replace r1 with 0%nat by lia. by rewrite take_0. }
  destruct r1 as [|r1]; [by rewrite expand_nothing, take_0|].
  destruct f2 as [|f2]; [lia|]. destruct r2 as [|r2]; [lia|].
  cbn [crypto_core.expand].
  change (S r1 =? 0)%nat with false. change (S r2 =? 0)%nat with false. cbv iota.
  set (T' := HMAC_SHA256 prk ((if 1 <? ctr then T else []) ++ info ++ [byte_of_Z ctr])).
  assert (HT : length T' = 32%nat) by apply HMAC_SHA256_length.
  destruct (Nat.ltb_spec (S r1) 32) as [Hlt1|Hge1].
  - rewrite Nat.sub_diag, expand_nothing, app_nil_r.
    rewrite take_app_le.
    + rewrite take_take. f_equal. destruct (Nat.ltb_spec (S r2) 32); lia.
    + rewrite length_take, HT. destruct (Nat.ltb_spec (S r2) 32); lia.
  - destruct (Nat.ltb_spec (S r2) 32) as [Hlt2|Hge2]; [lia|].
    rewrite take_app_ge by (rewrite length_take, HT; lia).
    rewrite length_take, HT. replace (32 `min` 32)%nat with 32%nat by done.
    f_equal. apply IH; lia.
Qed.

Lemma expand_first_block (fuel : nat) (prk info T : bytes) :
  crypto_core.expand (S fuel) prk info T 1 32 = take 32 (HMAC_SHA256 prk (info ++ [x01])).
Proof.
  change (crypto_core.expand (S fuel) prk info T 1 32)
    with (take 32 (HMAC_SHA256 prk ([] ++ info ++ [x01]))
            ++ crypto_core.expand fuel prk info
                 (HMAC_SHA256 prk ([] ++ info ++ [x01])) ((1 + 1) mod 256) 0).
  by rewrite expand_nothing, app_nil_r.
Qed.
End expand_properties.

(** X7. The HKDF of the native library returns exactly the number of bytes
    asked for, and a shorter output is a prefix of a longer one for the same
    key material, salt and label. An output of at most 32 bytes is the
    start of the first block, HMAC(PRK, info || 0x01) with
    PRK = HMAC(salt, IKM). *)
Theorem nativeHKDF_prefix `{P : Primitives} (L : PrimitivesLaws P)
    (ikm salt info : bytes) (n m : nat) :
  (n ≤ m)%nat →
  length (crypto_core.nativeHKDF ikm salt info n) = n ∧
  crypto_core.nativeHKDF ikm salt info n = take n (crypto_core.nativeHKDF ikm salt info m) ∧
  ((n ≤ 32)%nat →
   crypto_core.nativeHKDF ikm salt info n
   = take n (HMAC_SHA256 (HMAC_SHA256 salt ikm) (info ++ [x01]))).
Proof.
  intros Hnm. split; [apply nativeHKDF_length|]. split.
  - unfold crypto_core.nativeHKDF. by apply expand_prefix.
  - intros Hn. unfold crypto_core.nativeHKDF.
    rewrite (expand_prefix n 32 _ _ _ _ n 32) by lia.
    rewrite (expand_first_block 31).
    rewrite take_take. f_equal. lia.
Qed.

Lemma nativeHKDF_prefix_witness :
  crypto_core.nativeHKDF (P := Mock.primitives) [x01] [x02] [x03] 16
  = take 16 (crypto_core.nativeHKDF (P := Mock.primitives) [x01] [x02] [x03] 32).
Proof.
  destruct (nativeHKDF_prefix Mock_laws [x01] [x02] [x03] 16 32) as (_ & Hprefix & _).
  - lia.
  - exact Hprefix.
Defined.

(** X8. A key that is not 32 bytes long, or a blob shorter than the 12-byte
    IV and the 16-byte tag together, makes the native decryption give up
    before any AES operation; the bridge reports it as AES_AUTH_FAIL, the
    same rejection as a wrong tag. With such a key the native encryption
    draws no IV and the bridge rejects with AES_ENC_FAILED. *)
Theorem malformed_input_is_auth_fail `{P : Primitives} (L : PrimitivesLaws P)
    (key blob pt : bytes) (aad : option bytes) (w : World) :
  (length key ≠ 32%nat ∨ (length blob < 28)%nat →
   ∃ w', NativeCrypto.aesGCMDecrypt (base64 key) (base64 blob) (option_map base64 aad) w
         = (Throw (Rejected "AES_AUTH_FAIL" "GCM tag mismatch — integrity violation"), w') ∧
         kind_of (Rejected "AES_AUTH_FAIL" "GCM tag mismatch — integrity violation")
         = Some AuthFail) ∧
  (length key ≠ 32%nat →
   ∃ w', NativeCrypto.aesGCMEncrypt (base64 key) (base64 pt) (option_map base64 aad) w
         = (Throw (Rejected "AES_ENC_FAILED" "Encryption returned null"), w') ∧
         rng_pos w' = rng_pos w ∧ heap w' = heap w).
Proof.
  split.
  - intros Hbad.
    assert (Hnone : crypto_core.nativeAESGCMDecrypt key blob aad = None).
    { unfold crypto_core.nativeAESGCMDecrypt.
      destruct (Nat.eqb_spec (length key) 32) as [Hk|Hk];
        destruct (Nat.ltb_spec (length blob) 28) as [Hb|Hb]; try done.
      destruct Hbad; [done|lia]. }
    destruct (aesGCMDecrypt_auth_fail key (base64 blob) aad blob w
                (Base64_decode_encode _) Hnone) as (e & w' & Hrun & -> & _).
    by exists w'.
  - intros Hk. unfold NativeCrypto.aesGCMEncrypt.
    rewrite !Base64_decode_encode, decode_aad.
    unfold crypto_core.nativeAESGCMEncrypt.
    destruct (Nat.eqb_spec (length key) 32) as [Hk'|_]; [done|]. simpl negb. cbv iota.
    eexists. split; [reflexivity|]. done.
Qed.

Lemma malformed_input_is_auth_fail_witness :
  ∃ w', NativeCrypto.aesGCMDecrypt (P := Mock.primitives)
          (base64 (Primitives := Mock.primitives) (replicate 32 x01))
          (base64 (Primitives := Mock.primitives) [x01; x02; x03]) None Mock.world0
        = (Throw (Rejected "AES_AUTH_FAIL" "GCM tag mismatch — integrity violation"), w').
Proof.
  destruct (malformed_input_is_auth_fail Mock_laws (replicate 32 x01) [x01; x02; x03] []
              None Mock.world0) as [Hdec _].
  destruct Hdec as (w' & Hrun & _); [right; simpl; lia|].
  exists w'. exact Hrun.
Defined.

(** ** FragmentEngine.split: sizes and number of fragments *)

Section split_sizes.
Import CRYPTO_CONSTANTS.




End split_sizes.


(** ** FragmentEngine: what the pipeline leaves behind *)



